(** * redisbetween: the caching proxy core (proxy.go and the Cache)

    A shallow embedding of [proxy/proxy.go] and of the [Cache] type of the
    [proxy] package, with the properties of the specification that concern
    the cache read and fill paths, upstream discovery and the local socket
    naming.

    Conventions.
    - Go [string] and [[]byte] are both byte sequences: [string] here.
    - A Go function that mutates a receiver is a state transformer
      [M S A := S -> res A * S]; a run-time panic (index out of range, slice
      bounds) is the result [Panicked], and the state reached when the panic
      was raised is kept, as the heap is in Go.
    - A nil slice is [None] where the code tests for nil, a nil pointer is
      [None] where the code can store one. *)

From Stdlib Require Import ZArith Ascii String DecimalString.
From stdpp Require Import gmap strings list fin_maps.

Local Open Scope string_scope.
Local Open Scope list_scope.

(** ** Panics and state *)

Inductive res (A : Type) : Type :=
| Val (a : A)
| Panicked.
Arguments Val {A} a.
Arguments Panicked {A}.

Definition M (S A : Type) : Type := S -> res A * S.

Definition ret {S A} (a : A) : M S A := fun s => (Val a, s).

Definition bind {S A B} (m : M S A) (k : A -> M S B) : M S B :=
  fun s => match m s with
           | (Val a, s') => k a s'
           | (Panicked, s') => (Panicked, s')
           end.

Definition panic {S A} : M S A := fun s => (Panicked, s).
Definition get {S} : M S S := fun s => (Val s, s).
Definition modify {S} (f : S -> S) : M S unit := fun s => (Val tt, f s).

(** [l[i]] of Go: a panic out of range. *)
Definition index {S A} (l : list A) (i : nat) : M S A :=
  match l !! i with
  | Some x => ret x
  | None => panic
  end.

(** Run a computation on a component of the state. *)
Definition zoom {S T A} (proj : S -> T) (upd : T -> S -> S) (m : M T A) : M S A :=
  fun s => let '(r, t) := m (proj s) in (r, upd t s).

Declare Scope go_scope.
Delimit Scope go_scope with go.
Notation "'let!' x ':=' m 'in' k" := (bind m (fun x => k))
  (at level 10, x pattern, m at level 100, k at level 200) : go_scope.
Notation "'do!' m 'in' k" := (bind m (fun _ => k))
  (at level 10, m at level 100, k at level 200) : go_scope.
Local Open Scope go_scope.

(** ** RESP messages (package [redis])

    Modelled from the spec: the message type of the [redis] package, which is
    outside [proxy].  A message is a RESP value: an error, an array of
    messages, a bulk string or another scalar.  The proxy uses it through its
    fields [Value] and [Array] and the tests [IsError], [IsArray] and
    [IsBulkBytes]; the type below has exactly that: the RESP type byte, the
    payload and the elements.  The type byte is a byte, so a message can carry
    one that is no RESP type. *)

Abbreviation bytes := string (only parsing).
Abbreviation error := string (only parsing).

Definition MessageType : Type := ascii.
Definition TypeString : MessageType := "+"%char.
Definition TypeError : MessageType := "-"%char.
Definition TypeInt : MessageType := ":"%char.
Definition TypeBulkBytes : MessageType := "$"%char.
Definition TypeArray : MessageType := "*"%char.

#[warnings="-register-all"]
Inductive Message : Type :=
| mkMessage (Type_ : MessageType) (Value : bytes) (Array : list Message).

Definition Type_ (m : Message) : MessageType :=
  match m with mkMessage t _ _ => t end.
Definition Value (m : Message) : bytes :=
  match m with mkMessage _ v _ => v end.
Definition Array (m : Message) : list Message :=
  match m with mkMessage _ _ a => a end.

Definition IsError (m : Message) : bool := Ascii.eqb (Type_ m) TypeError.
Definition IsArray (m : Message) : bool := Ascii.eqb (Type_ m) TypeArray.
Definition IsBulkBytes (m : Message) : bool := Ascii.eqb (Type_ m) TypeBulkBytes.

(** [redis.NewArray]. *)
Definition NewArray (a : list Message) : Message := mkMessage TypeArray EmptyString a.

(** Modelled from the spec: the RESP wire codec is an external collaborator
    of the cache core, as are the key extraction of a command and the parser
    of a [CLUSTER SLOTS] reply (radix).  They are parameters of the
    development.  [EncodeToBytes] returns its two results as Go does: bytes
    and an error; a failed [DecodeFromBytes] is [None]. *)
Class Redis : Type := {
  EncodeToBytes : Message -> bytes * option error;
  DecodeFromBytes : bytes -> option Message;
  Keys : Message -> list bytes;
  UnmarshalClusterTopo : bytes -> list string + error
}.

(** ** freecache

    The store behind the cache: a finite map from key to the value and the
    [expireSeconds] that [Set] was called with.  The library makes its expiry
    from it ([uint32] of the seconds, and none for a value of zero or less);
    here the argument is kept as it was passed.  [fc_Set] refuses a key over
    65535 bytes and an entry over the segment's bound, as the library does.
    [fc_ops] records the calls made to the store, oldest first; expiry and
    eviction need a clock and memory pressure, and are left out. *)

Inductive fc_op : Type :=
| OpGet (key : bytes)
| OpSet (key value : bytes)
| OpDel (key : bytes)
| OpClear.

Record freecache : Type := mkFreecache {
  fc_data : gmap string (string * Z);
  fc_maxKeyValLen : nat;
  fc_ops : list fc_op
}.

Definition fc_accepts (fc : freecache) (key value : bytes) : bool :=
  (Z.of_nat (String.length key) <=? 65535)%Z
  && (String.length key + String.length value <=? fc_maxKeyValLen fc)%nat.

Definition fc_Set (key value : bytes) (expireSeconds : Z) : M freecache (option error) :=
  fun fc =>
    let ops := fc_ops fc ++ [OpSet key value] in
    if fc_accepts fc key value
    then (Val None,
          mkFreecache (<[key := (value, expireSeconds)]> (fc_data fc)) (fc_maxKeyValLen fc) ops)
    else (Val (Some "entry too large"),
          mkFreecache (fc_data fc) (fc_maxKeyValLen fc) ops).

Definition fc_Get (key : bytes) : M freecache (option bytes) :=
  fun fc =>
    (Val (fst <$> fc_data fc !! key),
     mkFreecache (fc_data fc) (fc_maxKeyValLen fc) (fc_ops fc ++ [OpGet key])).

Definition fc_Del (key : bytes) : M freecache bool :=
  fun fc =>
    (Val (bool_decide (is_Some (fc_data fc !! key))),
     mkFreecache (delete key (fc_data fc)) (fc_maxKeyValLen fc) (fc_ops fc ++ [OpDel key])).

Definition fc_Clear : M freecache unit :=
  fun fc => (Val tt, mkFreecache ∅ (fc_maxKeyValLen fc) (fc_ops fc ++ [OpClear])).

(** ** Cache *)

Record Cache : Type := mkCache {
  cache_c : freecache;
  cache_ttl : Z;
  cache_log : list (string * string)   (* error lines: message, key *)
}.

(** [freecache.NewCache]: at least 512 KiB, in 256 segments; a segment takes
    an entry of up to a quarter of its size less the 24 bytes of the entry
    header. *)
Definition fc_NewCache (size : Z) : freecache :=
  mkFreecache ∅ (Z.to_nat (Z.max size 524288 / 256 / 4 - 24)) [].

Definition NewCache (bytes : Z) (ttlSeconds : Z) : Cache :=
  mkCache (fc_NewCache bytes) ttlSeconds [].

Definition on_c {A} (m : M freecache A) : M Cache A :=
  zoom cache_c (fun fc c => mkCache fc (cache_ttl c) (cache_log c)) m.

Definition log_Error (msg key : string) : M Cache unit :=
  modify (fun c => mkCache (cache_c c) (cache_ttl c) (cache_log c ++ [(msg, key)])).

Section CacheOps.
Context `{Redis}.

Definition Cache_set (key : bytes) (mm : Message) : M Cache unit :=
  let '(b, err) := EncodeToBytes mm in
  do! (if err is Some _ then log_Error "error encoding redis message" key else ret tt) in
  let! c := get in
  let! err := on_c (fc_Set key b (cache_ttl c)) in
  if err is Some _ then log_Error "error writing to cache" key else ret tt.

(** The loop of [Set] over [m.Array]: [keys[i]] is read before the
    recursive call is made. *)
Definition Set_range (rec : list bytes -> Message -> M Cache unit) (keys : list bytes)
  : nat -> list Message -> M Cache unit :=
  fix go (i : nat) (arr : list Message) : M Cache unit :=
    match arr with
    | [] => ret tt
    | mm :: rest =>
        let! k := index keys i in
        do! rec [k] mm in
        go (S i) rest
    end.

Fixpoint Cache_Set (keys : list bytes) (m : Message) {struct m} : M Cache unit :=
  if IsError m then ret tt
  else if IsArray m then Set_range (fun ks mm => Cache_Set ks mm) keys 0 (Array m)
  else let! k := index keys 0 in Cache_set k m.

Definition Cache_Get (key : bytes) : M Cache (option Message) :=
  let! cached := on_c (fc_Get key) in
  match cached with
  | None => ret None
  | Some b => ret (DecodeFromBytes b)
  end.

Fixpoint Cache_GetAll (keys : list bytes) : M Cache (option (list Message)) :=
  match keys with
  | [] => ret (Some [])
  | kk :: rest =>
      let! cached := Cache_Get kk in
      match cached with
      | None => ret None
      | Some m =>
          let! r := Cache_GetAll rest in
          ret (cons m <$> r)
      end
  end.

Definition Cache_Del (key : bytes) : M Cache bool := on_c (fc_Del key).
Definition Cache_Clear : M Cache unit := on_c fc_Clear.

End CacheOps.

(** ** The string functions of the Go library that proxy.go uses

    Each is given for the one-byte separator or pattern the code passes. *)

(** [strings.Replace(s, old, new, -1)] for one-byte [old] and [new]. *)
Fixpoint ReplaceByte (s : string) (old new : ascii) : string :=
  match s with
  | EmptyString => EmptyString
  | String a rest =>
      String (if Ascii.eqb a old then new else a) (ReplaceByte rest old new)
  end.

(** [strings.Split(s, sep)] for a one-byte [sep]: one more piece than there
    are separators, so the empty string gives one empty piece. *)
Fixpoint Split (s : string) (sep : ascii) : list string :=
  match s with
  | EmptyString => [EmptyString]
  | String a rest =>
      if Ascii.eqb a sep then EmptyString :: Split rest sep
      else match Split rest sep with
           | [] => [String a EmptyString]
           | w :: ws => String a w :: ws
           end
  end.

(** [strings.IndexByte]: the first position of the byte, or -1. *)
Fixpoint IndexByte (s : string) (c : ascii) : Z :=
  match s with
  | EmptyString => (-1)%Z
  | String a rest =>
      if Ascii.eqb a c then 0%Z
      else let i := IndexByte rest c in
           if (i <? 0)%Z then (-1)%Z else (i + 1)%Z
  end.

(** [strings.HasPrefix]. *)
Definition HasPrefix (s pre : string) : bool := String.prefix pre s.

(** [s[lo:hi]]: a panic unless [0 <= lo <= hi <= len(s)]. *)
Definition slice {S} (s : string) (lo hi : Z) : M S string :=
  if ((0 <=? lo) && (lo <=? hi) && (hi <=? Z.of_nat (String.length s)))%Z
  then ret (substring (Z.to_nat lo) (Z.to_nat (hi - lo)) s)
  else panic.

(** A string without a colon, as [strings.IndexByte] tells. *)
Definition NoColon (s : string) : Prop := IndexByte s ":" = (-1)%Z.

(** [strconv.Itoa]. *)
Definition Itoa (d : Z) : string := NilZero.string_of_int (Z.to_int d).

(** ** The proxy *)

Definition CacheableCommands (cmd : string) : bool :=
  if decide (cmd = "GET") then true
  else if decide (cmd = "MGET") then true
  else false.

(** What the proxy keeps of a listener: its local endpoint and the upstream
    whose pool its connection handler serves. *)
Record Listener : Type := mkListener {
  l_local : string;
  l_upstream : string
}.

(** Modelled from the spec: the Invalidator type and its constructor are in a
    file of the package that is outside this development.  An invalidator has its
    target upstream address and the connection identifier that the upstream
    assigned to it on connect. *)
Record Invalidator : Type := mkInvalidator {
  inv_upstream : string;
  inv_id : Z
}.

Record Proxy : Type := mkProxy {
  LocalSocketPrefix : string;          (* config.LocalSocketPrefix *)
  LocalSocketSuffix : string;          (* config.LocalSocketSuffix *)
  upstreamConfigHost : string;
  localConfigHost : string;
  database : Z;
  cachePrefixes : option (list string);
  listeners : gmap string (option Listener);
  invalidators : gmap string (option Invalidator);
  cache : Cache;
  (* what the proxy has done to the world, oldest first *)
  log : list string;                             (* p.log: the messages *)
  servers : list string;                         (* pool.ConnectServer: pools made *)
  runningListeners : list (option Listener);     (* p.runListener *)
  runningInvalidators : list (option Invalidator); (* p.runInvalidator *)
  roundTrips : list (list Message)               (* batches handed to the round tripper *)
}.

Definition with_listeners (f : gmap string (option Listener) -> gmap string (option Listener))
    (p : Proxy) : Proxy :=
  mkProxy (LocalSocketPrefix p) (LocalSocketSuffix p) (upstreamConfigHost p)
    (localConfigHost p) (database p) (cachePrefixes p) (f (listeners p)) (invalidators p)
    (cache p) (log p) (servers p) (runningListeners p) (runningInvalidators p) (roundTrips p).

Definition with_invalidators
    (f : gmap string (option Invalidator) -> gmap string (option Invalidator))
    (p : Proxy) : Proxy :=
  mkProxy (LocalSocketPrefix p) (LocalSocketSuffix p) (upstreamConfigHost p)
    (localConfigHost p) (database p) (cachePrefixes p) (listeners p) (f (invalidators p))
    (cache p) (log p) (servers p) (runningListeners p) (runningInvalidators p) (roundTrips p).

Definition with_cache (c : Cache) (p : Proxy) : Proxy :=
  mkProxy (LocalSocketPrefix p) (LocalSocketSuffix p) (upstreamConfigHost p)
    (localConfigHost p) (database p) (cachePrefixes p) (listeners p) (invalidators p)
    c (log p) (servers p) (runningListeners p) (runningInvalidators p) (roundTrips p).

Definition with_log (f : list string -> list string) (p : Proxy) : Proxy :=
  mkProxy (LocalSocketPrefix p) (LocalSocketSuffix p) (upstreamConfigHost p)
    (localConfigHost p) (database p) (cachePrefixes p) (listeners p) (invalidators p)
    (cache p) (f (log p)) (servers p) (runningListeners p) (runningInvalidators p)
    (roundTrips p).

Definition with_servers (f : list string -> list string) (p : Proxy) : Proxy :=
  mkProxy (LocalSocketPrefix p) (LocalSocketSuffix p) (upstreamConfigHost p)
    (localConfigHost p) (database p) (cachePrefixes p) (listeners p) (invalidators p)
    (cache p) (log p) (f (servers p)) (runningListeners p) (runningInvalidators p)
    (roundTrips p).

Definition with_runningListeners (f : list (option Listener) -> list (option Listener))
    (p : Proxy) : Proxy :=
  mkProxy (LocalSocketPrefix p) (LocalSocketSuffix p) (upstreamConfigHost p)
    (localConfigHost p) (database p) (cachePrefixes p) (listeners p) (invalidators p)
    (cache p) (log p) (servers p) (f (runningListeners p)) (runningInvalidators p)
    (roundTrips p).

Definition with_runningInvalidators
    (f : list (option Invalidator) -> list (option Invalidator)) (p : Proxy) : Proxy :=
  mkProxy (LocalSocketPrefix p) (LocalSocketSuffix p) (upstreamConfigHost p)
    (localConfigHost p) (database p) (cachePrefixes p) (listeners p) (invalidators p)
    (cache p) (log p) (servers p) (runningListeners p) (f (runningInvalidators p))
    (roundTrips p).

Definition with_roundTrips (f : list (list Message) -> list (list Message)) (p : Proxy)
    : Proxy :=
  mkProxy (LocalSocketPrefix p) (LocalSocketSuffix p) (upstreamConfigHost p)
    (localConfigHost p) (database p) (cachePrefixes p) (listeners p) (invalidators p)
    (cache p) (log p) (servers p) (runningListeners p) (runningInvalidators p)
    (f (roundTrips p)).

Definition on_cache {A} (m : M Cache A) : M Proxy A := zoom cache with_cache m.

Definition log_line (msg : string) : M Proxy unit := modify (with_log (fun l => l ++ [msg])).

Definition localSocketPathFromUpstream (upstream : string) (database : Z)
    (prefix suffix : string) : string :=
  let path := prefix +:+ ReplaceByte upstream ":" "-" in
  let path := if (database >? -1)%Z then path +:+ "-" +:+ Itoa database else path in
  path +:+ suffix.

(** [NewProxy], for the fields kept here; the cache is made by the caller. *)
Definition NewProxy (LocalSocketPrefix LocalSocketSuffix upstreamHost : string)
    (database : Z) (cachePrefixes : option (list string)) (cache : Cache) : Proxy := {|
  LocalSocketPrefix := LocalSocketPrefix;
  LocalSocketSuffix := LocalSocketSuffix;
  upstreamConfigHost := upstreamHost;
  localConfigHost :=
    localSocketPathFromUpstream upstreamHost database LocalSocketPrefix LocalSocketSuffix;
  database := database;
  cachePrefixes := cachePrefixes;
  listeners := ∅;
  invalidators := ∅;
  cache := cache;
  log := [];
  servers := [];
  runningListeners := [];
  runningInvalidators := [];
  roundTrips := []
|}.

(** A round tripper sends a batch upstream and returns the replies with an
    error. *)
Definition RoundTripper : Type := list Message -> list Message * option error.

(** The services outside the package that [createListener] calls, each of
    which can fail: the statsd client, the pool and the listener. *)
Class Services : Type := {
  StatsdWithTags : string -> string -> option error;   (* upstream, local *)
  ConnectServer : string -> option error;              (* upstream *)
  listener_New : string -> option error                (* local *)
}.

Section ProxyOps.
Context `{Redis} `{Services}.

Definition runListener (l : option Listener) : M Proxy unit :=
  modify (with_runningListeners (fun r => r ++ [l])).

Definition runInvalidator (i : option Invalidator) : M Proxy unit :=
  modify (with_runningInvalidators (fun r => r ++ [i])).

(** [createListener] up to the construction of the listener.  The dialer
    it installs in the pool runs later, once per pooled connection: it is
    [dialer] below. *)
Definition createListener (local upstream : string)
  : M Proxy (option Listener * option error) :=
  match StatsdWithTags upstream local with
  | Some err => ret (None, Some err)
  | None =>
      match ConnectServer upstream with
      | Some err => ret (None, Some err)
      | None =>
          do! modify (with_servers (fun s => s ++ [upstream])) in
          match listener_New local with
          | Some err => ret (None, Some err)
          | None => ret (Some (mkListener local upstream), None)
          end
      end
  end.

(** What the network answers while one pooled connection is dialed. *)
Record DialIO : Type := mkDialIO {
  io_dial : option error;             (* dlr.DialContext *)
  io_select_write : option error;     (* redis.Encode of SELECT *)
  io_select_read : option error;      (* redis.Decode of its reply *)
  io_invalidator : Invalidator + error;   (* NewInvalidator *)
  io_tracking_write : option error;   (* redis.Encode of CLIENT TRACKING *)
  io_tracking_read : option error     (* redis.Decode of its reply *)
}.

(** The dialer that [createListener] gives to the pool of [upstream]: the
    body of the [pool.DialerFunc].  It returns the error of the dial.  A
    failed [NewInvalidator] leaves a nil invalidator, on which
    [SubscribeCommand] is then called: a nil dereference.  A failed
    [redis.Decode] returns a nil message with its error, and the arguments of
    the log line are evaluated before the line is written: [wm.String()] on
    the nil message is a nil dereference too, so a reply that cannot be read
    ends in a panic and not in the line. *)
Definition dialer (upstream : string) (io : DialIO) : M Proxy (option error) :=
  match io_dial io with
  | Some err => ret (Some err)
  | None =>
      let! p := get in
      let! stop :=
        (if (database p >? -1)%Z then
           match io_select_write io with
           | Some err => do! log_line "failed to write select command" in ret (Some err)
           | None =>
               match io_select_read io with
               | Some _ => panic
               | None => ret None
               end
           end
         else ret None) in
      match stop with
      | Some err => ret (Some err)
      | None =>
          match cachePrefixes p with
          | None => ret None
          | Some _ =>
              do! log_line "creating Invalidator" in
              let inv := match io_invalidator io with inl i => Some i | inr _ => None end in
              do! (if io_invalidator io is inr _
                   then log_line "unable to create Invalidator" else ret tt) in
              do! modify (with_invalidators (fun m => <[upstream := inv]> m)) in
              do! runInvalidator inv in
              match inv with
              | None => panic
              | Some _ =>
                  match io_tracking_write io with
                  | Some err =>
                      do! log_line "failed to write CLIENT TRACKING command" in
                      ret (Some err)
                  | None =>
                      match io_tracking_read io with
                      | Some _ => panic
                      | None => ret None
                      end
                  end
              end
          end
      end
  end.

Definition ensureListenerForUpstream (upstream originalCmd : string) : M Proxy unit :=
  do! log_line "ensuring we have a listener for" in
  let! p := get in
  match listeners p !! upstream with
  | Some _ => ret tt
  | None =>
      let local := localSocketPathFromUpstream upstream (database p)
                     (LocalSocketPrefix p) (LocalSocketSuffix p) in
      do! log_line "did not find listener, creating new one" in
      let! (l, err) := createListener local upstream in
      do! (if err is Some _ then log_line "unable to create listener" else ret tt) in
      do! modify (with_listeners (fun m => <[upstream := l]> m)) in
      runListener l
  end.

(** The first loop of [fetchFromCache]: the keys of every message, or nil
    at the first command that is not cacheable. *)
Fixpoint fetchKeys (originalCmds : list string) (i : nat) (mm : list Message)
  : M Proxy (option (list (list bytes))) :=
  match mm with
  | [] => ret (Some [])
  | m :: rest =>
      let! cmd := index originalCmds i in
      if negb (CacheableCommands cmd) then ret None
      else
        let! r := fetchKeys originalCmds (S i) rest in
        ret (cons (Keys m) <$> r)
  end.

(** The second loop: the cached answer to every command, or nil at the
    first miss. *)
Fixpoint fetchCached (originalCmds : list string) (i : nat) (keys : list (list bytes))
  : M Proxy (option (list Message)) :=
  match keys with
  | [] => ret (Some [])
  | k :: rest =>
      let! cached := on_cache (Cache_GetAll k) in
      match cached with
      | None => ret None
      | Some cached =>
          let! cmd := index originalCmds i in
          let! m := (if decide (cmd = "GET") then index cached 0
                     else ret (NewArray cached)) in
          let! r := fetchCached originalCmds (S i) rest in
          ret (cons m <$> r)
      end
  end.

(** [fetchFromCache]: the keys (nil when a command is not cacheable), the
    messages and the error. *)
Definition fetchFromCache (mm : list Message) (originalCmds : list string)
  : M Proxy (option (list (list bytes)) * option (list Message) * option error) :=
  let! keys := fetchKeys originalCmds 0 mm in
  match keys with
  | None => ret (None, None, Some "not cacheable")
  | Some keys =>
      let! m := fetchCached originalCmds 0 keys in
      match m with
      | None => ret (Some keys, None, Some "not found")
      | Some m => ret (Some keys, Some m, None)
      end
  end.

(** The lines of a [CLUSTER NODES] reply. *)
Fixpoint clusterNodesLines (lines : list string) (originalCmd : string) : M Proxy unit :=
  match lines with
  | [] => ret tt
  | line :: rest =>
      let lt := IndexByte line " " in
      let rt := IndexByte line "@" in
      do! (if ((lt >? 0) && (rt >? 0))%Z then
             let! hostPort := slice line (lt + 1) rt in
             ensureListenerForUpstream hostPort originalCmd
           else ret tt) in
      clusterNodesLines rest originalCmd
  end.

Fixpoint ensureAll (addrs : list string) (originalCmd : string) : M Proxy unit :=
  match addrs with
  | [] => ret tt
  | a :: rest => do! ensureListenerForUpstream a originalCmd in ensureAll rest originalCmd
  end.

(** The loop of [interceptMessages] over the replies, from index [i] on:
    the error that the function returns with them. *)
Fixpoint observe (cacheKeys : option (list (list bytes))) (originalCmds : list string)
    (i : nat) (mm : list Message) : M Proxy (option error) :=
  match mm with
  | [] => ret None
  | m :: rest =>
      do! (match cacheKeys with
           | Some cacheKeys =>
               let! ks := index cacheKeys i in on_cache (Cache_Set ks m)
           | None => ret tt
           end) in
      let! cmd := index originalCmds i in
      if decide (cmd = "CLUSTER SLOTS") then
        match EncodeToBytes m with
        | (_, Some err) =>
            do! log_line "failed to encode cluster slots message" in ret (Some err)
        | (b, None) =>
            match UnmarshalClusterTopo b with
            | inr err =>
                do! log_line "failed to unmarshal cluster slots message" in ret (Some err)
            | inl slots => do! ensureAll slots cmd in ret None
            end
        end
      else
        do! (if decide (cmd = "CLUSTER NODES") then
               if IsBulkBytes m then clusterNodesLines (Split (Value m) "010") cmd
               else ret tt
             else ret tt) in
        if IsError m then
          let msg := Value m in
          if HasPrefix msg "MOVED" || HasPrefix msg "ASK" then
            let parts := Split msg " " in
            if (length parts <? 3)%nat then
              do! log_line "failed to parse MOVED error" in ret None
            else
              let! addr := index parts 2 in
              let! verb := index parts 0 in
              do! ensureListenerForUpstream addr (cmd +:+ " " +:+ verb) in
              observe cacheKeys originalCmds (S i) rest
          else observe cacheKeys originalCmds (S i) rest
        else observe cacheKeys originalCmds (S i) rest
  end.

(** The head of [interceptMessages]: with cache prefixes configured the
    cache is consulted; the result is [cacheKeys] and, on a full hit, the
    cached answers. *)
Definition consultCache (originalCmds : list string) (mm : list Message)
  : M Proxy (option (list (list bytes)) * option (list Message)) :=
  let! p := get in
  match cachePrefixes p with
  | Some _ =>
      let! (k, allCached, err) := fetchFromCache mm originalCmds in
      match err, allCached with
      | None, Some allCached => ret (k, Some allCached)
      | _, _ => ret (k, None)
      end
  | None => ret (None, None)
  end.

Definition interceptMessages (originalCmds : list string) (mm : list Message)
    (rt : RoundTripper) : M Proxy (list Message * option error) :=
  let! (cacheKeys, hit) := consultCache originalCmds mm in
  match hit with
  | Some allCached => ret (allCached, None)
  | None =>
      do! modify (with_roundTrips (fun t => t ++ [mm])) in
      let '(mm, err) := rt mm in
      match err with
      | Some err => ret (mm, Some err)
      | None =>
          let! err := observe cacheKeys originalCmds 0 mm in
          ret (mm, err)
      end
  end.

End ProxyOps.

(** ** Notions used to state the properties *)

Section Notions.
Context `{Redis}.

(** What a read of [key] finds: the decoded entry, or nothing when the key
    is absent or its bytes do not decode. *)
Definition cached (c : Cache) (key : bytes) : option Message :=
  match fc_data (cache_c c) !! key with
  | Some (b, _) => DecodeFromBytes b
  | None => None
  end.

(** The cache after the store has been asked for [keys], one after the
    other: only the record of calls grows. *)
Definition after_reads (keys : list bytes) (c : Cache) : Cache :=
  mkCache (mkFreecache (fc_data (cache_c c)) (fc_maxKeyValLen (cache_c c))
             (fc_ops (cache_c c) ++ (OpGet <$> keys)))
          (cache_ttl c) (cache_log c).

(** The keys [GetAll] asks for: up to and including the first miss. *)
Fixpoint reads_of (c : Cache) (keys : list bytes) : list bytes :=
  match keys with
  | [] => []
  | k :: rest => k :: (if cached c k is Some _ then reads_of c rest else [])
  end.

(** The answer that [fetchFromCache] assembles for one command. *)
Definition answer (cmd : string) (vs : list Message) : option Message :=
  if decide (cmd = "GET") then vs !! 0 else Some (NewArray vs).

(** [only_stores P c c']: from [c] to [c'] the store was only asked to set
    entries [k -> encoded x] with [P k x], and every entry that differs is
    such a one. *)
Definition only_stores (P : bytes -> Message -> Prop) (c c' : Cache) : Prop :=
  cache_ttl c' = cache_ttl c
  /\ fc_maxKeyValLen (cache_c c') = fc_maxKeyValLen (cache_c c)
  /\ (exists new,
        fc_ops (cache_c c') = fc_ops (cache_c c) ++ new
        /\ Forall (fun op => exists k x, op = OpSet k (EncodeToBytes x).1 /\ P k x) new)
  /\ (forall k,
        fc_data (cache_c c') !! k = fc_data (cache_c c) !! k
        \/ exists x, P k x
                     /\ fc_data (cache_c c') !! k = Some ((EncodeToBytes x).1, cache_ttl c)).

End Notions.

(** [preserves f m]: the computation [m] leaves the component [f] of the
    state as it was, also when it panics. *)
Definition preserves {S X A} (f : S -> X) (m : M S A) : Prop :=
  forall s, f (m s).2 = f s.

(** [returns m]: the computation [m] never panics. *)
Definition returns {S A} (m : M S A) : Prop :=
  forall s, exists a, (m s).1 = Val a.

(** [yields Q m]: a result of [m] satisfies [Q].  [total Q m]: moreover [m]
    never panics. *)
Definition yields {S A} (Q : A -> Prop) (m : M S A) : Prop :=
  forall s a, (m s).1 = Val a -> Q a.

Definition total {S A} (Q : A -> Prop) (m : M S A) : Prop :=
  forall s, exists a, (m s).1 = Val a /\ Q a.

(** [fits n m]: a key list of length [n] is long enough for [Set] of [m].
    An element of an array is set with a list of one key. *)
Fixpoint fits (n : nat) (m : Message) {struct m} : bool :=
  if IsError m then true
  else if IsArray m then
    (length (Array m) <=? n)%nat && forallb (fun mm => fits 1 mm) (Array m)
  else (0 <? n)%nat.

(** [stored_at keys m k x]: [Set keys m] reaches the message [x], which is
    neither an error nor an array, with the key [k]. *)
Inductive stored_at : list bytes -> Message -> bytes -> Message -> Prop :=
| stored_here keys m k :
    IsError m = false -> IsArray m = false -> keys !! 0%nat = Some k ->
    stored_at keys m k m
| stored_below keys m i mm k k' x :
    IsError m = false -> IsArray m = true ->
    Array m !! i = Some mm -> keys !! i = Some k ->
    stored_at [k] mm k' x ->
    stored_at keys m k' x.

(** ** A codec to run the model on examples

    RESP as the wire has it.  The encoder refuses a message whose type byte
    is no RESP type; the decoder reads the replies that the cache holds and
    arrays of them, and leaves the nil reply out. *)

Module Resp.

Definition CRLF : string := String "013" (String "010" EmptyString).

Definition is_text (t : ascii) : bool :=
  Ascii.eqb t TypeString || Ascii.eqb t TypeError || Ascii.eqb t TypeInt.

Fixpoint encode (m : Message) : option string :=
  match m with
  | mkMessage t v arr =>
      if is_text t then Some (String t (v +:+ CRLF))
      else if Ascii.eqb t TypeBulkBytes then
        Some (String t (Itoa (Z.of_nat (String.length v)) +:+ CRLF +:+ v +:+ CRLF))
      else if Ascii.eqb t TypeArray then
        match
          (fix all (l : list Message) : option string :=
             match l with
             | [] => Some EmptyString
             | e :: rest =>
                 match encode e, all rest with
                 | Some a, Some b => Some (a +:+ b)
                 | _, _ => None
                 end
             end) arr
        with
        | Some body => Some (String t (Itoa (Z.of_nat (length arr)) +:+ CRLF +:+ body))
        | None => None
        end
      else None
  end.

Fixpoint untilCRLF (s : string) : option (string * string) :=
  match s with
  | EmptyString => None
  | String a rest =>
      if Ascii.eqb a "013" && String.prefix (String "010" EmptyString) rest
      then Some (EmptyString, substring 1 (String.length rest - 1) rest)
      else match untilCRLF rest with
           | Some (l, r) => Some (String a l, r)
           | None => None
           end
  end.

Definition atoi (s : string) : option Z := Z.of_int <$> NilZero.int_of_string s.

Fixpoint decode (fuel : nat) (s : string) : option (Message * string) :=
  match fuel, s with
  | S fuel, String t rest =>
      match untilCRLF rest with
      | None => None
      | Some (line, rest) =>
          if is_text t then Some (mkMessage t line [], rest)
          else
            match atoi line with
            | None => None
            | Some n =>
                if (n <? 0)%Z then None
                else if Ascii.eqb t TypeBulkBytes then
                  let n := Z.to_nat n in
                  if String.prefix CRLF (substring n (String.length rest - n) rest)
                  then Some (mkMessage t (substring 0 n rest) [],
                             substring (n + 2) (String.length rest - (n + 2)) rest)
                  else None
                else if Ascii.eqb t TypeArray then
                  (fix elems (k : nat) (s : string) : option (Message * string) :=
                     match k with
                     | O => Some (mkMessage t EmptyString [], s)
                     | S k =>
                         match decode fuel s with
                         | None => None
                         | Some (e, s) =>
                             match elems k s with
                             | None => None
                             | Some (m, s) =>
                                 Some (mkMessage t EmptyString (e :: Array m), s)
                             end
                         end
                     end) (Z.to_nat n) rest
                else None
            end
      end
  | _, _ => None
  end.

Definition decodeAll (b : string) : option Message :=
  match decode (S (String.length b)) b with
  | Some (m, EmptyString) => Some m
  | _ => None
  end.

(** The arguments of a command: [GET k] has one key, [MGET k1 .. kn] has
    [n]. *)
Definition args (m : Message) : list string :=
  match Array m with
  | [] => []
  | _ :: a => Value <$> a
  end.

(** The addresses of a [CLUSTER SLOTS] reply: an array of slot ranges, each
    an array of two integer bounds and then its nodes, each an array that
    starts with its host, a bulk string, and its port, an integer.  A reply of
    another shape, an error reply among them, is refused. *)
Definition isInt (m : Message) : bool := Ascii.eqb (Type_ m) TypeInt.

Definition nodeAddr (node : Message) : option string :=
  match Array node with
  | ip :: port :: _ =>
      if IsArray node && IsBulkBytes ip && isInt port
      then Some (Value ip +:+ ":" +:+ Value port) else None
  | _ => None
  end.

Definition slotNodes (slot : Message) : option (list string) :=
  match Array slot with
  | lo :: hi :: node :: nodes =>
      if IsArray slot && isInt lo && isInt hi then mapM nodeAddr (node :: nodes) else None
  | _ => None
  end.

Definition slotAddrs (b : string) : list string + string :=
  match decodeAll b with
  | Some m =>
      match (if IsArray m then mapM slotNodes (Array m) else None) with
      | Some nodes => inl (mjoin nodes)
      | None => inr "malformed cluster slots reply"
      end
  | None => inr "malformed cluster slots reply"
  end.

Definition codec : Redis := {|
  EncodeToBytes m := match encode m with
                     | Some b => (b, None)
                     | None => (EmptyString, Some "bad resp type")
                     end;
  DecodeFromBytes := decodeAll;
  Keys := args;
  UnmarshalClusterTopo := slotAddrs
|}.

(** Constructors of the messages used in the examples. *)
Definition bulk (v : string) : Message := mkMessage TypeBulkBytes v [].
Definition err (v : string) : Message := mkMessage TypeError v [].
Definition int (v : string) : Message := mkMessage TypeInt v [].
Definition command (words : list string) : Message := NewArray (bulk <$> words).

(** Services that never fail, and services whose pool cannot be made. *)
Definition up : Services := {|
  StatsdWithTags _ _ := None;
  ConnectServer _ := None;
  listener_New _ := None
|}.

Definition noServer : Services := {|
  StatsdWithTags _ _ := None;
  ConnectServer _ := Some "cannot connect the server";
  listener_New _ := None
|}.

(** The defaults: 100 MB of cache, entries kept 360 seconds, sockets under
    /var/tmp, no database index. *)
Definition cold : Cache := NewCache (100 * 1024 * 1024) 360.

Definition start (prefixes : option (list string)) : Proxy :=
  NewProxy "/var/tmp/redisbetween-" ".sock" "10.0.0.1:6379" (-1) prefixes cold.

(** The cache after the replies to [GET foo] and [MGET a b] were set. *)
Definition warm : Cache :=
  (@Cache_Set codec ["a"; "b"] (NewArray [bulk "1"; bulk "2"])
     (@Cache_Set codec ["foo"] (bulk "bar") cold).2).2.

(** The cache after the reply to [GET a] was set. *)
Definition warmA : Cache := (@Cache_Set codec ["a"] (bulk "1") cold).2.

(** An upstream that answers every batch with [reply]. *)
Definition answering (reply : list Message) : RoundTripper := fun _ => (reply, None).

(** A reply to [CLUSTER SLOTS]: one slot range with its node. *)
Definition slotsReply : Message :=
  NewArray [NewArray [int "0"; int "16383";
                      NewArray [bulk "10.0.0.1"; int "6379"; bulk "node-1"]]].

(** What the network answers to a dial that goes well, the invalidator
    getting the connection identifier [id]. *)
Definition dialed (upstream : string) (id : Z) : DialIO := {|
  io_dial := None;
  io_select_write := None;
  io_select_read := None;
  io_invalidator := inl (mkInvalidator upstream id);
  io_tracking_write := None;
  io_tracking_read := None
|}.

End Resp.

(** ** Start and stop of the proxy

    [run], [Shutdown] and [Kill] work on the proxy together with its two
    channels and the mutex of the listener map.  Besides returning and
    panicking, a call can block for ever, at [Lock] on a mutex that is held.
    A deferred [recover] turns a panic into a return. *)

Inductive stop_event : Type :=
| ListenerShutdown (l : option Listener)
| ListenerKill (l : option Listener)
| InvalidatorShutdown (i : option Invalidator).

Record Running : Type := mkRunning {
  proxy : Proxy;
  quit : bool;             (* the channel p.quit is closed *)
  kill : bool;             (* the channel p.kill is closed *)
  listenerLock : bool;     (* p.listenerLock is held *)
  stops : list stop_event  (* calls made to listeners and invalidators, oldest first *)
}.

Inductive run_res (A : Type) : Type :=
| Returns (a : A)
| Panics
| Blocks.
Arguments Returns {A} a.
Arguments Panics {A}.
Arguments Blocks {A}.

Definition L (A : Type) : Type := Running -> run_res A * Running.

Definition retL {A} (a : A) : L A := fun s => (Returns a, s).

Definition bindL {A B} (m : L A) (k : A -> L B) : L B :=
  fun s => match m s with
           | (Returns a, s') => k a s'
           | (Panics, s') => (Panics, s')
           | (Blocks, s') => (Blocks, s')
           end.

(** [defer func() { _ = recover() }()] around a body without results. *)
Definition recovered (body : L unit) : L unit :=
  fun s => match body s with
           | (Panics, s') => (Returns tt, s')
           | other => other
           end.

(** A computation of the proxy, run inside. *)
Definition on_proxy {A} (m : M Proxy A) : L A :=
  fun s => let '(r, p) := m (proxy s) in
           (match r with Val a => Returns a | Panicked => Panics end,
            mkRunning p (quit s) (kill s) (listenerLock s) (stops s)).

Definition Lock : L unit :=
  fun s => if listenerLock s then (Blocks, s)
           else (Returns tt, mkRunning (proxy s) (quit s) (kill s) true (stops s)).

Definition Unlock : L unit :=
  fun s => (Returns tt, mkRunning (proxy s) (quit s) (kill s) false (stops s)).

(** [close(p.quit)] and [close(p.kill)]: a panic on a closed channel. *)
Definition close_quit : L unit :=
  fun s => if quit s then (Panics, s)
           else (Returns tt, mkRunning (proxy s) true (kill s) (listenerLock s) (stops s)).

Definition close_kill : L unit :=
  fun s => if kill s then (Panics, s)
           else (Returns tt, mkRunning (proxy s) (quit s) true (listenerLock s) (stops s)).

Definition record_stop (e : stop_event) : L unit :=
  fun s => (Returns tt,
            mkRunning (proxy s) (quit s) (kill s) (listenerLock s) (stops s ++ [e])).

(** The methods of a listener and of an invalidator that the proxy calls to
    stop them, outside the package: given the calls made so far, a call to a
    listener returns or panics, and [Shutdown] of an invalidator returns its
    error or panics. *)
Class Stoppers : Type := {
  Listener_Shutdown : list stop_event -> option Listener -> bool;
  Listener_Kill : list stop_event -> option Listener -> bool;
  Invalidator_Shutdown : list stop_event -> option Invalidator -> option (option error)
}.

Fixpoint forL {A} (l : list A) (body : A -> L unit) : L unit :=
  match l with
  | [] => retL tt
  | x :: rest => bindL (body x) (fun _ => forL rest body)
  end.

Section StartStop.
Context `{Redis} `{Services} `{Stoppers}.

Definition shutdownListener (l : option Listener) : L unit :=
  fun s => (if Listener_Shutdown (stops s) l then Returns tt else Panics,
            mkRunning (proxy s) (quit s) (kill s) (listenerLock s)
              (stops s ++ [ListenerShutdown l])).

Definition killListener (l : option Listener) : L unit :=
  fun s => (if Listener_Kill (stops s) l then Returns tt else Panics,
            mkRunning (proxy s) (quit s) (kill s) (listenerLock s)
              (stops s ++ [ListenerKill l])).

Definition shutdownInvalidator (i : option Invalidator) : L unit :=
  fun s =>
    let s' := mkRunning (proxy s) (quit s) (kill s) (listenerLock s)
                (stops s ++ [InvalidatorShutdown i]) in
    match Invalidator_Shutdown (stops s) i with
    | None => (Panics, s')
    | Some None => (Returns tt, s')
    | Some (Some _) => on_proxy (log_line "error closing Invalidator") s'
    end.

(** The values of a map, in the order in which the loop meets them.  Go
    ranges over a map in an order of its own choice; the order here is the
    one of the list of the map. *)
Definition ranged {V} (m : gmap string V) : list V := (map_to_list m).*2.

Definition Shutdown : L unit :=
  recovered (
    bindL Lock (fun _ =>
    bindL (fun s => forL (ranged (listeners (proxy s))) shutdownListener s) (fun _ =>
    bindL Unlock (fun _ =>
    bindL (fun s => forL (ranged (invalidators (proxy s))) shutdownInvalidator s) (fun _ =>
    close_quit))))).

Definition Kill : L unit :=
  bindL Shutdown (fun _ =>
  recovered (
    bindL Lock (fun _ =>
    bindL (fun s => forL (ranged (listeners (proxy s))) killListener s) (fun _ =>
    bindL Unlock (fun _ =>
    close_kill))))).

(** [run], without the wait for the listeners to end that its deferred
    function makes before the result is handed back.  The first deferred
    function recovers a panic: it logs, and starts [run] again after a second;
    [restarted] tells so, and the result is then nil. *)
Definition run_body : L (option error) :=
  bindL (fun s => on_proxy (createListener (localConfigHost (proxy s))
                              (upstreamConfigHost (proxy s))) s)
    (fun '(l, err) =>
       match err with
       | Some err => retL (Some err)
       | None =>
           bindL Lock (fun _ =>
           bindL (fun s => on_proxy (modify (with_listeners
                                       (fun m => <[upstreamConfigHost (proxy s) := l]> m))) s)
             (fun _ =>
           bindL (fun s => forL (ranged (listeners (proxy s)))
                             (fun l => on_proxy (runListener l)) s) (fun _ =>
           bindL Unlock (fun _ =>
           retL None))))
       end).

Definition run : L (option error * bool) :=
  fun s => match run_body s with
           | (Returns err, s') => (Returns (err, false), s')
           | (Panics, s') =>
               let '(_, s'') := on_proxy (bind (log_line "Crashed")
                                            (fun _ => log_line "Restarting")) s' in
               (Returns (None, true), s'')
           | (Blocks, s') => (Blocks, s')
           end.

End StartStop.

(** [nodeLine line addr]: a line of a [CLUSTER NODES] reply as the server
    writes it: the node identifier, a space, the address, an [@] and the
    rest; the identifier is not empty and has neither space nor [@], and the
    address has no [@]. *)
Definition nodeLine (line addr : string) : Prop :=
  exists id rest,
    line = id +:+ " " +:+ addr +:+ "@" +:+ rest
    /\ id <> EmptyString
    /\ IndexByte id " " = (-1)%Z
    /\ IndexByte id "@" = (-1)%Z
    /\ IndexByte addr "@" = (-1)%Z.

(** A reply is a redirection when it is an error that begins with MOVED or
    ASK. *)
Definition isRedirect (m : Message) : bool :=
  IsError m && (HasPrefix (Value m) "MOVED" || HasPrefix (Value m) "ASK").

(** [keeps I m]: the computation [m] keeps the property [I] of the state,
    also when it panics. *)
Definition keeps {S A} (I : S -> Prop) (m : M S A) : Prop :=
  forall s, I s -> I (m s).2.

(** ** Examples of listeners that stop, and of a proxy that serves *)

Module Halt.

(** Listeners and invalidators that stop when asked. *)
Definition calm : Stoppers := {|
  Listener_Shutdown _ _ := true;
  Listener_Kill _ _ := true;
  Invalidator_Shutdown _ _ := Some None
|}.

(** A value of [n] bytes. *)
Definition long (n : nat) : string := string_of_list_ascii (repeat "a"%char n).

(** A proxy with its channels open and its lock free. *)
Definition serving (p : Proxy) : Running := mkRunning p false false false [].

(** The proxy of [Resp.start] with a listener for its upstream and the
    entry of an upstream whose listener could not be made. *)
Definition two : Proxy :=
  with_listeners
    (fun _ => {[ "10.0.0.1:6379" := Some (mkListener "/var/tmp/redisbetween-10.0.0.1-6379.sock"
                                            "10.0.0.1:6379");
                 "10.0.0.2:6379" := None ]})
    (Resp.start None).

End Halt.

(** * Properties *)

(** ** Induction on messages, through the elements of an array *)

Lemma Message_ind' (P : Message -> Prop) :
  (forall t v arr, Forall P arr -> P (mkMessage t v arr)) ->
  forall m, P m.
Proof.
  intros step. fix IH 1. intros [t v arr]. apply step.
  induction arr as [|e rest IHrest]; constructor; [apply IH | exact IHrest].
Qed.

(** Unfolding one step of a computation. *)
Ltac go := cbv [bind ret panic get modify index zoom on_c on_cache log_Error log_line] in *;
           cbn [fst snd] in *.

(** ** The cache *)

Section CacheProperties.
Context `{Redis}.

Lemma Cache_set_returns key mm c : (Cache_set key mm c).1 = Val tt.
Proof.
  unfold Cache_set, fc_Set. destruct (EncodeToBytes mm) as [b [e|]]; go;
    destruct (fc_accepts _ _ _); reflexivity.
Qed.

Lemma Cache_Set_unfold keys m :
  Cache_Set keys m =
    if IsError m then ret tt
    else if IsArray m then Set_range Cache_Set keys 0 (Array m)
    else let! k := index keys 0 in Cache_set k m.
Proof. destruct m; reflexivity. Qed.

Lemma Set_range_total keys arr :
  Forall (fun e => forall ks c, (Cache_Set ks e c).1 = Val tt <-> fits (length ks) e = true)
         arr ->
  forall i c,
    (Set_range Cache_Set keys i arr c).1 = Val tt
    <-> (forall j, j < length arr -> i + j < length keys)
        /\ forallb (fun mm => fits 1 mm) arr = true.
Proof.
  induction 1 as [|e rest He _ IH]; intros i c; cbn [Set_range length forallb].
  - split; [intros _; split; [lia | done] | done].
  - go. destruct (keys !! i) as [k|] eqn:Hk; cbn.
    + apply lookup_lt_Some in Hk as Hlt.
      destruct (Cache_Set [k] e c) as [[[]|] c1] eqn:Hset.
      * assert (fits 1 e = true) as -> by (apply (He [k] c); by rewrite Hset).
        rewrite IH. cbn. split; intros [Hlen Hall]; (split; [|done]).
        -- intros [|j] ?; [lia|]. specialize (Hlen j). lia.
        -- intros j ?. specialize (Hlen (S j)). lia.
      * split; [done|]. intros [_ [Hfit _]%andb_prop].
        apply (He [k] c) in Hfit. by rewrite Hset in Hfit.
    + apply lookup_ge_None in Hk. split; [done|]. intros [Hlen _].
      specialize (Hlen 0). lia.
Qed.

Lemma Cache_Set_total keys m c :
  (Cache_Set keys m c).1 = Val tt <-> fits (length keys) m = true.
Proof.
  revert keys c. induction m as [t v arr IH] using Message_ind'. intros keys c.
  rewrite Cache_Set_unfold. cbn [fits].
  destruct (IsError _); [done|]. destruct (IsArray _); cbn [Array].
  - rewrite (Set_range_total keys arr IH 0 c), andb_true_iff, Nat.leb_le.
    split; intros [Hlen Hall]; (split; [|done]).
    + destruct (decide (length arr <= length keys)%nat); [done|].
      specialize (Hlen (length keys)). lia.
    + intros j ?. lia.
  - go. destruct keys as [|k ks]; cbn; [done|].
    by rewrite Cache_set_returns.
Qed.

(** *** What [Set] stores *)

Lemma only_stores_refl P c : only_stores P c c.
Proof.
  repeat split; [|by left]. exists []. by rewrite app_nil_r.
Qed.

Lemma only_stores_trans P c1 c2 c3 :
  only_stores P c1 c2 -> only_stores P c2 c3 -> only_stores P c1 c3.
Proof.
  intros (Ht1 & Hm1 & (n1 & Ho1 & Hf1) & Hd1) (Ht2 & Hm2 & (n2 & Ho2 & Hf2) & Hd2).
  repeat split; [congruence | congruence | |].
  - exists (n1 ++ n2). rewrite Ho2, Ho1, app_assoc. split; [done|].
    by apply Forall_app.
  - intros k. destruct (Hd2 k) as [Heq | (x & Hx & Hv)].
    + rewrite Heq. apply Hd1.
    + right. exists x. by rewrite Hv, Ht1.
Qed.

Lemma only_stores_mono (P Q : bytes -> Message -> Prop) c c' :
  (forall k x, P k x -> Q k x) -> only_stores P c c' -> only_stores Q c c'.
Proof.
  intros HPQ (Ht & Hm & (new & Ho & Hf) & Hd). repeat split; [done | done | |].
  - exists new. split; [done|]. eapply Forall_impl; [exact Hf|].
    intros op (k & x & -> & HP). eauto.
  - intros k. destruct (Hd k) as [Heq | (x & Hx & Hv)]; [by left|]. right. eauto.
Qed.

Lemma Cache_set_stores key mm c :
  only_stores (fun k x => k = key /\ x = mm) c (Cache_set key mm c).2.
Proof.
  unfold Cache_set, fc_Set. destruct (EncodeToBytes mm) as [b e] eqn:Henc.
  assert (b = (EncodeToBytes mm).1) as Hb by (by rewrite Henc).
  destruct e as [e|]; go; destruct (fc_accepts _ _ _); cbn;
    (repeat split; [ exists [OpSet key b]; split; [done|];
                     constructor; [|done]; exists key, mm; by rewrite Hb
                   | intros k; cbn ]);
    try (by left);
    (destruct (decide (k = key)) as [->|Hne];
      [ right; exists mm; rewrite lookup_insert_eq, Hb; done
      | left; by rewrite lookup_insert_ne ]).
Qed.

Lemma Set_range_stores keys arr :
  Forall (fun e => forall ks c, only_stores (stored_at ks e) c (Cache_Set ks e c).2) arr ->
  forall i c,
    only_stores
      (fun k x => exists j e k0, arr !! j = Some e /\ keys !! (i + j) = Some k0
                                 /\ stored_at [k0] e k x)
      c (Set_range Cache_Set keys i arr c).2.
Proof.
  induction 1 as [|e rest He _ IH]; intros i c; cbn [Set_range].
  - apply only_stores_refl.
  - go. destruct (keys !! i) as [k0|] eqn:Hk; cbn; [|apply only_stores_refl].
    specialize (He [k0] c).
    destruct (Cache_Set [k0] e c) as [[[]|] c1]; cbn in He |- *.
    + eapply only_stores_trans.
      * eapply only_stores_mono; [|exact He]. intros k x Hs.
        exists 0, e, k0. by rewrite Nat.add_0_r.
      * eapply only_stores_mono; [|apply IH]. intros k x (j & e' & k' & ? & Hk' & ?).
        exists (S j), e', k'. by rewrite Nat.add_succ_r.
    + eapply only_stores_mono; [|exact He]. intros k x Hs.
      exists 0, e, k0. by rewrite Nat.add_0_r.
Qed.

Lemma Cache_Set_stores keys m c :
  only_stores (stored_at keys m) c (Cache_Set keys m c).2.
Proof.
  revert keys c. induction m as [t v arr IH] using Message_ind'. intros keys c.
  rewrite Cache_Set_unfold.
  destruct (IsError _) eqn:Herr; [apply only_stores_refl|].
  destruct (IsArray _) eqn:Harr; cbn [Array].
  - eapply only_stores_mono; [|apply (Set_range_stores keys arr IH 0 c)].
    intros k x (j & e & k0 & ? & ? & ?). by eapply stored_below.
  - go. destruct (keys !! 0) as [k0|] eqn:Hk; cbn; [|apply only_stores_refl].
    eapply only_stores_mono; [|apply Cache_set_stores].
    intros k x [-> ->]. by apply stored_here.
Qed.

Lemma stored_at_scalar keys m k x :
  stored_at keys m k x -> IsError x = false /\ IsArray x = false.
Proof. induction 1; auto. Qed.

Lemma stored_at_key keys m k x :
  stored_at keys m k x -> k ∈ keys /\ IsError m = false.
Proof.
  induction 1 as [keys m k ? ? Hk | keys m i mm k k' x ? ? ? Hk ? [Hin ?]].
  - split; [|done]. by eapply list_elem_of_lookup_2.
  - split; [|done]. apply list_elem_of_singleton in Hin as ->.
    by eapply list_elem_of_lookup_2.
Qed.

Lemma stored_at_element keys m k x :
  stored_at keys m k x -> IsArray m = true ->
  exists i mm, Array m !! i = Some mm /\ keys !! i = Some k /\ IsError mm = false.
Proof.
  destruct 1 as [keys m k ? Harr ? | keys m i mm k k' x ? ? Hi Hk Hs]; [congruence|].
  intros _. exists i, mm. apply stored_at_key in Hs as [Hin ?].
  apply list_elem_of_singleton in Hin as ->. done.
Qed.

(** C3 (no error caching).  [Set] of an error message returns with the
    cache as it was.  [Set] of an array message asks the store only for
    entries [keys[i] -> encoded x] where the element [i] is no error and [x]
    is no error; every entry that differs afterwards is such an entry; and a
    key that is paired with error elements only keeps its entry.  This holds
    also when [Set] stops on a panic. *)
Theorem Set_stores_no_error keys m c :
  (IsError m = true -> Cache_Set keys m c = (Val tt, c))
  /\ (IsArray m = true ->
      let c' := (Cache_Set keys m c).2 in
      (exists new,
          fc_ops (cache_c c') = fc_ops (cache_c c) ++ new
          /\ Forall (fun op => exists k x i mm,
                        op = OpSet k (EncodeToBytes x).1 /\ IsError x = false
                        /\ Array m !! i = Some mm /\ keys !! i = Some k
                        /\ IsError mm = false) new)
      /\ (forall k,
            fc_data (cache_c c') !! k <> fc_data (cache_c c) !! k ->
            exists x i mm,
              IsError x = false
              /\ fc_data (cache_c c') !! k = Some ((EncodeToBytes x).1, cache_ttl c)
              /\ Array m !! i = Some mm /\ keys !! i = Some k /\ IsError mm = false)
      /\ (forall k,
            (forall i mm, keys !! i = Some k -> Array m !! i = Some mm ->
                          IsError mm = true) ->
            fc_data (cache_c c') !! k = fc_data (cache_c c) !! k)).
Proof.
  split.
  - intros Herr. rewrite Cache_Set_unfold, Herr. reflexivity.
  - intros Harr c'.
    destruct (Cache_Set_stores keys m c) as (_ & _ & (new & Hops & Hnew) & Hdata).
    fold c' in Hops, Hdata.
    assert (forall k x, stored_at keys m k x ->
              exists i mm, IsError x = false /\ Array m !! i = Some mm
                           /\ keys !! i = Some k /\ IsError mm = false) as Hwhere.
    { intros k x Hs. destruct (stored_at_scalar _ _ _ _ Hs) as [Hx _].
      destruct (stored_at_element _ _ _ _ Hs Harr) as (i & mm & ? & ? & ?).
      by exists i, mm. }
    split; [|split].
    + exists new. split; [done|]. eapply Forall_impl; [exact Hnew|].
      intros op (k & x & -> & Hs).
      destruct (Hwhere k x Hs) as (i & mm & ? & ? & ? & ?). by exists k, x, i, mm.
    + intros k Hne. destruct (Hdata k) as [Heq | (x & Hs & Hv)]; [done|].
      destruct (Hwhere k x Hs) as (i & mm & ? & ? & ? & ?). by exists x, i, mm.
    + intros k Hall. destruct (Hdata k) as [Heq | (x & Hs & Hv)]; [done|].
      destruct (Hwhere k x Hs) as (i & mm & _ & Hmm & Hk & Hok).
      rewrite (Hall i mm Hk Hmm) in Hok. done.
Qed.

(** C6.  What [set] does when the encoding fails: the failure is logged and
    [set] returns, but the store is still asked to set the key, with the
    bytes that came back with the error; when the store accepts them the
    entry of the key is those bytes, whatever it was before. *)
Theorem set_stores_after_encoding_failure key mm c b e :
  EncodeToBytes mm = (b, Some e) ->
  fc_accepts (cache_c c) key b = true ->
  exists c',
    Cache_set key mm c = (Val tt, c')
    /\ cache_log c' = cache_log c ++ [("error encoding redis message", key)]
    /\ fc_ops (cache_c c') = fc_ops (cache_c c) ++ [OpSet key b]
    /\ fc_data (cache_c c') !! key = Some (b, cache_ttl c).
Proof.
  intros Henc Hacc. unfold Cache_set, fc_Set. rewrite Henc. go. cbn. rewrite Hacc.
  eexists. split; [reflexivity|]. cbn. by rewrite lookup_insert_eq.
Qed.

(** C9, as the code has it.  [Set] returns exactly when the message fits
    the key list ([fits]).  So the length condition is required: a
    message that is no error needs a non-empty key list when it is no array
    and no more elements than keys when it is one.  It is enough when no
    element of the array is itself an array, as in a reply to MGET; an array
    inside an array is set with one key and may hold one element at most. *)
Theorem Set_returns_iff_fits keys m c :
  ((Cache_Set keys m c).1 = Val tt <-> fits (length keys) m = true)
  /\ ((Cache_Set keys m c).1 = Val tt -> IsError m = false ->
      if IsArray m then length (Array m) <= length keys else keys <> [])
  /\ (IsError m = false -> IsArray m = true ->
      Forall (fun mm => IsArray mm = false) (Array m) ->
      length (Array m) <= length keys ->
      (Cache_Set keys m c).1 = Val tt).
Proof.
  split; [apply Cache_Set_total|]. rewrite Cache_Set_total. split.
  - destruct m as [t v arr]. cbn [fits Array]. intros Hfit Herr.
    rewrite Herr in Hfit. destruct (IsArray _).
    + apply andb_prop in Hfit as [Hlen%Nat.leb_le _]. done.
    + intros ->. done.
  - destruct m as [t v arr]. cbn [fits Array]. intros -> -> Hflat Hlen.
    apply andb_true_intro. split; [by apply Nat.leb_le|].
    apply forallb_forall. intros mm Hin. apply Forall_forall with (x := mm) in Hflat.
    + destruct mm as [t' v' arr']. cbn [fits]. rewrite Hflat.
      by destruct (IsError _).
    + by apply list_elem_of_In.
Qed.

End CacheProperties.

(** ** Frame and termination rules of the monad *)

Section Frames.
Context {S X : Type} (f : S -> X).

Lemma preserves_ret {A} (a : A) : preserves f (ret a).
Proof. done. Qed.

Lemma preserves_get : preserves f get.
Proof. done. Qed.

Lemma preserves_index {A} (l : list A) i : preserves f (index l i).
Proof. intros s. unfold index. by destruct (l !! i). Qed.

Lemma preserves_bind {A B} (m : M S A) (k : A -> M S B) :
  preserves f m -> (forall a, preserves f (k a)) -> preserves f (bind m k).
Proof.
  intros Hm Hk s. unfold bind. specialize (Hm s).
  destruct (m s) as [[a|] s1]; cbn in *; [|done]. by rewrite Hk.
Qed.

Lemma preserves_slice (str : string) lo hi : preserves f (slice str lo hi).
Proof. intros s. unfold slice. by destruct (_ && _). Qed.

End Frames.

Lemma returns_ret {S A} (a : A) : returns (@ret S A a).
Proof. intros s. by exists a. Qed.

Lemma returns_bind {S A B} (m : M S A) (k : A -> M S B) :
  returns m -> (forall a, returns (k a)) -> returns (bind m k).
Proof.
  intros Hm Hk s. unfold bind. destruct (Hm s) as [a Ha].
  destruct (m s) as [r s1]; cbn in Ha; subst r. apply Hk.
Qed.

Lemma returns_modify {S} (g : S -> S) : returns (modify g).
Proof. intros s. by exists tt. Qed.

Lemma returns_get {S} : returns (@get S).
Proof. intros s. by exists s. Qed.

Lemma bind_val {S A B} (m : M S A) (k : A -> M S B) s a s1 :
  m s = (Val a, s1) -> bind m k s = k a s1.
Proof. intros Hm. unfold bind. by rewrite Hm. Qed.

(** ** Registration of upstreams *)

Section Registration.
Context `{Redis} `{Services}.

(** A component of the proxy that registration does not write. *)
Section Untouched.
Context {X : Type} (f : Proxy -> X).
Hypothesis f_log : forall g p, f (with_log g p) = f p.
Hypothesis f_listeners : forall g p, f (with_listeners g p) = f p.
Hypothesis f_servers : forall g p, f (with_servers g p) = f p.
Hypothesis f_running : forall g p, f (with_runningListeners g p) = f p.

Lemma log_line_preserves msg : preserves f (log_line msg).
Proof. intros p. apply f_log. Qed.

Lemma createListener_preserves local upstream :
  preserves f (createListener local upstream).
Proof.
  intros p. unfold createListener.
  destruct (StatsdWithTags _ _); [done|]. destruct (ConnectServer _); [done|].
  go. destruct (listener_New _); cbn; apply f_servers.
Qed.

Lemma ensureListenerForUpstream_preserves upstream cmd :
  preserves f (ensureListenerForUpstream upstream cmd).
Proof.
  unfold ensureListenerForUpstream.
  apply preserves_bind; [apply log_line_preserves|]. intros _.
  apply preserves_bind; [apply preserves_get|]. intros p.
  destruct (listeners p !! upstream); [apply preserves_ret|].
  apply preserves_bind; [apply log_line_preserves|]. intros _.
  apply preserves_bind; [apply createListener_preserves|]. intros [l e].
  apply preserves_bind.
  { destruct e; [apply log_line_preserves | apply preserves_ret]. }
  intros _. apply preserves_bind; [intros q; apply f_listeners|].
  intros _ q. apply f_running.
Qed.

Lemma ensureAll_preserves addrs cmd : preserves f (ensureAll addrs cmd).
Proof.
  induction addrs as [|a rest IH]; cbn [ensureAll]; [apply preserves_ret|].
  apply preserves_bind; [apply ensureListenerForUpstream_preserves | done].
Qed.

Lemma clusterNodesLines_preserves lines cmd : preserves f (clusterNodesLines lines cmd).
Proof.
  induction lines as [|line rest IH]; cbn [clusterNodesLines]; [apply preserves_ret|].
  apply preserves_bind; [|done].
  destruct (_ && _); [|apply preserves_ret].
  apply preserves_bind; [apply preserves_slice|]. intros a.
  apply ensureListenerForUpstream_preserves.
Qed.

End Untouched.

Lemma createListener_returns local upstream : returns (createListener local upstream).
Proof.
  intros p. unfold createListener.
  destruct (StatsdWithTags _ _); [by eexists|]. destruct (ConnectServer _); [by eexists|].
  go. destruct (listener_New _); by eexists.
Qed.

Lemma ensureListenerForUpstream_returns upstream cmd p :
  (ensureListenerForUpstream upstream cmd p).1 = Val tt.
Proof.
  assert (returns (ensureListenerForUpstream upstream cmd)) as Hr.
  { unfold ensureListenerForUpstream, log_line, runListener.
    apply returns_bind; [apply returns_modify|]. intros _.
    apply returns_bind; [apply returns_get|]. intros q.
    destruct (listeners q !! upstream); [apply returns_ret|].
    apply returns_bind; [apply returns_modify|]. intros _.
    apply returns_bind; [apply createListener_returns|]. intros [l e].
    apply returns_bind; [destruct e; [apply returns_modify | apply returns_ret]|].
    intros _. apply returns_bind; [apply returns_modify|]. intros _.
    apply returns_modify. }
  destruct (Hr p) as [[] Ha]. exact Ha.
Qed.

Lemma ensureListenerForUpstream_known upstream cmd p l :
  listeners p !! upstream = Some l ->
  ensureListenerForUpstream upstream cmd p
  = (Val tt, with_log (fun lg => lg ++ ["ensuring we have a listener for"]) p).
Proof.
  intros Hl. unfold ensureListenerForUpstream. go. cbn. by rewrite Hl.
Qed.

Lemma ensureListenerForUpstream_registers upstream cmd p :
  let p1 := (ensureListenerForUpstream upstream cmd p).2 in
  is_Some (listeners p1 !! upstream)
  /\ (servers p1 = servers p \/ servers p1 = servers p ++ [upstream])
  /\ (listeners p !! upstream = None ->
      exists l, listeners p1 = <[upstream := l]> (listeners p)
                /\ runningListeners p1 = runningListeners p ++ [l]).
Proof.
  unfold ensureListenerForUpstream, createListener, runListener. go. cbn.
  destruct (listeners p !! upstream) as [l|] eqn:Hl; cbn.
  { rewrite Hl. split; [by eexists|]. split; [by left | done]. }
  destruct (StatsdWithTags _ _); cbn.
  { rewrite lookup_insert_eq. split; [by eexists|]. split; [by left | by eexists]. }
  destruct (ConnectServer _); cbn.
  { rewrite lookup_insert_eq. split; [by eexists|]. split; [by left | by eexists]. }
  destruct (listener_New _); cbn;
    (rewrite lookup_insert_eq; split; [by eexists|]; split; [by right | by eexists]).
Qed.

Lemma ensureListenerForUpstream_again upstream (more : list string) p :
  is_Some (listeners p !! upstream) ->
  let pn := foldl (fun q c => (ensureListenerForUpstream upstream c q).2) p more in
  listeners pn = listeners p /\ servers pn = servers p
  /\ runningListeners pn = runningListeners p.
Proof.
  revert p. induction more as [|c more IH]; intros p [l Hl]; cbn [foldl]; [done|].
  rewrite (ensureListenerForUpstream_known _ _ _ _ Hl). cbn [snd].
  apply (IH (with_log _ p)). by exists l.
Qed.

(** C7, as the code has it on the path where the listener is made.  For an
    address that is not registered and whose creation succeeds, the first
    call makes exactly one listener and one pool: the listener on the local
    path of the address is the entry of the address, is the one started, and
    its pool is the one made.  Any number of further calls leave the listener
    map, the pools and the started listeners as the first call left them. *)
Theorem ensureListenerForUpstream_idempotent p upstream cmd (more : list string) :
  let local := localSocketPathFromUpstream upstream (database p)
                 (LocalSocketPrefix p) (LocalSocketSuffix p) in
  listeners p !! upstream = None ->
  StatsdWithTags upstream local = None ->
  ConnectServer upstream = None ->
  listener_New local = None ->
  let p1 := (ensureListenerForUpstream upstream cmd p).2 in
  let pn := foldl (fun q c => (ensureListenerForUpstream upstream c q).2) p1 more in
  (listeners p1 = <[upstream := Some (mkListener local upstream)]> (listeners p)
   /\ servers p1 = servers p ++ [upstream]
   /\ runningListeners p1 = runningListeners p ++ [Some (mkListener local upstream)])
  /\ (listeners pn = listeners p1 /\ servers pn = servers p1
      /\ runningListeners pn = runningListeners p1).
Proof.
  intros local Hnew Hstat Hconn Hlis p1 pn.
  assert (listeners p1 = <[upstream := Some (mkListener local upstream)]> (listeners p)
          /\ servers p1 = servers p ++ [upstream]
          /\ runningListeners p1 = runningListeners p ++ [Some (mkListener local upstream)])
    as Hfirst.
  { subst p1. unfold ensureListenerForUpstream, createListener, runListener. go. cbn.
    rewrite Hnew. fold local. rewrite Hstat, Hconn. cbn. rewrite Hlis. done. }
  split; [exact Hfirst|].
  apply (ensureListenerForUpstream_again upstream more p1).
  destruct Hfirst as (-> & _). rewrite lookup_insert_eq. by eexists.
Qed.

(** *** The dialer of a pool and the invalidators *)



End Registration.

(** ** Reading the cache *)

Section Reads.
Context `{Redis}.

Lemma cached_after_reads l c k : cached (after_reads l c) k = cached c k.
Proof. reflexivity. Qed.

Lemma after_reads_nil c : after_reads [] c = c.
Proof.
  destruct c as [[d m o] t l]. unfold after_reads. cbn. by rewrite app_nil_r.
Qed.

Lemma after_reads_app l1 l2 c :
  after_reads l2 (after_reads l1 c) = after_reads (l1 ++ l2) c.
Proof.
  unfold after_reads. cbn. by rewrite fmap_app, app_assoc.
Qed.

Lemma with_cache_cache p : with_cache (cache p) p = p.
Proof. by destruct p. Qed.

Lemma Cache_Get_spec key c :
  Cache_Get key c = (Val (cached c key), after_reads [key] c).
Proof.
  unfold Cache_Get, fc_Get, cached, after_reads. go.
  destruct (fc_data (cache_c c) !! key) as [[b t]|]; reflexivity.
Qed.

Lemma reads_of_after_reads l c keys : reads_of (after_reads l c) keys = reads_of c keys.
Proof.
  induction keys as [|k rest IH]; [done|]. cbn [reads_of].
  rewrite cached_after_reads, IH. done.
Qed.

Lemma Cache_GetAll_spec keys c :
  Cache_GetAll keys c = (Val (mapM (cached c) keys), after_reads (reads_of c keys) c).
Proof.
  revert c. induction keys as [|k rest IH]; intros c; cbn [Cache_GetAll reads_of].
  - by rewrite after_reads_nil.
  - rewrite (bind_val _ _ _ _ _ (Cache_Get_spec k c)). cbn [mapM].
    destruct (cached c k) as [m|] eqn:Hk; cbn; [|done].
    rewrite (bind_val _ _ _ _ _ (IH _)). unfold ret.
    rewrite after_reads_app, reads_of_after_reads.
    change (cached (after_reads [k] c)) with (cached c).
    by destruct (mapM (cached c) rest).
Qed.

Lemma reads_of_hit c keys vs : mapM (cached c) keys = Some vs -> reads_of c keys = keys.
Proof.
  revert vs. induction keys as [|k rest IH]; intros vs; [done|]. cbn.
  destruct (cached c k); cbn; [|done].
  destruct (mapM (cached c) rest) eqn:Hrest; cbn; [|done].
  intros _. f_equal. by eapply IH.
Qed.

Lemma mapM_cached_None c keys :
  mapM (cached c) keys = None <-> exists k, k ∈ keys /\ cached c k = None.
Proof. by rewrite mapM_None, Exists_exists. Qed.

Lemma on_cache_GetAll keys p :
  on_cache (Cache_GetAll keys) p
  = (Val (mapM (cached (cache p)) keys),
     with_cache (after_reads (reads_of (cache p) keys) (cache p)) p).
Proof. unfold on_cache, zoom. by rewrite Cache_GetAll_spec. Qed.

Lemma CacheableCommands_true cmd :
  CacheableCommands cmd = true <-> cmd = "GET" \/ cmd = "MGET".
Proof.
  unfold CacheableCommands.
  destruct (decide (cmd = "GET")) as [->|]; [split; auto|].
  destruct (decide (cmd = "MGET")) as [->|]; [split; auto|].
  split; [done|]. intros [|]; done.
Qed.

Lemma fetchKeys_cacheable cmds mm i p :
  (forall j m, mm !! j = Some m ->
               exists cmd, cmds !! (i + j) = Some cmd /\ CacheableCommands cmd = true) ->
  fetchKeys cmds i mm p = (Val (Some (Keys <$> mm)), p).
Proof.
  revert i. induction mm as [|m rest IH]; intros i Hall; cbn [fetchKeys]; [done|].
  destruct (Hall 0 m) as (cmd & Hcmd & Hok); [done|].
  rewrite Nat.add_0_r in Hcmd. go. rewrite Hcmd, Hok. cbn.
  rewrite IH; [done|]. intros j m' Hj. destruct (Hall (S j) m' Hj) as (c & Hc & ?).
  exists c. by replace (S i + j) with (i + S j) by lia.
Qed.

Lemma fetchKeys_not_cacheable cmds mm i p :
  (forall j, j < length mm -> is_Some (cmds !! (i + j))) ->
  (exists j cmd, j < length mm /\ cmds !! (i + j) = Some cmd
                 /\ CacheableCommands cmd = false) ->
  fetchKeys cmds i mm p = (Val None, p).
Proof.
  revert i. induction mm as [|m rest IH]; intros i Hlen (j & cmd & Hj & Hcmd & Hno).
  { cbn in Hj. lia. }
  cbn [fetchKeys]. destruct (Hlen 0) as [c0 Hc0]; [cbn; lia|].
  rewrite Nat.add_0_r in Hc0. go. rewrite Hc0. cbn.
  destruct (CacheableCommands c0) eqn:Hok0; cbn; [|done].
  rewrite IH; [done | |].
  - intros j' Hj'. replace (S i + j') with (i + S j') by lia. apply Hlen. cbn. lia.
  - destruct j as [|j].
    + rewrite Nat.add_0_r in Hcmd. congruence.
    + exists j, cmd. replace (S i + j) with (i + S j) by lia.
      cbn in Hj. split; [lia | done].
Qed.

End Reads.

(** ** The cache path of the interceptor *)

Section CachePath.
Context `{Redis}.

Lemma index_val {S A} (l : list A) i x (s : S) :
  l !! i = Some x -> index l i s = (Val x, s).
Proof. intros Hx. unfold index. by rewrite Hx. Qed.

Lemma answer_val cmd vs a (p : Proxy) :
  answer cmd vs = Some a ->
  (if decide (cmd = "GET") then index vs 0 else ret (NewArray vs)) p = (Val a, p).
Proof.
  unfold answer. destruct (decide (cmd = "GET")); intros Ha.
  - by apply index_val.
  - by injection Ha as <-.
Qed.

Lemma answer_is_Some cmd (ks : list bytes) vs :
  length vs = length ks -> (cmd = "GET" -> ks <> []) -> is_Some (answer cmd vs).
Proof.
  intros Hlen Hget. unfold answer. destruct (decide (cmd = "GET")) as [Hc|]; [|by eexists].
  apply lookup_lt_is_Some. destruct ks; [by destruct Hget|]. rewrite Hlen. cbn. lia.
Qed.

Lemma fetchCached_hit cmds keys : forall i p,
  (forall j ks, keys !! j = Some ks ->
     exists cmd vs, cmds !! (i + j) = Some cmd
                    /\ mapM (cached (cache p)) ks = Some vs
                    /\ is_Some (answer cmd vs)) ->
  exists out,
    fetchCached cmds i keys p
    = (Val (Some out), with_cache (after_reads (mjoin keys) (cache p)) p)
    /\ length out = length keys
    /\ forall j ks cmd, keys !! j = Some ks -> cmds !! (i + j) = Some cmd ->
         exists vs, mapM (cached (cache p)) ks = Some vs /\ out !! j = answer cmd vs.
Proof.
  induction keys as [|ks rest IH]; intros i p Hall.
  - exists []. cbn. rewrite after_reads_nil, with_cache_cache. by split.
  - destruct (Hall 0 ks) as (cmd & vs & Hcmd & Hvs & [a Ha]); [done|].
    rewrite Nat.add_0_r in Hcmd.
    set (p1 := with_cache (after_reads ks (cache p)) p).
    destruct (IH (S i) p1) as (out & Hrun & Hlen & Hout).
    { intros j ks' Hj. destruct (Hall (S j) ks' Hj) as (c & v & Hc & Hv & Ha').
      exists c, v. by replace (S i + j) with (i + S j) by lia. }
    exists (a :: out). split; [|split].
    + cbn [fetchCached].
      rewrite (bind_val _ _ _ _ _ (on_cache_GetAll ks p)), Hvs.
      rewrite (reads_of_hit _ _ _ Hvs). fold p1.
      rewrite (bind_val _ _ _ _ _ (index_val cmds i cmd p1 Hcmd)).
      rewrite (bind_val _ _ _ _ _ (answer_val cmd vs a p1 Ha)).
      rewrite (bind_val _ _ _ _ _ Hrun). unfold ret, p1. cbn.
      by rewrite after_reads_app.
    + cbn. by rewrite Hlen.
    + intros [|j] ks' c Hj Hc.
      * injection Hj as <-. rewrite Nat.add_0_r in Hc. exists vs.
        split; [done|]. cbn. congruence.
      * cbn in Hj. replace (i + S j) with (S i + j) in Hc by lia.
        apply (Hout j ks' c Hj Hc).
Qed.

Lemma fetchCached_miss cmds keys : forall i p,
  (forall j ks, keys !! j = Some ks ->
     exists cmd, cmds !! (i + j) = Some cmd /\ (cmd = "GET" -> ks <> [])) ->
  (exists j ks, keys !! j = Some ks /\ mapM (cached (cache p)) ks = None) ->
  exists l,
    fetchCached cmds i keys p = (Val None, with_cache (after_reads l (cache p)) p).
Proof.
  induction keys as [|ks rest IH]; intros i p Hall (j & ks' & Hj & Hmiss); [done|].
  cbn [fetchCached]. rewrite (bind_val _ _ _ _ _ (on_cache_GetAll ks p)).
  destruct (mapM (cached (cache p)) ks) as [vs|] eqn:Hvs; [|by eexists].
  rewrite (reads_of_hit _ _ _ Hvs).
  set (p1 := with_cache (after_reads ks (cache p)) p).
  destruct (Hall 0 ks) as (cmd & Hcmd & Hget); [done|].
  rewrite Nat.add_0_r in Hcmd.
  destruct (answer_is_Some cmd ks vs) as [a Ha]; [by apply length_mapM in Hvs | done |].
  rewrite (bind_val _ _ _ _ _ (index_val cmds i cmd p1 Hcmd)).
  rewrite (bind_val _ _ _ _ _ (answer_val cmd vs a p1 Ha)).
  destruct (IH (S i) p1) as (l & Hrun).
  { intros j' k' Hj'. destruct (Hall (S j') k' Hj') as (c & Hc & ?).
    exists c. by replace (S i + j') with (i + S j') by lia. }
  { destruct j as [|j]; [cbn in Hj; congruence|]. by exists j, ks'. }
  rewrite (bind_val _ _ _ _ _ Hrun). exists (ks ++ l). unfold ret, p1. cbn.
  by rewrite after_reads_app.
Qed.

(** The keys of an aligned batch of cacheable commands. *)
Lemma aligned_lookup (cmds : list string) (mm : list Message) j m :
  length cmds = length mm -> mm !! j = Some m -> is_Some (cmds !! j).
Proof.
  intros Hlen Hm. apply lookup_lt_is_Some. rewrite Hlen. by eapply lookup_lt_Some.
Qed.

End CachePath.

(** ** Rules for results *)

Lemma yields_ret {S A} (Q : A -> Prop) (a : A) : Q a -> yields Q (@ret S A a).
Proof. intros Ha s b [= <-]. exact Ha. Qed.

Lemma yields_bind {S A B} (Q : B -> Prop) (m : M S A) (k : A -> M S B) :
  (forall a, yields Q (k a)) -> yields Q (bind m k).
Proof.
  intros Hk s b. unfold bind. destruct (m s) as [[a|] s1]; [apply Hk | done].
Qed.

Lemma yields_bind_index {S A B} (Q : B -> Prop) (l : list A) i (k : A -> M S B) :
  (forall x, l !! i = Some x -> yields Q (k x)) -> yields Q (bind (index l i) k).
Proof.
  intros Hk s b. unfold bind, index. destruct (l !! i) as [x|]; [by apply Hk | done].
Qed.

Lemma total_ret {S A} (Q : A -> Prop) (a : A) : Q a -> total Q (@ret S A a).
Proof. intros Ha s. by exists a. Qed.

Lemma total_bind {S A B} (P : A -> Prop) (Q : B -> Prop) (m : M S A) (k : A -> M S B) :
  total P m -> (forall a, P a -> total Q (k a)) -> total Q (bind m k).
Proof.
  intros Hm Hk s. unfold bind. destruct (Hm s) as (a & Ha & HP).
  destruct (m s) as [r s1]; cbn in Ha; subst r. by apply Hk.
Qed.

Lemma total_index {S A} (l : list A) i x :
  l !! i = Some x -> total (fun y => y = x) (@index S A l i).
Proof. intros Hx s. exists x. unfold index. by rewrite Hx. Qed.

(** ** The replies of the upstream *)

Section Observe.
Context `{Redis} `{Services}.

Lemma cacheable_not_cluster cmd :
  CacheableCommands cmd = true -> cmd <> "CLUSTER SLOTS" /\ cmd <> "CLUSTER NODES".
Proof. intros [-> | ->]%CacheableCommands_true; by split. Qed.

Section Untouched.
Context {X : Type} (f : Proxy -> X) (ck : option (list (list bytes))).
Hypothesis f_log : forall g p, f (with_log g p) = f p.
Hypothesis f_listeners : forall g p, f (with_listeners g p) = f p.
Hypothesis f_servers : forall g p, f (with_servers g p) = f p.
Hypothesis f_running : forall g p, f (with_runningListeners g p) = f p.
Hypothesis f_cache : ck <> None -> forall c p, f (with_cache c p) = f p.

Lemma observe_preserves cmds mm : forall i, preserves f (observe ck cmds i mm).
Proof.
  pose proof (ensureListenerForUpstream_preserves f f_log f_listeners f_servers
                f_running) as Hens.
  induction mm as [|m rest IH]; intros i; cbn [observe]; [done|].
  apply preserves_bind.
  { destruct ck as [keys|]; [|done].
    apply preserves_bind; [apply preserves_index|]. intros ks p.
    unfold on_cache, zoom. destruct (Cache_Set ks m (cache p)). by apply f_cache. }
  intros _. apply preserves_bind; [apply preserves_index|]. intros cmd.
  destruct (decide (cmd = "CLUSTER SLOTS")).
  { destruct (EncodeToBytes m) as [b [encErr|]].
    - apply preserves_bind; [by apply log_line_preserves | done].
    - destruct (UnmarshalClusterTopo b).
      + apply preserves_bind; [by apply ensureAll_preserves | done].
      + apply preserves_bind; [by apply log_line_preserves | done]. }
  apply preserves_bind.
  { destruct (decide (cmd = "CLUSTER NODES")); [|done].
    destruct (IsBulkBytes m); [by apply clusterNodesLines_preserves | done]. }
  intros _. destruct (IsError m); [|apply IH].
  destruct (_ || _); [|apply IH].
  destruct (_ <? _)%nat.
  { apply preserves_bind; [by apply log_line_preserves | done]. }
  apply preserves_bind; [apply preserves_index|]. intros addr.
  apply preserves_bind; [apply preserves_index|]. intros verb.
  apply preserves_bind; [apply Hens|]. intros _. apply IH.
Qed.

End Untouched.

Lemma observe_yields_None ck cmds :
  (forall j cmd, cmds !! j = Some cmd -> CacheableCommands cmd = true) ->
  forall mm i, yields (fun e => e = None) (observe ck cmds i mm).
Proof.
  intros Hcache. induction mm as [|m rest IH]; intros i; cbn [observe].
  { by apply yields_ret. }
  apply yields_bind. intros _. apply yields_bind_index. intros cmd Hcmd.
  destruct (cacheable_not_cluster cmd (Hcache _ _ Hcmd)) as [Hslots Hnodes].
  destruct (decide (cmd = "CLUSTER SLOTS")); [done|].
  apply yields_bind. intros _.
  destruct (IsError m); [|apply IH]. destruct (_ || _); [|apply IH].
  destruct (_ <? _)%nat.
  { apply yields_bind. intros _. by apply yields_ret. }
  do 3 (apply yields_bind; intros ?). apply IH.
Qed.

Lemma on_cache_fst {A} (m : M Cache A) p : (on_cache m p).1 = (m (cache p)).1.
Proof. unfold on_cache, zoom. by destruct (m (cache p)). Qed.

Lemma observe_total_None ck cmds :
  (forall j cmd, cmds !! j = Some cmd -> CacheableCommands cmd = true) ->
  forall mm i,
    (forall j m, mm !! j = Some m ->
       is_Some (cmds !! (i + j))
       /\ forall keys, ck = Some keys ->
            exists ks, keys !! (i + j) = Some ks /\ fits (length ks) m = true) ->
    total (fun e => e = None) (observe ck cmds i mm).
Proof.
  intros Hcache. induction mm as [|m rest IH]; intros i Hall; cbn [observe].
  { by apply total_ret. }
  destruct (Hall 0 m) as [[cmd Hcmd] Hkeys]; [done|]. rewrite Nat.add_0_r in Hcmd, Hkeys.
  assert (total (fun e => e = None) (observe ck cmds (S i) rest)) as Hrest.
  { apply IH. intros j m' Hj. replace (S i + j) with (i + S j) by lia.
    by apply Hall. }
  apply total_bind with (P := fun _ => True).
  { destruct ck as [keys|]; [|by apply total_ret].
    destruct (Hkeys keys) as (ks & Hks & Hfit); [done|].
    eapply total_bind; [by apply total_index|]. intros ? -> p. exists tt.
    split; [|done]. rewrite on_cache_fst. by apply Cache_Set_total. }
  intros _ _. eapply total_bind; [by apply total_index|]. intros ? ->.
  destruct (cacheable_not_cluster cmd (Hcache _ _ Hcmd)) as [Hslots Hnodes].
  destruct (decide (cmd = "CLUSTER SLOTS")); [done|].
  destruct (decide (cmd = "CLUSTER NODES")); [done|].
  apply total_bind with (P := fun _ => True); [by apply total_ret|]. intros _ _.
  destruct (IsError m); [|done]. destruct (_ || _); [|done].
  destruct (_ <? _)%nat eqn:Hparts.
  { apply total_bind with (P := fun _ => True); [|intros; by apply total_ret].
    intros p. by exists tt. }
  apply Nat.ltb_ge in Hparts.
  destruct (lookup_lt_is_Some_2 (Split (Value m) " ") 2) as [addr Haddr]; [lia|].
  destruct (lookup_lt_is_Some_2 (Split (Value m) " ") 0) as [verb Hverb]; [lia|].
  eapply total_bind; [by apply total_index|]. intros ? ->.
  eapply total_bind; [by apply total_index|]. intros ? ->.
  apply total_bind with (P := fun _ => True); [|done].
  intros p. exists tt. split; [|done]. apply ensureListenerForUpstream_returns.
Qed.

End Observe.

(** ** The interceptor *)

Section Intercept.
Context `{Redis} `{Services}.

Lemma consultCache_off cmds mm p :
  cachePrefixes p = None -> consultCache cmds mm p = (Val (None, None), p).
Proof.
  intros Hoff. unfold consultCache. rewrite (bind_val get _ p p p eq_refl). by rewrite Hoff.
Qed.

Lemma consultCache_not_cacheable cmds mm p :
  length cmds = length mm ->
  (exists j cmd, cmds !! j = Some cmd /\ CacheableCommands cmd = false) ->
  consultCache cmds mm p = (Val (None, None), p).
Proof.
  intros Hlen (j & cmd & Hj & Hno).
  destruct (cachePrefixes p) as [prefixes|] eqn:Hpre; [|by apply consultCache_off].
  unfold consultCache. rewrite (bind_val get _ p p p eq_refl), Hpre.
  unfold fetchFromCache.
  assert (fetchKeys cmds 0 mm p = (Val None, p)) as Hkeys.
  { apply fetchKeys_not_cacheable.
    - intros j' Hj'. apply lookup_lt_is_Some. cbn. lia.
    - exists j, cmd. apply lookup_lt_Some in Hj as Hlt. split; [lia | done]. }
  unfold bind. by rewrite Hkeys.
Qed.

Lemma batch_keys (cmds : list string) (mm : list Message) (P : string -> Message -> Prop) :
  length cmds = length mm ->
  (forall i cmd m, cmds !! i = Some cmd -> mm !! i = Some m -> P cmd m) ->
  forall j ks, (Keys <$> mm) !! j = Some ks ->
    exists cmd m, cmds !! (0 + j) = Some cmd /\ mm !! j = Some m /\ ks = Keys m /\ P cmd m.
Proof.
  intros Hlen HP j ks Hj. apply list_lookup_fmap_Some in Hj as (m & -> & Hm).
  destruct (aligned_lookup cmds mm j m Hlen Hm) as [cmd Hcmd].
  exists cmd, m. eauto.
Qed.

Lemma consultCache_cacheable_keys cmds mm p prefixes :
  cachePrefixes p = Some prefixes ->
  length cmds = length mm ->
  (forall i cmd m, cmds !! i = Some cmd -> mm !! i = Some m ->
                   CacheableCommands cmd = true) ->
  consultCache cmds mm p
  = bind (fetchCached cmds 0 (Keys <$> mm))
      (fun m => match m with
                | None => ret (Some (Keys <$> mm), None)
                | Some m => ret (Some (Keys <$> mm), Some m)
                end) p.
Proof.
  intros Hpre Hlen Hcache. unfold consultCache.
  rewrite (bind_val get _ p p p eq_refl), Hpre. unfold fetchFromCache.
  assert (fetchKeys cmds 0 mm p = (Val (Some (Keys <$> mm)), p)) as Hkeys.
  { apply fetchKeys_cacheable. intros j m Hm.
    destruct (aligned_lookup cmds mm j m Hlen Hm) as [cmd Hcmd]. exists cmd. eauto. }
  unfold bind at 1 2. rewrite Hkeys. unfold bind.
  destruct (fetchCached _ _ _ _) as [[[out|]|] p1]; reflexivity.
Qed.

Lemma interceptMessages_forward cmds mm rt p ck p1 :
  consultCache cmds mm p = (Val (ck, None), p1) ->
  interceptMessages cmds mm rt p
  = let p2 := with_roundTrips (fun t => t ++ [mm]) p1 in
    match (rt mm).2 with
    | Some e => (Val ((rt mm).1, Some e), p2)
    | None =>
        let r := observe ck cmds 0 (rt mm).1 p2 in
        (match r.1 with Val e => Val ((rt mm).1, e) | Panicked => Panicked end, r.2)
    end.
Proof.
  intros Hc. unfold interceptMessages. rewrite (bind_val _ _ _ _ _ Hc). go.
  destruct (rt mm) as [mm' [e|]]; cbn; [done|].
  by destruct (observe _ _ _ _ _) as [[e|] p3].
Qed.

(** C10.  A batch with a command that is neither GET nor MGET leaves the
    cache as it was, with no call to its store, hands the whole batch to the
    round tripper once, and returns the replies of the upstream unless it
    panics. *)
Theorem uncacheable_batch_bypasses_cache p cmds mm rt :
  length cmds = length mm ->
  (exists j cmd, cmds !! j = Some cmd /\ CacheableCommands cmd = false) ->
  let r := interceptMessages cmds mm rt p in
  cache r.2 = cache p
  /\ roundTrips r.2 = roundTrips p ++ [mm]
  /\ (r.1 = Panicked \/ exists e, r.1 = Val ((rt mm).1, e)).
Proof.
  intros Hlen Hno.
  rewrite (interceptMessages_forward _ _ rt _ _ _
             (consultCache_not_cacheable cmds mm p Hlen Hno)). cbn zeta.
  destruct (rt mm).2 as [e|]; cbn.
  { split; [done|]. split; [done|]. right. by eexists. }
  split; [|split].
  - by rewrite (observe_preserves cache None).
  - by rewrite (observe_preserves roundTrips None).
  - destruct (observe _ _ _ _ _).1; [right; by eexists | by left].
Qed.

(** C1.  With cache prefixes configured, a batch of GET and MGET commands
    whose keys are all in the cache is answered without a round trip: the
    interceptor returns, with no error, one answer per command, a GET (which
    has a key) the cached message of its first key and an MGET the array of
    the cached messages of its keys, in their order.  The cache has been
    read, key by key, and holds what it held. *)
Theorem full_hit_skips_upstream p prefixes cmds mm rt :
  cachePrefixes p = Some prefixes ->
  length cmds = length mm ->
  (forall i cmd m, cmds !! i = Some cmd -> mm !! i = Some m ->
                   (cmd = "GET" /\ Keys m <> []) \/ cmd = "MGET") ->
  (forall i m k, mm !! i = Some m -> k ∈ Keys m -> is_Some (cached (cache p) k)) ->
  exists out,
    interceptMessages cmds mm rt p
    = (Val (out, None), with_cache (after_reads (mjoin (Keys <$> mm)) (cache p)) p)
    /\ roundTrips (interceptMessages cmds mm rt p).2 = roundTrips p
    /\ length out = length mm
    /\ forall i cmd m, cmds !! i = Some cmd -> mm !! i = Some m ->
         exists vs,
           Forall2 (fun k v => cached (cache p) k = Some v) (Keys m) vs
           /\ (cmd = "GET" -> exists v, vs !! 0 = Some v /\ out !! i = Some v)
           /\ (cmd = "MGET" -> out !! i = Some (NewArray vs)).
Proof.
  intros Hpre Hlen Hcmds Hhit.
  destruct (fetchCached_hit cmds (Keys <$> mm) 0 p) as (out & Hrun & Hout & Hans).
  { intros j ks Hj.
    destruct (batch_keys cmds mm _ Hlen Hcmds j ks Hj) as (cmd & m & Hc & Hm & -> & Hform).
    assert (is_Some (mapM (cached (cache p)) (Keys m))) as [vs Hvs].
    { apply mapM_is_Some, Forall_forall. intros k Hk. by apply (Hhit j m k). }
    exists cmd, vs. split; [done|]. split; [done|].
    apply (answer_is_Some cmd (Keys m)); [by apply length_mapM in Hvs|].
    intros ->. by destruct Hform as [[_ ?]|?]. }
  assert (interceptMessages cmds mm rt p
          = (Val (out, None), with_cache (after_reads (mjoin (Keys <$> mm)) (cache p)) p))
    as Hrun'.
  { unfold interceptMessages. unfold bind at 1.
    rewrite (consultCache_cacheable_keys _ _ _ _ Hpre Hlen).
    - unfold bind at 1. by rewrite Hrun.
    - intros i cmd m Hc Hm. apply CacheableCommands_true.
      destruct (Hcmds i cmd m Hc Hm) as [[? _]|?]; auto. }
  exists out. split; [done|]. rewrite Hrun'. split; [done|].
  split; [by rewrite Hout, length_fmap|].
  intros i cmd m Hc Hm.
  destruct (Hans i (Keys m) cmd) as (vs & Hvs & Houti); [by rewrite list_lookup_fmap, Hm | done |].
  exists vs. split; [by apply mapM_Some|]. unfold answer in Houti. split.
  - intros ->. rewrite decide_True in Houti by done.
    destruct (Hcmds i "GET" m Hc Hm) as [[_ Hne]|?]; [|done].
    destruct (lookup_lt_is_Some_2 vs 0) as [v Hv].
    { apply length_mapM in Hvs. destruct (Keys m); [done|]. rewrite <- Hvs. cbn. lia. }
    exists v. by rewrite Houti.
  - intros ->. by rewrite decide_False in Houti.
Qed.

(** C2.  [GetAll] returns messages only when every key has a cached
    message, then one per key; it returns a miss as soon as one key has none;
    and it leaves the entries as they were.  With cache prefixes configured
    and a batch of GET and MGET commands (a GET with a key) in which a key
    has no cached message, the interceptor hands the batch as it came to the
    round tripper, once, and what it returns, unless it panics, is what the
    round tripper returned: the same messages and the same error.  It does
    not panic when the upstream answers each command with a reply that fits
    its keys. *)
Theorem miss_forwards_to_upstream (c : Cache) (keys : list bytes) p prefixes cmds mm rt :
  ((forall vs, (Cache_GetAll keys c).1 = Val (Some vs) ->
               Forall2 (fun k v => cached c k = Some v) keys vs)
   /\ (forall k, k ∈ keys -> cached c k = None -> (Cache_GetAll keys c).1 = Val None)
   /\ fc_data (cache_c (Cache_GetAll keys c).2) = fc_data (cache_c c))
  /\ (cachePrefixes p = Some prefixes ->
      length cmds = length mm ->
      (forall i cmd m, cmds !! i = Some cmd -> mm !! i = Some m ->
                       (cmd = "GET" /\ Keys m <> []) \/ cmd = "MGET") ->
      (exists i m k, mm !! i = Some m /\ k ∈ Keys m /\ cached (cache p) k = None) ->
      let r := interceptMessages cmds mm rt p in
      roundTrips r.2 = roundTrips p ++ [mm]
      /\ (r.1 = Panicked \/ r.1 = Val (rt mm))
      /\ ((forall j m, (rt mm).1 !! j = Some m ->
             exists req, mm !! j = Some req /\ fits (length (Keys req)) m = true) ->
          r.1 = Val (rt mm))).
Proof.
  split.
  { rewrite Cache_GetAll_spec. cbn [fst snd]. split; [|split].
    - intros vs [= Hvs]. by apply mapM_Some.
    - intros k Hin Hk. f_equal. apply mapM_cached_None. eauto.
    - reflexivity. }
  intros Hpre Hlen Hcmds (i & m & k & Hm & Hk & Hmiss).
  assert (forall j cmd, cmds !! j = Some cmd -> CacheableCommands cmd = true) as Hcache.
  { intros j cmd Hc. apply CacheableCommands_true.
    destruct (lookup_lt_is_Some_2 mm j) as [m' Hm'].
    { rewrite <- Hlen. by eapply lookup_lt_Some. }
    destruct (Hcmds j cmd m' Hc Hm') as [[? _]|?]; auto. }
  destruct (fetchCached_miss cmds (Keys <$> mm) 0 p) as (l & Hrun).
  { intros j ks Hj.
    destruct (batch_keys cmds mm _ Hlen Hcmds j ks Hj) as (cmd & m' & Hc & _ & -> & Hform).
    exists cmd. split; [done|]. intros ->. by destruct Hform as [[_ ?]|?]. }
  { exists i, (Keys m). split; [by rewrite list_lookup_fmap, Hm|].
    apply mapM_cached_None. eauto. }
  assert (consultCache cmds mm p
          = (Val (Some (Keys <$> mm), None), with_cache (after_reads l (cache p)) p)) as Hc.
  { rewrite (consultCache_cacheable_keys _ _ _ _ Hpre Hlen) by eauto.
    unfold bind. by rewrite Hrun. }
  intros r. subst r. rewrite (interceptMessages_forward _ _ rt _ _ _ Hc). cbn zeta.
  destruct (rt mm) as [mm' [e|]] eqn:Hrt; cbn [fst snd].
  { split; [done|]. split; [by right | done]. }
  set (p2 := with_roundTrips _ _).
  split; [|split].
  - by rewrite (observe_preserves roundTrips (Some (Keys <$> mm))).
  - pose proof (observe_yields_None (Some (Keys <$> mm)) cmds Hcache mm' 0 p2) as Hy.
    destruct (observe _ _ _ _ _).1 as [e|]; [|by left].
    right. by rewrite (Hy e eq_refl).
  - intros Hshape.
    destruct (observe_total_None (Some (Keys <$> mm)) cmds Hcache mm' 0) with (s := p2)
      as (e & He & ->).
    + intros j m' Hj. destruct (Hshape j m' Hj) as (req & Hreq & Hfit). split.
      * apply lookup_lt_is_Some. cbn. rewrite Hlen. by eapply lookup_lt_Some.
      * intros ks [= <-]. exists (Keys req). change (0 + j) with j.
        by rewrite list_lookup_fmap, Hreq.
    + by rewrite He.
Qed.

(** *** Redirections in a batch *)

Lemma ensureListenerForUpstream_other upstream cmd addr p :
  upstream <> addr ->
  listeners (ensureListenerForUpstream upstream cmd p).2 !! addr = listeners p !! addr.
Proof.
  intros Hne. unfold ensureListenerForUpstream, createListener, runListener. go. cbn.
  destruct (listeners p !! upstream); cbn; [done|].
  destruct (StatsdWithTags _ _); cbn; [by rewrite lookup_insert_ne|].
  destruct (ConnectServer _); cbn; [by rewrite lookup_insert_ne|].
  destruct (listener_New _); cbn; by rewrite lookup_insert_ne.
Qed.

Lemma ensureAll_other addrs cmd addr p :
  addr ∉ addrs ->
  (ensureAll addrs cmd p).1 = Val tt
  /\ listeners (ensureAll addrs cmd p).2 !! addr = listeners p !! addr.
Proof.
  revert p. induction addrs as [|a rest IH]; intros p Hnot; cbn [ensureAll]; [done|].
  apply not_elem_of_cons in Hnot as [Hne Hrest]. unfold bind.
  pose proof (ensureListenerForUpstream_returns a cmd p) as Hret.
  pose proof (ensureListenerForUpstream_other a cmd addr p) as Hother.
  destruct (ensureListenerForUpstream a cmd p) as [r p1]. cbn in Hret, Hother. subst r.
  destruct (IH p1 Hrest) as [Hr Hl]. rewrite Hl, Hother by done. done.
Qed.

Lemma ensureListenerForUpstream_keeps upstream cmd addr p :
  is_Some (listeners p !! addr) ->
  is_Some (listeners (ensureListenerForUpstream upstream cmd p).2 !! addr).
Proof.
  intros Hreg. destruct (decide (upstream = addr)) as [->|Hne].
  - by destruct (ensureListenerForUpstream_registers addr cmd p) as [? _].
  - by rewrite ensureListenerForUpstream_other.
Qed.

(** Without the CLUSTER commands and with the cache not in use, the loop over
    the replies goes to the end: it returns no error, forgets no listener, and
    has registered the address that each well formed MOVED or ASK error
    names. *)
Lemma observe_registers_redirects cmds mm : forall i p,
  (forall j, j < length mm ->
     exists cmd, cmds !! (i + j) = Some cmd
                 /\ cmd <> "CLUSTER SLOTS" /\ cmd <> "CLUSTER NODES") ->
  (forall m, m ∈ mm -> IsError m = true ->
     HasPrefix (Value m) "MOVED" || HasPrefix (Value m) "ASK" = true ->
     3 <= length (Split (Value m) " ")) ->
  let r := observe None cmds i mm p in
  r.1 = Val None
  /\ (forall a, is_Some (listeners p !! a) -> is_Some (listeners r.2 !! a))
  /\ (forall m addr, m ∈ mm -> IsError m = true ->
        HasPrefix (Value m) "MOVED" || HasPrefix (Value m) "ASK" = true ->
        Split (Value m) " " !! 2 = Some addr ->
        is_Some (listeners r.2 !! addr)).
Proof.
  induction mm as [|m rest IH]; intros i p Hcmds Hwf.
  { cbn. split; [done|]. split; [done|]. intros m addr Hin. by apply elem_of_nil in Hin. }
  destruct (Hcmds 0) as (cmd & Hcmd & Hslots & Hnodes); [cbn; lia|].
  rewrite Nat.add_0_r in Hcmd.
  assert (forall q,
            let r := observe None cmds (S i) rest q in
            r.1 = Val None
            /\ (forall a, is_Some (listeners q !! a) -> is_Some (listeners r.2 !! a))
            /\ (forall m addr, m ∈ rest -> IsError m = true ->
                  HasPrefix (Value m) "MOVED" || HasPrefix (Value m) "ASK" = true ->
                  Split (Value m) " " !! 2 = Some addr ->
                  is_Some (listeners r.2 !! addr))) as Hrest.
  { intros q. apply IH.
    - intros j Hj. replace (S i + j) with (i + S j) by lia. apply Hcmds. cbn. lia.
    - intros m' Hin. apply Hwf. by right. }
  assert (observe None cmds i (m :: rest) p
          = if IsError m && (HasPrefix (Value m) "MOVED" || HasPrefix (Value m) "ASK")
            then match Split (Value m) " " !! 2 with
                 | Some addr =>
                     observe None cmds (S i) rest
                       (ensureListenerForUpstream addr
                          (cmd +:+ " " +:+ default EmptyString (Split (Value m) " " !! 0))
                          p).2
                 | None => (Panicked, p)
                 end
            else observe None cmds (S i) rest p) as Hstep.
  { cbn [observe]. unfold bind at 1. unfold ret at 1.
    rewrite (bind_val _ _ _ _ _ (index_val cmds i _ p Hcmd)).
    rewrite decide_False by done. rewrite decide_False by done.
    unfold bind at 1. unfold ret at 1.
    destruct (IsError m) eqn:Herr; [|done]. cbn [andb].
    destruct (_ || _) eqn:Hred; [|done].
    assert (3 <= length (Split (Value m) " ")) as Hparts by (apply Hwf; [by left|done..]).
    rewrite (proj2 (Nat.ltb_ge _ _) Hparts).
    destruct (lookup_lt_is_Some_2 (Split (Value m) " ") 2) as [addr Haddr]; [lia|].
    destruct (lookup_lt_is_Some_2 (Split (Value m) " ") 0) as [verb Hverb]; [lia|].
    rewrite Haddr, Hverb. cbn [default].
    rewrite (bind_val _ _ _ _ _ (index_val _ 2 _ p Haddr)).
    rewrite (bind_val _ _ _ _ _ (index_val _ 0 _ p Hverb)).
    unfold bind at 1.
    pose proof (ensureListenerForUpstream_returns addr (cmd +:+ " " +:+ verb) p) as Hret.
    destruct (ensureListenerForUpstream addr _ p) as [r0 p1]. cbn in Hret. by subst r0. }
  cbn zeta. rewrite Hstep.
  destruct (IsError m && _) eqn:Hredirect.
  - apply andb_prop in Hredirect as [Herr Hred].
    assert (3 <= length (Split (Value m) " ")) as Hparts by (apply Hwf; [by left|done..]).
    destruct (lookup_lt_is_Some_2 (Split (Value m) " ") 2) as [addr Haddr]; [lia|].
    rewrite Haddr.
    set (p1 := (ensureListenerForUpstream addr _ p).2).
    destruct (Hrest p1) as (Hret & Hkeep & Hreg).
    split; [done|]. split.
    + intros a Ha. apply Hkeep. by apply ensureListenerForUpstream_keeps.
    + intros m' addr' [-> | Hin]%elem_of_cons Herr' Hred' Haddr'.
      * apply Hkeep. assert (addr' = addr) as -> by congruence.
        by destruct (ensureListenerForUpstream_registers addr
                       (cmd +:+ " " +:+ default EmptyString (Split (Value m) " " !! 0)) p)
          as [? _].
      * by eapply Hreg.
  - destruct (Hrest p) as (Hret & Hkeep & Hreg).
    split; [done|]. split; [done|].
    intros m' addr' [-> | Hin]%elem_of_cons Herr' Hred' Haddr'; [|by eapply Hreg].
    by rewrite Herr', Hred' in Hredirect.
Qed.

(** C5.  What the loop over the replies does after the reply to
    CLUSTER SLOTS: it returns.  The replies that follow in the batch are not
    looked at, so an address that only a later MOVED or ASK error names is
    not registered, while the error is relayed with the rest. *)
Theorem cluster_slots_ends_observation p cmds mm rt m rest b slots addr :
  length cmds = length mm ->
  cmds !! 0 = Some "CLUSTER SLOTS" ->
  rt mm = (m :: rest, None) ->
  EncodeToBytes m = (b, None) ->
  UnmarshalClusterTopo b = inl slots ->
  addr ∉ slots ->
  listeners p !! addr = None ->
  let r := interceptMessages cmds mm rt p in
  r.1 = Val (m :: rest, None) /\ listeners r.2 !! addr = None.
Proof.
  intros Hlen Hcmd Hrt Henc Hun Hnot Hnew.
  assert (consultCache cmds mm p = (Val (None, None), p)) as Hc.
  { apply consultCache_not_cacheable; [done|]. by exists 0, "CLUSTER SLOTS". }
  rewrite (interceptMessages_forward _ _ rt _ _ _ Hc), Hrt. cbn [fst snd]. cbn zeta.
  set (p2 := with_roundTrips _ p).
  assert (observe None cmds 0 (m :: rest) p2
          = bind (ensureAll slots "CLUSTER SLOTS") (fun _ => ret None) p2) as ->.
  { cbn [observe]. unfold bind at 1. unfold ret at 1.
    rewrite (bind_val _ _ _ _ _ (index_val cmds 0 _ p2 Hcmd)).
    rewrite decide_True by done. by rewrite Henc, Hun. }
  unfold bind.
  destruct (ensureAll_other slots "CLUSTER SLOTS" addr p2 Hnot) as [Hr Hl].
  destruct (ensureAll slots _ p2) as [r p3]. cbn [fst snd] in Hr, Hl |- *. subst r.
  unfold ret. cbn [fst snd]. split; [done|]. rewrite Hl. exact Hnew.
Qed.

End Intercept.

(** ** The local socket path *)

Section SocketPath.

Lemma append_cons x (a b : string) : String x a +:+ b = String x (a +:+ b).
Proof. reflexivity. Qed.

Lemma append_assoc (a b c : string) : (a +:+ b) +:+ c = a +:+ (b +:+ c).
Proof.
  induction a as [|x a IH]; [done|]. by rewrite !append_cons, IH.
Qed.

Lemma IndexByte_lower s c : (-1 <= IndexByte s c)%Z.
Proof.
  induction s as [|a s IH]; cbn; [lia|].
  destruct (Ascii.eqb a c); [lia|]. destruct (IndexByte s c <? 0)%Z eqn:?; lia.
Qed.

Lemma IndexByte_absent_cons a s c :
  IndexByte (String a s) c = (-1)%Z -> Ascii.eqb a c = false /\ IndexByte s c = (-1)%Z.
Proof.
  cbn. pose proof (IndexByte_lower s c). destruct (Ascii.eqb a c); [done|].
  destruct (IndexByte s c <? 0)%Z eqn:Hneg; [|lia]. apply Z.ltb_lt in Hneg.
  intros _. split; [done | lia].
Qed.

Lemma ReplaceByte_absent s old new :
  IndexByte s old = (-1)%Z -> ReplaceByte s old new = s.
Proof.
  induction s as [|a s IH]; [done|]. intros [Ha Hs]%IndexByte_absent_cons.
  cbn. by rewrite Ha, IH.
Qed.

Lemma ReplaceByte_append s1 s2 old new :
  ReplaceByte (s1 +:+ s2) old new = ReplaceByte s1 old new +:+ ReplaceByte s2 old new.
Proof.
  induction s1 as [|a s1 IH]; [done|].
  rewrite append_cons. cbn [ReplaceByte]. by rewrite append_cons, IH.
Qed.

Lemma digits_NoColon (d : Decimal.uint) : NoColon (NilEmpty.string_of_uint d).
Proof.
  unfold NoColon. induction d as [|d IH|d IH|d IH|d IH|d IH|d IH|d IH|d IH|d IH|d IH];
    [done|..]; cbn; by rewrite IH.
Qed.

Lemma Itoa_NoColon (n : N) : NoColon (Itoa (Z.of_N n)).
Proof.
  unfold Itoa. destruct n as [|q]; [done|]. cbn.
  pose proof (digits_NoColon (Pos.to_uint q)) as Hd.
  unfold NilZero.string_of_uint. by destruct (Pos.to_uint q).
Qed.

Lemma localSocketPath_of_host_port host port prefix suffix (d : Z) :
  NoColon host -> NoColon port ->
  localSocketPathFromUpstream (host +:+ ":" +:+ port) d prefix suffix
  = if (d >? -1)%Z
    then prefix +:+ host +:+ "-" +:+ port +:+ "-" +:+ Itoa d +:+ suffix
    else prefix +:+ host +:+ "-" +:+ port +:+ suffix.
Proof.
  intros Hhost Hport. unfold localSocketPathFromUpstream.
  rewrite (ReplaceByte_append host), (ReplaceByte_append ":" port).
  rewrite (ReplaceByte_absent host), (ReplaceByte_absent port) by done.
  cbn [ReplaceByte Ascii.eqb Bool.eqb].
  destruct (d >? -1)%Z; by rewrite !append_assoc.
Qed.

(** C8.  For an upstream [host:port], with no colon in the host and the
    port a number in decimal, the local path is prefix, host, a dash, the
    port, and the suffix when the database index is -1; with a database
    index over -1, a dash and the index in decimal come before the suffix. *)
Theorem localSocketPath_form host (port : N) prefix suffix (d : Z) :
  NoColon host ->
  let upstream := host +:+ ":" +:+ Itoa (Z.of_N port) in
  (d = (-1)%Z ->
     localSocketPathFromUpstream upstream d prefix suffix
     = prefix +:+ host +:+ "-" +:+ Itoa (Z.of_N port) +:+ suffix)
  /\ ((d > -1)%Z ->
      localSocketPathFromUpstream upstream d prefix suffix
      = prefix +:+ host +:+ "-" +:+ Itoa (Z.of_N port) +:+ "-" +:+ Itoa d +:+ suffix).
Proof.
  intros Hhost upstream. subst upstream.
  rewrite localSocketPath_of_host_port by auto using Itoa_NoColon.
  split.
  - intros ->. reflexivity.
  - intros Hd. by rewrite (proj2 (Z.gtb_gt d (-1))) by lia.
Qed.

End SocketPath.

(** ** The properties on examples *)

Section Examples.
Import Resp.
#[local] Existing Instance codec.
#[local] Existing Instance up.

(** C1 on an example: GET foo and MGET a b on the warm cache. *)
Lemma full_hit_example :
  let p := with_cache warm (start (Some ["f"])) in
  let mm := [command ["GET"; "foo"]; command ["MGET"; "a"; "b"]] in
  roundTrips (interceptMessages ["GET"; "MGET"] mm (answering []) p).2 = [].
Proof.
  intros p mm.
  destruct (full_hit_skips_upstream p ["f"] ["GET"; "MGET"] mm (answering []))
    as (out & _ & Htrips & _).
  - reflexivity.
  - reflexivity.
  - intros [|[|i]] cmd m Hc Hm; cbn in Hc, Hm; simplify_eq;
      [left; split; [done | by vm_compute] | by right].
  - intros [|[|i]] m k Hm Hk; cbn in Hm; simplify_eq;
      apply list_elem_of_In in Hk; vm_compute in Hk; destruct_or?; subst;
      try done; vm_compute; by eexists.
  - exact Htrips.
Defined.

(** C2 on an example: MGET a b with only a in the cache. *)
Lemma miss_example :
  let p := with_cache warmA (start (Some ["a"; "b"])) in
  let mm := [command ["MGET"; "a"; "b"]] in
  let reply := [NewArray [bulk "1"; bulk "2"]] in
  (interceptMessages ["MGET"] mm (answering reply) p).1 = Val (reply, None).
Proof.
  intros p mm reply.
  destruct (proj2 (miss_forwards_to_upstream cold [] p ["a"; "b"] ["MGET"] mm
                     (answering reply))) as (_ & _ & Hreturns).
  - reflexivity.
  - reflexivity.
  - intros [|i] cmd m Hc Hm; cbn in Hc, Hm; simplify_eq. by right.
  - exists 0, (command ["MGET"; "a"; "b"]), "b".
    split; [done|]. split; [|by vm_compute].
    apply list_elem_of_In. vm_compute. auto.
  - apply Hreturns. intros [|j] m Hm; cbn in Hm; simplify_eq.
    exists (command ["MGET"; "a"; "b"]). split; [done | by vm_compute].
Defined.

(** C3 on an example: a MOVED error is not stored. *)
Lemma Set_error_example :
  Cache_Set ["x"] (err "MOVED 1234 10.0.0.2:6379") warm = (Val tt, warm).
Proof.
  apply (proj1 (Set_stores_no_error ["x"] (err "MOVED 1234 10.0.0.2:6379") warm)).
  reflexivity.
Defined.

(** C6 on an example: [foo] holds the encoded [bar]; a message whose type
    byte is no RESP type is set for [foo]; the encoder fails, and [foo]
    holds the empty bytes that came with the failure. *)
Lemma set_after_failure_example :
  cached warm "foo" = Some (bulk "bar")
  /\ exists c',
      Cache_set "foo" (mkMessage "x"%char "v" []) warm = (Val tt, c')
      /\ cache_log c' = cache_log warm ++ [("error encoding redis message", "foo")]
      /\ fc_ops (cache_c c') = fc_ops (cache_c warm) ++ [OpSet "foo" EmptyString]
      /\ fc_data (cache_c c') !! "foo" = Some (EmptyString, cache_ttl warm).
Proof.
  split; [by vm_compute|].
  apply (set_stores_after_encoding_failure "foo" (mkMessage "x"%char "v" []) warm EmptyString
           "bad resp type"); by vm_compute.
Defined.

(** C9, the claim as stated fails: a message that is no error, with one
    element and one key, on which [Set] reads [keys[1]]. *)
Lemma Set_nested_array_overruns :
  let m := NewArray [NewArray [bulk "1"; bulk "2"]] in
  IsError m = false
  /\ length (Array m) <= length ["k"]
  /\ (Cache_Set ["k"] m cold).1 = Panicked.
Proof. split; [done|]. split; [done | by vm_compute]. Qed.

(** C9 on an example: the reply to MGET a b fits its two keys. *)
Lemma Set_fits_example :
  (Cache_Set ["a"; "b"] (NewArray [bulk "1"; bulk "2"]) cold).1 = Val tt.
Proof.
  apply (proj2 (proj2 (Set_returns_iff_fits ["a"; "b"] (NewArray [bulk "1"; bulk "2"])
                         cold))).
  - reflexivity.
  - reflexivity.
  - repeat constructor.
  - cbn. lia.
Defined.



(** C5 on an example: CLUSTER SLOTS and GET x in one batch; the reply to
    GET x is a MOVED error that names 10.0.0.2:6379, which stays unknown. *)
Lemma redirect_after_cluster_slots_example :
  let mm := [command ["CLUSTER"; "SLOTS"]; command ["GET"; "x"]] in
  let moved := err "MOVED 4567 10.0.0.2:6379" in
  let r := interceptMessages ["CLUSTER SLOTS"; "GET"] mm
             (answering [slotsReply; moved]) (start None) in
  r.1 = Val ([slotsReply; moved], None) /\ listeners r.2 !! "10.0.0.2:6379" = None.
Proof.
  intros mm moved.
  apply (cluster_slots_ends_observation (start None) ["CLUSTER SLOTS"; "GET"] mm
           (answering [slotsReply; moved]) slotsReply [moved]
           (EncodeToBytes slotsReply).1 ["10.0.0.1:6379"] "10.0.0.2:6379").
  - reflexivity.
  - reflexivity.
  - reflexivity.
  - by vm_compute.
  - by vm_compute.
  - intros Hin%list_elem_of_In. vm_compute in Hin. by destruct Hin as [[=]|[]].
  - reflexivity.
Defined.

(** C7, the claim as stated fails: the pool of a new address cannot be
    made, so [createListener] returns nil with the error; the error is
    logged and, there being no return, the call registers the address all the
    same, with the nil listener, which it hands to [runListener]; no pool and
    no listener is made for the address. *)
Lemma failed_creation_registers_no_listener :
  let a := "10.0.0.2:6379" in
  let p1 := (@ensureListenerForUpstream noServer a "GET MOVED" (start None)).2 in
  listeners p1 !! a = Some None
  /\ runningListeners p1 = [None]
  /\ servers p1 = []
  /\ log p1 = ["ensuring we have a listener for"; "did not find listener, creating new one";
               "unable to create listener"].
Proof. by vm_compute. Qed.

(** C7 on an example: three registrations of a new address. *)
Lemma registration_example :
  let a := "10.0.0.2:6379" in
  let l := mkListener "/var/tmp/redisbetween-10.0.0.2-6379.sock" a in
  let p1 := (ensureListenerForUpstream a "GET MOVED" (start None)).2 in
  let pn := foldl (fun q c => (ensureListenerForUpstream a c q).2) p1
              ["GET MOVED"; "GET ASK"] in
  listeners pn = <[a := Some l]> ∅ /\ servers pn = [a] /\ runningListeners pn = [Some l].
Proof.
  intros a l p1 pn.
  destruct (ensureListenerForUpstream_idempotent (start None) a "GET MOVED"
              ["GET MOVED"; "GET ASK"]) as ((Hl & Hs & Hr) & (Hln & Hsn & Hrn));
    [reflexivity.. |].
  fold p1 in Hl, Hs, Hr, Hln, Hsn, Hrn. fold pn in Hln, Hsn, Hrn.
  rewrite Hln, Hsn, Hrn, Hl, Hs, Hr. done.
Defined.

(** C8 on an example. *)
Lemma localSocketPath_example :
  localSocketPathFromUpstream "example.com:6379" 3 "/var/tmp/redisbetween-" ".sock"
  = "/var/tmp/redisbetween-example.com-6379-3.sock".
Proof.
  apply (proj2 (localSocketPath_form "example.com" 6379 "/var/tmp/redisbetween-" ".sock"
                  3 eq_refl)).
  lia.
Defined.

(** C10 on an example: SET k v and GET foo in one batch, on the warm
    cache. *)
Lemma uncacheable_batch_example :
  let p := with_cache warm (start (Some ["f"])) in
  let mm := [command ["SET"; "k"; "v"]; command ["GET"; "foo"]] in
  let r := interceptMessages ["SET"; "GET"] mm
             (answering [mkMessage TypeString "OK" []; bulk "new"]) p in
  cache r.2 = warm /\ roundTrips r.2 = [mm].
Proof.
  intros p mm.
  destruct (uncacheable_batch_bypasses_cache p ["SET"; "GET"] mm
              (answering [mkMessage TypeString "OK" []; bulk "new"]))
    as (Hcache & Htrips & _).
  - reflexivity.
  - exists 0, "SET". by split.
  - by split.
Defined.

End Examples.


(** * Further properties of the cache *)

Section CacheRoundTrips.
Context `{Redis}.

Lemma fc_accepts_bound fc1 fc2 key value :
  fc_maxKeyValLen fc1 = fc_maxKeyValLen fc2 ->
  fc_accepts fc1 key value = fc_accepts fc2 key value.
Proof. intros Hmax. unfold fc_accepts. by rewrite Hmax. Qed.

Lemma Cache_set_accepted key mm c :
  fc_accepts (cache_c c) key (EncodeToBytes mm).1 = true ->
  exists c',
    Cache_set key mm c = (Val tt, c')
    /\ cache_ttl c' = cache_ttl c
    /\ fc_maxKeyValLen (cache_c c') = fc_maxKeyValLen (cache_c c)
    /\ fc_data (cache_c c')
       = <[key := ((EncodeToBytes mm).1, cache_ttl c)]> (fc_data (cache_c c)).
Proof.
  intros Hacc. unfold Cache_set, fc_Set.
  destruct (EncodeToBytes mm) as [b [e|]]; go; cbn in *; rewrite Hacc; by eexists.
Qed.

Lemma Cache_set_refused key mm c :
  fc_accepts (cache_c c) key (EncodeToBytes mm).1 = false ->
  exists c',
    Cache_set key mm c = (Val tt, c')
    /\ fc_data (cache_c c') = fc_data (cache_c c)
    /\ exists lg, cache_log c' = lg ++ [("error writing to cache", key)].
Proof.
  intros Hacc. unfold Cache_set, fc_Set.
  destruct (EncodeToBytes mm) as [b [e|]]; go; cbn in *; rewrite Hacc;
    eexists; (split; [reflexivity|]); (split; [reflexivity|]); by eexists.
Qed.

Lemma cached_insert c c' key b t k :
  fc_data (cache_c c') = <[key := (b, t)]> (fc_data (cache_c c)) ->
  cached c' k = if decide (key = k) then DecodeFromBytes b else cached c k.
Proof.
  intros Hdata. unfold cached. rewrite Hdata, lookup_insert.
  by destruct (decide (key = k)).
Qed.

(** One element of a reply that is no array, set with its key. *)
Lemma Cache_Set_element k0 e c :
  IsArray e = false ->
  (IsError e = false -> fc_accepts (cache_c c) k0 (EncodeToBytes e).1 = true) ->
  exists c1,
    Cache_Set [k0] e c = (Val tt, c1)
    /\ cache_ttl c1 = cache_ttl c
    /\ fc_maxKeyValLen (cache_c c1) = fc_maxKeyValLen (cache_c c)
    /\ fc_data (cache_c c1)
       = if IsError e then fc_data (cache_c c)
         else <[k0 := ((EncodeToBytes e).1, cache_ttl c)]> (fc_data (cache_c c)).
Proof.
  intros Hflat Hacc. rewrite Cache_Set_unfold, Hflat.
  destruct (IsError e); [by exists c|].
  rewrite (bind_val _ _ _ _ _ (index_val [k0] 0 k0 c eq_refl)).
  by apply Cache_set_accepted, Hacc.
Qed.

Lemma Set_range_elements keys arr :
  NoDup keys ->
  Forall (fun e => IsArray e = false) arr ->
  forall i c,
    (forall j, j < length arr -> i + j < length keys) ->
    (forall j k e, arr !! j = Some e -> keys !! (i + j) = Some k -> IsError e = false ->
                   fc_accepts (cache_c c) k (EncodeToBytes e).1 = true) ->
    exists c',
      Set_range Cache_Set keys i arr c = (Val tt, c')
      /\ cache_ttl c' = cache_ttl c
      /\ fc_maxKeyValLen (cache_c c') = fc_maxKeyValLen (cache_c c)
      /\ (forall j k e, arr !! j = Some e -> keys !! (i + j) = Some k ->
            fc_data (cache_c c') !! k
            = if IsError e then fc_data (cache_c c) !! k
              else Some ((EncodeToBytes e).1, cache_ttl c))
      /\ (forall k, (forall j, j < length arr -> keys !! (i + j) <> Some k) ->
            fc_data (cache_c c') !! k = fc_data (cache_c c) !! k).
Proof.
  intros Hnodup. induction 1 as [|e rest Hflat _ IH]; intros i c Hlen Hacc.
  { exists c. cbn. repeat split. intros j k e Hj. by rewrite lookup_nil in Hj. }
  destruct (lookup_lt_is_Some_2 keys i) as [k0 Hk0].
  { specialize (Hlen 0). cbn in Hlen. lia. }
  destruct (Cache_Set_element k0 e c Hflat) as (c1 & Hrun1 & Httl1 & Hmax1 & Hdata1).
  { intros Herr. apply (Hacc 0 k0 e); [done | by rewrite Nat.add_0_r | done]. }
  destruct (IH (S i) c1) as (c' & Hrun & Httl & Hmax & Hset & Hother).
  { intros j Hj. specialize (Hlen (S j)). cbn in Hlen. lia. }
  { intros j k e' Hj Hk Herr. rewrite (fc_accepts_bound _ (cache_c c)) by done.
    apply (Hacc (S j) k e'); [done | by rewrite Nat.add_succ_r | done]. }
  assert (forall k, k <> k0 -> fc_data (cache_c c1) !! k = fc_data (cache_c c) !! k) as Hne.
  { intros k Hk. rewrite Hdata1. destruct (IsError e); [done|]. by rewrite lookup_insert_ne. }
  exists c'. split; [|split; [congruence|split; [congruence|split]]].
  - cbn [Set_range]. rewrite (bind_val _ _ _ _ _ (index_val keys i k0 c Hk0)).
    rewrite (bind_val _ _ _ _ _ Hrun1). exact Hrun.
  - intros [|j] k e' Hj Hk.
    + cbn in Hj. injection Hj as <-. rewrite Nat.add_0_r in Hk.
      assert (k = k0) as -> by congruence.
      rewrite Hother.
      * rewrite Hdata1. destruct (IsError e); [done|]. by rewrite lookup_insert_eq.
      * intros j Hj Hdup. apply (NoDup_lookup _ _ _ _ Hnodup Hdup) in Hk0. lia.
    + cbn in Hj. replace (i + S j) with (S i + j) in Hk by lia.
      rewrite (Hset j k e' Hj Hk), Httl1. rewrite Hne; [done|].
      intros ->. apply (NoDup_lookup _ _ _ _ Hnodup Hk) in Hk0. lia.
  - intros k Hnot. rewrite Hother.
    + apply Hne. intros ->. apply (Hnot 0); [cbn; lia | by rewrite Nat.add_0_r].
    + intros j Hj. replace (S i + j) with (i + S j) by lia. apply Hnot. cbn. lia.
Qed.

(** X1.  A reply that is neither an error nor an array, set for a key, is
    what [Get] then returns for that key, when the store takes the entry and
    the codec reads back what it wrote; the other keys read as before.  Only
    the first key of the list is used. *)
Theorem Set_then_Get k ks m c :
  IsError m = false -> IsArray m = false ->
  fc_accepts (cache_c c) k (EncodeToBytes m).1 = true ->
  DecodeFromBytes (EncodeToBytes m).1 = Some m ->
  let c' := (Cache_Set (k :: ks) m c).2 in
  (Cache_Set (k :: ks) m c).1 = Val tt
  /\ (Cache_Get k c').1 = Val (Some m)
  /\ (forall k', k' <> k -> (Cache_Get k' c').1 = (Cache_Get k' c).1).
Proof.
  intros Herr Harr Hacc Hdec. rewrite Cache_Set_unfold, Herr, Harr.
  rewrite (bind_val _ _ _ _ _ (index_val (k :: ks) 0 k c eq_refl)).
  destruct (Cache_set_accepted k m c Hacc) as (c' & -> & _ & _ & Hdata).
  cbn [fst snd]. rewrite !Cache_Get_spec. cbn [fst]. split; [done|]. split.
  - rewrite (cached_insert c c' _ _ _ k Hdata), decide_True by done. by rewrite Hdec.
  - intros k' Hne. rewrite !Cache_Get_spec. cbn [fst].
    by rewrite (cached_insert c c' _ _ _ k' Hdata), decide_False by congruence.
Qed.

(** X2.  The fill of the cache is positional.  An array reply whose
    elements are no arrays, set for distinct keys, at least as many as the
    elements, leaves under [keys[i]] the element [i] when it is no error and
    what was there when it is one; keys beyond the elements and keys not in
    the list read as before.  The store is assumed to take the entries and the
    codec to read back what it wrote. *)
Theorem Set_array_positional keys m c :
  IsError m = false -> IsArray m = true ->
  NoDup keys ->
  length (Array m) <= length keys ->
  Forall (fun e => IsArray e = false) (Array m) ->
  (forall i k e, keys !! i = Some k -> Array m !! i = Some e -> IsError e = false ->
     fc_accepts (cache_c c) k (EncodeToBytes e).1 = true
     /\ DecodeFromBytes (EncodeToBytes e).1 = Some e) ->
  let r := Cache_Set keys m c in
  r.1 = Val tt
  /\ (forall i k e, keys !! i = Some k -> Array m !! i = Some e ->
        cached r.2 k = if IsError e then cached c k else Some e)
  /\ (forall k, (forall i, i < length (Array m) -> keys !! i <> Some k) ->
        cached r.2 k = cached c k).
Proof.
  intros Herr Harr Hnodup Hlen Hflat Hok. rewrite Cache_Set_unfold, Herr, Harr.
  destruct (Set_range_elements keys (Array m) Hnodup Hflat 0 c)
    as (c' & -> & _ & _ & Hset & Hother).
  { intros j Hj. lia. }
  { intros j k e He Hk Herr'. by apply (Hok j k e). }
  cbn [fst snd]. split; [done|]. split.
  - intros i k e Hk He. unfold cached. rewrite (Hset i k e He Hk).
    destruct (IsError e) eqn:Herr'; [done|]. by apply (Hok i k e).
  - intros k Hnot. unfold cached. by rewrite Hother.
Qed.

(** X3.  After [Del] of a key, [Get] of that key misses and so does
    [GetAll] of every list that has the key; the other keys read as before.
    [Del] tells whether the key had an entry. *)
Theorem Del_then_miss key keys c :
  let r := Cache_Del key c in
  r.1 = Val (bool_decide (is_Some (fc_data (cache_c c) !! key)))
  /\ (Cache_Get key r.2).1 = Val None
  /\ (key ∈ keys -> (Cache_GetAll keys r.2).1 = Val None)
  /\ (forall k, k <> key -> (Cache_Get k r.2).1 = (Cache_Get k c).1).
Proof.
  assert (forall k, cached (Cache_Del key c).2 k
                    = if decide (key = k) then None else cached c k) as Hc.
  { intros k. unfold cached, Cache_Del, fc_Del. go. cbn. rewrite lookup_delete.
    by destruct (decide (key = k)). }
  cbn zeta. split; [reflexivity|]. split; [|split].
  - rewrite Cache_Get_spec, Hc, decide_True by done. done.
  - intros Hin. rewrite Cache_GetAll_spec. cbn [fst]. f_equal.
    apply mapM_cached_None. exists key. rewrite Hc, decide_True by done. done.
  - intros k Hne. rewrite !Cache_Get_spec, Hc, decide_False by congruence. done.
Qed.

(** X4.  After [Clear] every [Get] misses, and [GetAll] misses for every
    list of keys but the empty one, for which it returns no message. *)
Theorem Clear_then_miss key keys c :
  let c' := (Cache_Clear c).2 in
  (Cache_Get key c').1 = Val None
  /\ (Cache_GetAll (key :: keys) c').1 = Val None
  /\ (Cache_GetAll [] c').1 = Val (Some []).
Proof.
  cbn zeta. split; [|split; [|reflexivity]].
  - by rewrite Cache_Get_spec.
  - by rewrite Cache_GetAll_spec.
Qed.

(** X5.  When the store refuses the entry of a reply that is neither an
    error nor an array, [Set] returns all the same: the refusal is logged and
    the entries are as they were. *)
Theorem Set_refused_is_logged k ks m c :
  IsError m = false -> IsArray m = false ->
  fc_accepts (cache_c c) k (EncodeToBytes m).1 = false ->
  let r := Cache_Set (k :: ks) m c in
  r.1 = Val tt
  /\ fc_data (cache_c r.2) = fc_data (cache_c c)
  /\ exists lg, cache_log r.2 = lg ++ [("error writing to cache", k)].
Proof.
  intros Herr Harr Hacc. rewrite Cache_Set_unfold, Herr, Harr.
  rewrite (bind_val _ _ _ _ _ (index_val (k :: ks) 0 k c eq_refl)).
  by destruct (Cache_set_refused k m c Hacc) as (c' & -> & ? & ?).
Qed.

End CacheRoundTrips.

(** * Further properties of the interceptor *)

Lemma keeps_ret {S A} (I : S -> Prop) (a : A) : keeps I (ret a).
Proof. by intros s. Qed.

Lemma keeps_index {S A} (I : S -> Prop) (l : list A) i : keeps I (index l i).
Proof. intros s Hs. unfold index. by destruct (l !! i). Qed.

Lemma keeps_slice {S} (I : S -> Prop) (str : string) lo hi : keeps I (slice str lo hi).
Proof. intros s Hs. unfold slice. by destruct (_ && _). Qed.

Lemma keeps_bind {S A B} (I : S -> Prop) (m : M S A) (k : A -> M S B) :
  keeps I m -> (forall a, keeps I (k a)) -> keeps I (bind m k).
Proof.
  intros Hm Hk s Hs. unfold bind. specialize (Hm s Hs).
  destruct (m s) as [[a|] s1]; cbn in *; [by apply Hk | done].
Qed.

Lemma preserves_bind_index {S X A B} (f : S -> X) (l : list A) i (k : A -> M S B) :
  (forall x, l !! i = Some x -> preserves f (k x)) -> preserves f (bind (index l i) k).
Proof.
  intros Hk s. unfold bind, index. destruct (l !! i) as [x|] eqn:Hx; [|done].
  by apply Hk.
Qed.

Section Kept.
Context `{Redis} `{Services}.

(** A property of the proxy that logging, registration and the fill of the
    cache keep is kept by the loop over the replies, and by the interceptor
    when reads of the cache and the record of round trips keep it too. *)
Section Invariant.
Context (I : Proxy -> Prop).
Hypothesis I_log : forall msg, keeps I (log_line msg).
Hypothesis I_ensure : forall upstream cmd, keeps I (ensureListenerForUpstream upstream cmd).
Hypothesis I_set : forall ks m, keeps I (on_cache (Cache_Set ks m)).

Lemma ensureAll_keeps addrs cmd : keeps I (ensureAll addrs cmd).
Proof.
  induction addrs as [|a rest IH]; cbn [ensureAll]; [apply keeps_ret|].
  apply keeps_bind; [apply I_ensure | done].
Qed.

Lemma clusterNodesLines_keeps lines cmd : keeps I (clusterNodesLines lines cmd).
Proof.
  induction lines as [|line rest IH]; cbn [clusterNodesLines]; [apply keeps_ret|].
  apply keeps_bind; [|done]. destruct (_ && _); [|apply keeps_ret].
  apply keeps_bind; [apply keeps_slice|]. intros a. apply I_ensure.
Qed.

Lemma observe_keeps ck cmds mm : forall i, keeps I (observe ck cmds i mm).
Proof.
  induction mm as [|m rest IH]; intros i; cbn [observe]; [apply keeps_ret|].
  apply keeps_bind.
  { destruct ck as [keys|]; [|apply keeps_ret].
    apply keeps_bind; [apply keeps_index|]. intros ks. apply I_set. }
  intros _. apply keeps_bind; [apply keeps_index|]. intros cmd.
  destruct (decide (cmd = "CLUSTER SLOTS")).
  { destruct (EncodeToBytes m) as [b [encErr|]].
    - apply keeps_bind; [apply I_log | intros; apply keeps_ret].
    - destruct (UnmarshalClusterTopo b).
      + apply keeps_bind; [apply ensureAll_keeps | intros; apply keeps_ret].
      + apply keeps_bind; [apply I_log | intros; apply keeps_ret]. }
  apply keeps_bind.
  { destruct (decide (cmd = "CLUSTER NODES")); [|apply keeps_ret].
    destruct (IsBulkBytes m); [apply clusterNodesLines_keeps | apply keeps_ret]. }
  intros _. destruct (IsError m); [|apply IH].
  destruct (_ || _); [|apply IH].
  destruct (_ <? _)%nat.
  { apply keeps_bind; [apply I_log | intros; apply keeps_ret]. }
  apply keeps_bind; [apply keeps_index|]. intros addr.
  apply keeps_bind; [apply keeps_index|]. intros verb.
  apply keeps_bind; [apply I_ensure|]. intros _. apply IH.
Qed.

Hypothesis I_reads : forall l p, I p -> I (with_cache (after_reads l (cache p)) p).
Hypothesis I_trips : forall g p, I p -> I (with_roundTrips g p).

Lemma fetchKeys_unchanged cmds mm : forall i p, (fetchKeys cmds i mm p).2 = p.
Proof.
  induction mm as [|m rest IH]; intros i p; cbn [fetchKeys]; [done|].
  unfold bind, index. destruct (cmds !! i) as [cmd|]; [|done]. cbn.
  destruct (negb _); [done|]. specialize (IH (S i) p).
  by destruct (fetchKeys cmds (S i) rest p) as [[r|] p1].
Qed.

Lemma fetchCached_reads_only cmds keys : forall i p,
  exists l, (fetchCached cmds i keys p).2 = with_cache (after_reads l (cache p)) p.
Proof.
  induction keys as [|ks rest IH]; intros i p; cbn [fetchCached].
  { exists []. by rewrite after_reads_nil, with_cache_cache. }
  rewrite (bind_val _ _ _ _ _ (on_cache_GetAll ks p)).
  set (p1 := with_cache _ p).
  destruct (mapM (cached (cache p)) ks) as [vs|]; [|by eexists].
  unfold bind at 1. unfold index at 1.
  destruct (cmds !! i) as [cmd|]; [|by eexists]. cbn [ret].
  unfold bind at 1.
  assert ((if decide (cmd = "GET") then index vs 0 else ret (NewArray vs)) p1
          = (Panicked, p1)
          \/ exists a, (if decide (cmd = "GET") then index vs 0 else ret (NewArray vs)) p1
                       = (Val a, p1)) as [-> | [a ->]].
  { destruct (decide (cmd = "GET")); [|right; by eexists].
    unfold index. destruct (vs !! 0); [right; by eexists | by left]. }
  { by eexists. }
  destruct (IH (S i) p1) as [l Hl]. unfold bind.
  destruct (fetchCached cmds (S i) rest p1) as [[r|] p2]; cbn in Hl |- *; subst p2;
    unfold p1; cbn; rewrite after_reads_app; by eexists.
Qed.

Lemma consultCache_reads_only cmds mm p :
  exists l, (consultCache cmds mm p).2 = with_cache (after_reads l (cache p)) p.
Proof.
  unfold consultCache. rewrite (bind_val get _ p p p eq_refl).
  destruct (cachePrefixes p) as [prefixes|].
  2:{ exists []. by rewrite after_reads_nil, with_cache_cache. }
  unfold fetchFromCache, bind.
  pose proof (fetchKeys_unchanged cmds mm 0 p) as Hk.
  destruct (fetchKeys cmds 0 mm p) as [[[keys|]|] p0]; cbn in Hk; subst p0;
    try (exists []; by rewrite after_reads_nil, with_cache_cache).
  destruct (fetchCached_reads_only cmds keys 0 p) as [l Hl].
  destruct (fetchCached cmds 0 keys p) as [[[out|]|] p1]; cbn in Hl |- *; by exists l.
Qed.

Lemma interceptMessages_keeps cmds mm rt : keeps I (interceptMessages cmds mm rt).
Proof.
  intros p Hp. unfold interceptMessages, bind.
  destruct (consultCache_reads_only cmds mm p) as [l Hl].
  destruct (consultCache cmds mm p) as [[[ck [out|]]|] p1]; cbn in Hl; subst p1; cbn;
    try by apply I_reads.
  unfold modify. destruct (rt mm) as [mm' [e|]]; cbn.
  { by apply I_trips, I_reads. }
  pose proof (observe_keeps ck cmds mm' 0 _ (I_trips (fun t => t ++ [mm]) _ (I_reads l p Hp)))
    as Hobs.
  by destruct (observe ck cmds 0 mm' _) as [[e|] p3].
Qed.

End Invariant.

Lemma on_cache_Set_data ks m p k :
  fc_data (cache_c (cache (on_cache (Cache_Set ks m) p).2)) !! k
  = fc_data (cache_c (cache p)) !! k
  \/ is_Some (fc_data (cache_c (cache (on_cache (Cache_Set ks m) p).2)) !! k).
Proof.
  unfold on_cache, zoom.
  destruct (Cache_Set_stores ks m (cache p)) as (_ & _ & _ & Hdata).
  destruct (Cache_Set ks m (cache p)) as [r c']. cbn in *.
  destruct (Hdata k) as [-> | (x & _ & ->)]; [by left | right; by eexists].
Qed.

Lemma on_cache_Set_ops ks m p :
  exists new,
    fc_ops (cache_c (cache (on_cache (Cache_Set ks m) p).2)) = fc_ops (cache_c (cache p)) ++ new
    /\ Forall (fun op => exists k v, op = OpSet k v) new.
Proof.
  unfold on_cache, zoom.
  destruct (Cache_Set_stores ks m (cache p)) as (_ & _ & (new & Hops & Hnew) & _).
  destruct (Cache_Set ks m (cache p)) as [r c']. cbn in *.
  exists new. split; [done|]. eapply Forall_impl; [exact Hnew|].
  intros op (k & x & -> & _). by eexists _, _.
Qed.

(** X7.  The interceptor removes no entry of the cache, whatever the batch,
    the replies and the outcome: the calls it makes to the store are reads and
    writes, none deletes or clears, and a key that has an entry before a
    batch has one after it. *)
Theorem interceptMessages_removes_no_entry cmds mm rt p :
  let fc := cache_c (cache p) in
  let fc' := cache_c (cache (interceptMessages cmds mm rt p).2) in
  (exists new,
     fc_ops fc' = fc_ops fc ++ new
     /\ Forall (fun op => (exists k, op = OpGet k) \/ exists k v, op = OpSet k v) new)
  /\ forall k, is_Some (fc_data fc !! k) -> is_Some (fc_data fc' !! k).
Proof.
  cbn zeta. split.
  - refine (interceptMessages_keeps
              (fun q => exists new,
                 fc_ops (cache_c (cache q)) = fc_ops (cache_c (cache p)) ++ new
                 /\ Forall (fun op => (exists k, op = OpGet k) \/ exists k v, op = OpSet k v)
                      new)
              _ _ _ _ _ cmds mm rt p _).
    + by intros msg q Hq.
    + intros upstream cmd q Hq.
      by rewrite (ensureListenerForUpstream_preserves cache).
    + intros ks m q (new & Hops & Hnew).
      destruct (on_cache_Set_ops ks m q) as (sets & -> & Hsets).
      exists (new ++ sets). rewrite Hops, <- app_assoc. split; [done|].
      apply Forall_app. split; [done|]. eapply Forall_impl; [exact Hsets|]. by right.
    + intros l q (new & Hops & Hnew). exists (new ++ (OpGet <$> l)). cbn.
      rewrite Hops, <- app_assoc. split; [done|].
      apply Forall_app. split; [done|]. apply Forall_fmap, Forall_true.
      intros k. left. by eexists.
    + by intros g q Hq.
    + exists []. by rewrite app_nil_r.
  - intros k Hk.
    refine (interceptMessages_keeps (fun q => is_Some (fc_data (cache_c (cache q)) !! k))
              _ _ _ _ _ cmds mm rt p Hk).
    + by intros msg q Hq.
    + intros upstream cmd q Hq.
      by rewrite (ensureListenerForUpstream_preserves cache).
    + intros ks m q Hq. destruct (on_cache_Set_data ks m q k) as [-> | ?]; done.
    + by intros l q Hq.
    + by intros g q Hq.
Qed.

(** X8.  The interceptor replaces no listener: an upstream that is
    registered before a batch is registered with the same listener after it,
    whatever the batch, the replies and the outcome. *)
Theorem interceptMessages_replaces_no_listener cmds mm rt p upstream l :
  listeners p !! upstream = Some l ->
  listeners (interceptMessages cmds mm rt p).2 !! upstream = Some l.
Proof.
  intros Hl.
  refine (interceptMessages_keeps (fun q => listeners q !! upstream = Some l)
            _ _ _ _ _ cmds mm rt p Hl).
  - by intros msg q Hq.
  - intros u cmd q Hq. destruct (decide (u = upstream)) as [->|Hne].
    + by rewrite (ensureListenerForUpstream_known _ _ _ _ Hq).
    + by rewrite ensureListenerForUpstream_other.
  - intros ks m q Hq. unfold on_cache, zoom. by destruct (Cache_Set ks m (cache q)).
  - by intros rd q Hq.
  - by intros g q Hq.
Qed.

End Kept.

Section CachedBatches.
Context `{Redis} `{Services}.

(** X9.  With cache prefixes configured, a batch of GET and MGET commands
    that starts with a GET whose message has no key makes the interceptor
    panic: [fetchFromCache] reads the first of no cached message.  Nothing has
    gone upstream. *)
Theorem GET_without_key_panics p prefixes cmds mm m rt :
  cachePrefixes p = Some prefixes ->
  length cmds = length mm ->
  (forall cmd, cmd ∈ cmds -> CacheableCommands cmd = true) ->
  Keys m = [] ->
  let r := interceptMessages ("GET" :: cmds) (m :: mm) rt p in
  r.1 = Panicked /\ roundTrips r.2 = roundTrips p.
Proof.
  intros Hpre Hlen Hcache Hkeys.
  assert (consultCache ("GET" :: cmds) (m :: mm) p = (Panicked, p)) as Hc.
  { rewrite (consultCache_cacheable_keys _ _ _ _ Hpre).
    - cbn [fmap list_fmap fetchCached]. rewrite Hkeys. unfold bind at 1.
      rewrite (bind_val _ _ _ _ _ (on_cache_GetAll [] p)). cbn [mapM reads_of].
      rewrite after_reads_nil, with_cache_cache. cbn [mret option_ret].
      rewrite (bind_val _ _ _ _ _ (index_val ("GET" :: cmds) 0 "GET" p eq_refl)).
      rewrite decide_True by done. reflexivity.
    - cbn. by rewrite Hlen.
    - intros [|i] cmd m' Hc Hm; cbn in Hc.
      + by injection Hc as <-.
      + apply Hcache. by eapply list_elem_of_lookup_2. }
  cbn zeta. unfold interceptMessages, bind. by rewrite Hc.
Qed.

(** What the two loops of [fetchFromCache] tell when they end. *)
Lemma fetchKeys_outcome cmds mm : forall i p,
  match (fetchKeys cmds i mm p).1 with
  | Val (Some keys) =>
      keys = Keys <$> mm
      /\ forall j m, mm !! j = Some m ->
           exists cmd, cmds !! (i + j) = Some cmd /\ CacheableCommands cmd = true
  | Val None => True
  | Panicked => exists j m, mm !! j = Some m /\ cmds !! (i + j) = None
  end.
Proof.
  induction mm as [|m rest IH]; intros i p; cbn [fetchKeys].
  { cbn. split; [done|]. intros j m Hj. by rewrite lookup_nil in Hj. }
  unfold bind, index. destruct (cmds !! i) as [cmd|] eqn:Hcmd; cbn.
  2:{ exists 0, m. by rewrite Nat.add_0_r. }
  destruct (CacheableCommands cmd) eqn:Hok; cbn; [|done].
  specialize (IH (S i) p).
  destruct (fetchKeys cmds (S i) rest p) as [[[keys|]|] p1]; cbn in *.
  - destruct IH as [-> Hall]. split; [done|]. intros [|j] m' Hj; cbn in Hj.
    + injection Hj as <-. exists cmd. by rewrite Nat.add_0_r.
    + replace (i + S j) with (S i + j) by lia. apply (Hall j m' Hj).
  - done.
  - destruct IH as (j & m' & Hj & Hnone). exists (S j), m'. split; [done|].
    by replace (i + S j) with (S i + j) by lia.
Qed.

Lemma fetchCached_outcome cmds keys : forall i p,
  match (fetchCached cmds i keys p).1 with
  | Val (Some out) =>
      length out = length keys
      /\ forall j ks, keys !! j = Some ks -> is_Some (mapM (cached (cache p)) ks)
  | Val None => True
  | Panicked =>
      exists j ks, keys !! j = Some ks
        /\ (cmds !! (i + j) = None \/ (cmds !! (i + j) = Some "GET" /\ ks = []))
  end.
Proof.
  induction keys as [|ks rest IH]; intros i p; cbn [fetchCached].
  { cbn. split; [done|]. intros j ks Hj. by rewrite lookup_nil in Hj. }
  rewrite (bind_val _ _ _ _ _ (on_cache_GetAll ks p)).
  set (p1 := with_cache _ p).
  destruct (mapM (cached (cache p)) ks) as [vs|] eqn:Hvs; [|done].
  unfold bind at 1. unfold index at 1.
  destruct (cmds !! i) as [cmd|] eqn:Hcmd; cbn [ret].
  2:{ cbn. exists 0, ks. split; [done|]. left. by rewrite Nat.add_0_r. }
  unfold bind at 1.
  assert (((if decide (cmd = "GET") then index vs 0 else ret (NewArray vs)) p1
           = (Panicked, p1) /\ cmd = "GET" /\ ks = [])
          \/ exists a, (if decide (cmd = "GET") then index vs 0 else ret (NewArray vs)) p1
                       = (Val a, p1)) as [(-> & -> & ->) | [a ->]].
  { destruct (decide (cmd = "GET")) as [->|]; [|right; by eexists].
    unfold index. destruct (vs !! 0) as [a|] eqn:Ha; [right; by eexists | left].
    split; [done|]. split; [done|]. apply length_mapM in Hvs.
    destruct vs; [|done]. by destruct ks. }
  { cbn. exists 0, []. split; [done|]. right. by rewrite Nat.add_0_r. }
  specialize (IH (S i) p1). unfold bind.
  destruct (fetchCached cmds (S i) rest p1) as [[[out|]|] p2]; cbn in *.
  - destruct IH as [Hlen Hall]. split; [by rewrite Hlen|].
    intros [|j] ks' Hj; cbn in Hj.
    + injection Hj as <-. by rewrite Hvs.
    + apply (Hall j ks' Hj).
  - done.
  - destruct IH as (j & ks' & Hj & Hwhy). exists (S j), ks'. split; [done|].
    by replace (i + S j) with (S i + j) by lia.
Qed.

Lemma consultCache_outcome cmds mm p :
  match (consultCache cmds mm p).1 with
  | Val (_, None) => True
  | Val (_, Some out) =>
      cachePrefixes p <> None /\ length out = length mm
      /\ forall j m, mm !! j = Some m ->
           (exists cmd, cmds !! j = Some cmd /\ CacheableCommands cmd = true)
           /\ forall k, k ∈ Keys m -> is_Some (cached (cache p) k)
  | Panicked =>
      cachePrefixes p <> None
      /\ exists j m, mm !! j = Some m
           /\ (cmds !! j = None \/ (cmds !! j = Some "GET" /\ Keys m = []))
  end.
Proof.
  unfold consultCache. rewrite (bind_val get _ p p p eq_refl).
  destruct (cachePrefixes p) as [prefixes|]; [|done].
  unfold fetchFromCache, bind.
  pose proof (fetchKeys_unchanged cmds mm 0 p) as Hsame.
  pose proof (fetchKeys_outcome cmds mm 0 p) as Hkeys.
  destruct (fetchKeys cmds 0 mm p) as [[[keys|]|] p0]; cbn in Hsame, Hkeys; subst p0; cbn.
  - destruct Hkeys as [-> Hcmds].
    pose proof (fetchCached_outcome cmds (Keys <$> mm) 0 p) as Hout.
    destruct (fetchCached cmds 0 (Keys <$> mm) p) as [[[out|]|] p1]; cbn in Hout |- *.
    + destruct Hout as [Hlen Hall]. split; [done|]. split; [by rewrite Hlen, length_fmap|].
      intros j m Hj. split; [by apply (Hcmds j m)|]. intros k Hk.
      destruct (Hall j (Keys m)) as [vs Hvs]; [by rewrite list_lookup_fmap, Hj|].
      apply mapM_Some in Hvs. apply list_elem_of_lookup_1 in Hk as [n Hn].
      destruct (Forall2_lookup_l _ _ _ _ _ Hvs Hn) as (v & _ & Hv). by exists v.
    + done.
    + split; [done|]. destruct Hout as (j & ks & Hj & Hwhy).
      rewrite list_lookup_fmap in Hj. destruct (mm !! j) as [m|] eqn:Hm; [|done].
      injection Hj as <-. exists j, m. by split.
  - done.
  - split; [done|]. destruct Hkeys as (j & m & Hj & Hnone). exists j, m.
    split; [done|]. by left.
Qed.

(** X10.  When the round trip fails, the interceptor has written no entry
    of the cache and registered no upstream, and it hands back the messages
    and the error of the round tripper after one round trip, in every case
    but two, both with cache prefixes configured and without a round trip: a
    panic of [fetchFromCache], on a message that has no command or on a GET
    that has no key, and a full hit, where every message has a GET or MGET
    for its command and a cached message for each of its keys.  Without cache
    prefixes the error is always handed back. *)
Theorem upstream_error_is_relayed p cmds mm rt mm' e :
  rt mm = (mm', Some e) ->
  let r := interceptMessages cmds mm rt p in
  (listeners r.2 = listeners p
   /\ servers r.2 = servers p
   /\ fc_data (cache_c (cache r.2)) = fc_data (cache_c (cache p)))
  /\ (cachePrefixes p = None ->
      r.1 = Val (mm', Some e) /\ roundTrips r.2 = roundTrips p ++ [mm])
  /\ ((r.1 = Val (mm', Some e) /\ roundTrips r.2 = roundTrips p ++ [mm])
      \/ (cachePrefixes p <> None /\ roundTrips r.2 = roundTrips p
          /\ ((r.1 = Panicked
               /\ exists j m, mm !! j = Some m
                    /\ (cmds !! j = None \/ (cmds !! j = Some "GET" /\ Keys m = [])))
              \/ ((exists out, r.1 = Val (out, None) /\ length out = length mm)
                  /\ forall j m, mm !! j = Some m ->
                       (exists cmd, cmds !! j = Some cmd /\ CacheableCommands cmd = true)
                       /\ forall k, k ∈ Keys m -> is_Some (cached (cache p) k))))).
Proof.
  intros Hrt. cbn zeta. unfold interceptMessages, bind.
  destruct (consultCache_reads_only cmds mm p) as [l Hl].
  pose proof (consultCache_outcome cmds mm p) as Hout.
  destruct (consultCache cmds mm p) as [[[ck [out|]]|] p1]; cbn in Hl, Hout; subst p1; cbn.
  - destruct Hout as (Hpre & Hlen & Hhit). split; [done|]. split; [done|].
    right. split; [done|]. split; [done|]. right. split; [by exists out | done].
  - unfold modify. rewrite Hrt. cbn. split; [done|]. split; [done|]. by left.
  - destruct Hout as (Hpre & Hwhy). split; [done|]. split; [done|].
    right. split; [done|]. split; [done|]. by left.
Qed.

(** X11.  A cold GET fills the cache for the warm one.  With cache prefixes
    configured, a GET of a key that has no cached message goes upstream and
    its reply is returned; when the reply is neither an error nor an array
    (and the store takes it and the codec reads back what it wrote), the same
    GET is then answered with that reply and without a round trip. *)
Theorem cold_GET_then_warm_GET p prefixes q k v rt rt' :
  cachePrefixes p = Some prefixes ->
  Keys q = [k] ->
  cached (cache p) k = None ->
  rt [q] = ([v], None) ->
  IsError v = false -> IsArray v = false ->
  fc_accepts (cache_c (cache p)) k (EncodeToBytes v).1 = true ->
  DecodeFromBytes (EncodeToBytes v).1 = Some v ->
  let r1 := interceptMessages ["GET"] [q] rt p in
  let r2 := interceptMessages ["GET"] [q] rt' r1.2 in
  r1.1 = Val ([v], None)
  /\ roundTrips r1.2 = roundTrips p ++ [[q]]
  /\ r2.1 = Val ([v], None)
  /\ roundTrips r2.2 = roundTrips r1.2.
Proof.
  intros Hpre Hkeys Hcold Hrt Herr Harr Hacc Hdec.
  assert (forall i cmd m, ["GET"] !! i = Some cmd -> [q] !! i = Some m ->
                          CacheableCommands cmd = true) as Hcache.
  { intros [|i] cmd m Hc Hm; cbn in Hc; [by injection Hc as <- | done]. }
  set (p1 := with_cache (after_reads [k] (cache p)) p).
  assert (consultCache ["GET"] [q] p = (Val (Some [[k]], None), p1)) as Hc1.
  { rewrite (consultCache_cacheable_keys ["GET"] [q] _ _ Hpre eq_refl Hcache).
    cbn [fmap list_fmap fetchCached]. rewrite Hkeys.
    unfold bind at 1. rewrite (bind_val _ _ _ _ _ (on_cache_GetAll [k] p)).
    cbn [mapM reads_of]. by rewrite Hcold. }
  set (p2 := with_roundTrips (fun t => t ++ [[q]]) p1).
  destruct (Cache_set_accepted k v (cache p2)) as (c' & Hset & _ & _ & Hdata).
  { by rewrite (fc_accepts_bound _ (cache_c (cache p))). }
  assert (observe (Some [[k]]) ["GET"] 0 [v] p2 = (Val None, with_cache c' p2)) as Hobs.
  { cbn [observe].
    rewrite (bind_val _ _ _ tt (with_cache c' p2)).
    - rewrite (bind_val _ _ _ _ _ (index_val ["GET"] 0 _ _ eq_refl)).
      rewrite decide_False by done. rewrite decide_False by done.
      unfold bind at 1. unfold ret at 1. by rewrite Herr.
    - rewrite (bind_val _ _ _ _ _ (index_val [[k]] 0 _ p2 eq_refl)).
      unfold on_cache, zoom. rewrite Cache_Set_unfold, Herr, Harr.
      rewrite (bind_val _ _ _ _ _ (index_val [k] 0 k _ eq_refl)). by rewrite Hset. }
  assert (interceptMessages ["GET"] [q] rt p = (Val ([v], None), with_cache c' p2)) as Hr1.
  { rewrite (interceptMessages_forward _ _ rt _ _ _ Hc1), Hrt. cbn [fst snd]. cbn zeta.
    fold p2. by rewrite Hobs. }
  assert (cached c' k = Some v) as Hwarm.
  { rewrite (cached_insert _ _ _ _ _ k Hdata), decide_True by done. exact Hdec. }
  cbn zeta. rewrite Hr1. cbn [fst snd]. split; [done|]. split; [done|].
  destruct (fetchCached_hit ["GET"] [[k]] 0 (with_cache c' p2)) as (out & Hrun & Hlen & Hans).
  { intros [|j] ks Hj; cbn in Hj; [|done]. injection Hj as <-.
    exists "GET", [v]. split; [done|]. split; [cbn; by rewrite Hwarm | by eexists]. }
  destruct (Hans 0 [k] "GET" eq_refl eq_refl) as (vs & Hvs & Hout).
  cbn in Hvs. rewrite Hwarm in Hvs. cbn in Hvs. injection Hvs as <-.
  assert (out = [v]) as ->.
  { destruct out as [|o [|o' out]]; cbn in Hlen, Hout; try done. by injection Hout as ->. }
  assert (interceptMessages ["GET"] [q] rt' (with_cache c' p2)
          = (Val ([v], None),
             with_cache (after_reads (mjoin [[k]]) (cache (with_cache c' p2)))
               (with_cache c' p2))) as ->.
  { unfold interceptMessages. unfold bind at 1.
    rewrite (consultCache_cacheable_keys _ _ _ prefixes); [|done|done|done].
    cbn [fmap list_fmap]. rewrite Hkeys. unfold bind at 1. by rewrite Hrun. }
  split; reflexivity.
Qed.

End CachedBatches.

(** * Further properties of the discovery of upstreams *)

Section Lines.

Lemma length_append (a b : string) :
  String.length (a +:+ b) = String.length a + String.length b.
Proof. induction a as [|x a IH]; [done|]. rewrite append_cons. cbn. by rewrite IH. Qed.

Lemma IndexByte_append_absent s t c :
  IndexByte s c = (-1)%Z ->
  IndexByte (s +:+ t) c
  = if (IndexByte t c <? 0)%Z then (-1)%Z
    else (Z.of_nat (String.length s) + IndexByte t c)%Z.
Proof.
  induction s as [|a s IH].
  - intros _. cbn [String.length]. pose proof (IndexByte_lower t c).
    change (EmptyString +:+ t) with t. destruct (IndexByte t c <? 0)%Z eqn:Hneg; lia.
  - intros [Ha Hs]%IndexByte_absent_cons. rewrite append_cons.
    cbn [IndexByte String.length]. rewrite Ha, (IH Hs).
    pose proof (IndexByte_lower t c).
    destruct (IndexByte t c <? 0)%Z eqn:Hneg; [done|].
    apply Z.ltb_ge in Hneg.
    destruct (_ <? 0)%Z eqn:Hneg'; [apply Z.ltb_lt in Hneg'; lia | lia].
Qed.

Lemma append_char c (t : string) : String c EmptyString +:+ t = String c t.
Proof. reflexivity. Qed.

Lemma substring_skip (a b : string) n m :
  substring (String.length a + n) m (a +:+ b) = substring n m b.
Proof. induction a as [|x a IH]; [done|]. rewrite append_cons. cbn. exact IH. Qed.

Lemma substring_prefix (a b : string) :
  substring 0 (String.length a) (a +:+ b) = a.
Proof.
  induction a as [|x a IH]; [by destruct b|]. rewrite append_cons. cbn. by rewrite IH.
Qed.

(** The address that the loop cuts out of a line of [CLUSTER NODES]. *)
Lemma nodeLine_slice line addr (p : Proxy) :
  nodeLine line addr ->
  (IndexByte line " " >? 0)%Z && (IndexByte line "@" >? 0)%Z = true
  /\ slice line (IndexByte line " " + 1) (IndexByte line "@") p = (Val addr, p).
Proof.
  intros (id & rest & -> & Hid & Hsp & Hat & Haddr).
  assert (IndexByte (id +:+ " " +:+ addr +:+ "@" +:+ rest) " "
          = Z.of_nat (String.length id)) as Hlt.
  { rewrite IndexByte_append_absent, append_char by done.
    cbn [IndexByte Ascii.eqb Bool.eqb]. cbn. lia. }
  assert (IndexByte (id +:+ " " +:+ addr +:+ "@" +:+ rest) "@"
          = Z.of_nat (String.length id + 1 + String.length addr)) as Hrt.
  { rewrite IndexByte_append_absent, append_char by done.
    cbn [IndexByte Ascii.eqb Bool.eqb]. rewrite IndexByte_append_absent, append_char by done.
    cbn [IndexByte Ascii.eqb Bool.eqb]. cbn.
    assert ((Z.of_nat (String.length addr) + 0 <? 0)%Z = false) as ->
      by (apply Z.ltb_ge; lia).
    assert ((Z.of_nat (String.length addr) + 0 + 1 <? 0)%Z = false) as ->
      by (apply Z.ltb_ge; lia).
    lia. }
  assert (0 < String.length id) as Hpos by (destruct id; [done | cbn; lia]).
  rewrite Hlt, Hrt. split.
  { apply andb_true_intro. split; apply Z.gtb_lt; lia. }
  unfold slice. rewrite !length_append. cbn [String.length].
  destruct (_ && _) eqn:Hbounds.
  2:{ apply andb_false_iff in Hbounds as [[?%Z.leb_gt | ?%Z.leb_gt]%andb_false_iff
                                           | ?%Z.leb_gt]; lia. }
  unfold ret. f_equal.
  replace (Z.to_nat (Z.of_nat (String.length id) + 1)) with (String.length id + 1) by lia.
  replace (Z.to_nat _) with (String.length addr) by lia.
  rewrite substring_skip, append_char.
  cbn [substring]. by rewrite substring_prefix.
Qed.

End Lines.

Section Discovery.
Context `{Redis} `{Services}.

Lemma isRedirect_true m :
  isRedirect m = true
  <-> IsError m = true /\ HasPrefix (Value m) "MOVED" || HasPrefix (Value m) "ASK" = true.
Proof. unfold isRedirect. apply andb_true_iff. Qed.

(** The interceptor when the cache is not consulted or the batch is not
    cacheable, and the round trip succeeds. *)
Lemma interceptMessages_observes cmds mm rt p reply :
  consultCache cmds mm p = (Val (None, None), p) ->
  rt mm = (reply, None) ->
  interceptMessages cmds mm rt p
  = let r := observe None cmds 0 reply (with_roundTrips (fun t => t ++ [mm]) p) in
    (match r.1 with Val e => Val (reply, e) | Panicked => Panicked end, r.2).
Proof.
  intros Hc Hrt. by rewrite (interceptMessages_forward _ _ rt _ _ _ Hc), Hrt.
Qed.

(** X12.  With no cache prefixes, and a batch without CLUSTER SLOTS and
    CLUSTER NODES whose redirections all have their three words, every
    redirection of the replies has the address it names registered when the
    interceptor returns, and the replies are returned as they came, with no
    error. *)
Theorem redirects_are_registered p cmds mm rt reply :
  cachePrefixes p = None ->
  rt mm = (reply, None) ->
  (forall j, j < length reply ->
     exists cmd, cmds !! j = Some cmd /\ cmd <> "CLUSTER SLOTS" /\ cmd <> "CLUSTER NODES") ->
  (forall m, m ∈ reply -> isRedirect m = true -> 3 <= length (Split (Value m) " ")) ->
  let r := interceptMessages cmds mm rt p in
  r.1 = Val (reply, None)
  /\ forall m addr, m ∈ reply -> isRedirect m = true ->
       Split (Value m) " " !! 2 = Some addr ->
       is_Some (listeners r.2 !! addr).
Proof.
  intros Hoff Hrt Hcmds Hwf. cbn zeta.
  rewrite (interceptMessages_observes _ _ _ _ _ (consultCache_off cmds mm p Hoff) Hrt).
  cbn zeta.
  destruct (observe_registers_redirects cmds reply 0
              (with_roundTrips (fun t => t ++ [mm]) p)) as (Hret & _ & Hreg).
  - exact Hcmds.
  - intros m Hin Herr Hpre. apply Hwf; [done|]. by apply isRedirect_true.
  - cbn [fst snd]. rewrite Hret. split; [done|].
    intros m addr Hin [Herr Hpre]%isRedirect_true Haddr. by eapply Hreg.
Qed.

(** The loop over the replies, cut in two.  When no reply of [pre] ends
    the loop (its command is not CLUSTER SLOTS, and it is no redirection with
    less than three words), the loop over [pre ++ post] is the loop over
    [pre] and then, unless that panicked, the loop over [post]. *)
Lemma bind_through {S A B C} (F : res B * S -> res C * S) (m : M S A)
    (k1 : A -> M S C) (k2 : A -> M S B) s :
  (forall s', F (Panicked, s') = (Panicked, s')) ->
  (forall a s', k1 a s' = F (k2 a s')) ->
  bind m k1 s = F (bind m k2 s).
Proof.
  intros Hpanic Hk. unfold bind. destruct (m s) as [[a|] s1]; [apply Hk | by rewrite Hpanic].
Qed.

Lemma bind_index_through {S A B C} (F : res B * S -> res C * S) (l : list A) i
    (k1 : A -> M S C) (k2 : A -> M S B) s :
  (forall s', F (Panicked, s') = (Panicked, s')) ->
  (forall a, l !! i = Some a -> forall s', k1 a s' = F (k2 a s')) ->
  bind (index l i) k1 s = F (bind (index l i) k2 s).
Proof.
  intros Hpanic Hk. unfold bind, index.
  destruct (l !! i) as [a|]; cbn; [by apply Hk | by rewrite Hpanic].
Qed.

Lemma observe_app ck cmds pre post : forall i p,
  (forall j mj, pre !! j = Some mj ->
     cmds !! (i + j) <> Some "CLUSTER SLOTS"
     /\ (isRedirect mj = true -> 3 <= length (Split (Value mj) " "))) ->
  observe ck cmds i (pre ++ post) p
  = match observe ck cmds i pre p with
    | (Val _, p') => observe ck cmds (i + length pre) post p'
    | (Panicked, p') => (Panicked, p')
    end.
Proof.
  induction pre as [|m pre IH]; intros i p Hpass.
  { cbn. by rewrite Nat.add_0_r. }
  destruct (Hpass 0 m eq_refl) as [Hslots Hwords]. rewrite Nat.add_0_r in Hslots.
  set (F := fun r : res (option error) * Proxy =>
              match r with
              | (Val _, p') => observe ck cmds (i + length (m :: pre)) post p'
              | (Panicked, p') => (Panicked, p')
              end).
  assert (forall q, observe ck cmds (S i) (pre ++ post) q = F (observe ck cmds (S i) pre q))
    as Hrest.
  { intros q. rewrite IH.
    - unfold F. by replace (S i + length pre) with (i + length (m :: pre)) by (cbn; lia).
    - intros j mj Hj. replace (S i + j) with (i + S j) by lia. apply (Hpass (S j) mj Hj). }
  change (observe ck cmds i ((m :: pre) ++ post) p = F (observe ck cmds i (m :: pre) p)).
  cbn [app observe].
  apply bind_through; [done|]. intros _ p1. cbn beta.
  apply bind_index_through; [done|]. intros cmd Hcmd p2. cbn beta.
  destruct (decide (cmd = "CLUSTER SLOTS")) as [Heq|_]; [congruence|].
  apply bind_through; [done|]. intros _ p3. cbn beta.
  destruct (IsError m) eqn:Herr; [|apply Hrest].
  cbn zeta. destruct (_ || _) eqn:Hpre; [|apply Hrest].
  destruct (_ <? _)%nat eqn:Hshort.
  { apply Nat.ltb_lt in Hshort. unfold isRedirect in Hwords. rewrite Herr, Hpre in Hwords.
    specialize (Hwords eq_refl). lia. }
  apply bind_index_through; [done|]. intros addr _ p4. cbn beta.
  apply bind_index_through; [done|]. intros verb _ p5. cbn beta.
  apply bind_through; [done|]. intros _ p6. apply Hrest.
Qed.

(** The loop at a redirection with less than three words. *)
Lemma observe_short_redirect ck cmds n m rest cmd p :
  cmds !! n = Some cmd -> cmd <> "CLUSTER SLOTS" ->
  isRedirect m = true ->
  length (Split (Value m) " ") < 3 ->
  (forall keys, ck = Some keys -> is_Some (keys !! n)) ->
  observe ck cmds n (m :: rest) p
  = (Val None, with_log (fun l => l ++ ["failed to parse MOVED error"]) p).
Proof.
  intros Hcmd Hslots [Herr Hpre]%isRedirect_true Hshort Hkeys. cbn [observe].
  assert ((match ck with
           | Some cacheKeys => let! ks := index cacheKeys n in on_cache (Cache_Set ks m)
           | None => ret tt
           end) p = (Val tt, p)) as Hset.
  { destruct ck as [keys|]; [|done]. destruct (Hkeys keys eq_refl) as [ks Hks].
    rewrite (bind_val _ _ _ _ _ (index_val keys n ks p Hks)).
    unfold on_cache, zoom. rewrite Cache_Set_unfold, Herr. cbn. by rewrite with_cache_cache. }
  rewrite (bind_val _ _ _ _ _ Hset).
  rewrite (bind_val _ _ _ _ _ (index_val cmds n _ p Hcmd)).
  rewrite decide_False by done.
  assert (IsBulkBytes m = false) as Hbulk.
  { unfold IsBulkBytes, IsError in *. apply Ascii.eqb_eq in Herr. by rewrite Herr. }
  rewrite Hbulk.
  assert ((if decide (cmd = "CLUSTER NODES") then ret tt else ret tt) p = (Val tt, p)) as Hn
    by by destruct (decide _).
  rewrite (bind_val _ _ _ _ _ Hn), Herr. cbn zeta. rewrite Hpre.
  by rewrite (proj2 (Nat.ltb_lt _ _) Hshort).
Qed.

Lemma consultCache_keys cmds mm p :
  match (consultCache cmds mm p).1 with
  | Val (Some keys, _) => keys = Keys <$> mm
  | _ => True
  end.
Proof.
  unfold consultCache. rewrite (bind_val get _ p p p eq_refl).
  destruct (cachePrefixes p) as [prefixes|]; [|done].
  unfold fetchFromCache, bind.
  pose proof (fetchKeys_outcome cmds mm 0 p) as Hkeys.
  destruct (fetchKeys cmds 0 mm p) as [[[keys|]|] p0]; cbn in Hkeys |- *; [|done|done].
  destruct Hkeys as [-> _].
  by destruct (fetchCached cmds 0 (Keys <$> mm) p0) as [[[out|]|] p1].
Qed.

(** A call whose batch went upstream, with the replies it got and with
    other replies: both are the loop over the replies, from the same state
    and with the same keys. *)
Lemma interceptMessages_went_upstream cmds mm rt rt0 p reply reply0 :
  rt mm = (reply, None) -> rt0 mm = (reply0, None) ->
  roundTrips (interceptMessages cmds mm rt0 p).2 = roundTrips p ++ [mm] ->
  exists ck p2,
    (forall keys, ck = Some keys -> keys = Keys <$> mm)
    /\ interceptMessages cmds mm rt p
       = (let r := observe ck cmds 0 reply p2 in
          (match r.1 with Val e => Val (reply, e) | Panicked => Panicked end, r.2))
    /\ interceptMessages cmds mm rt0 p
       = (let r := observe ck cmds 0 reply0 p2 in
          (match r.1 with Val e => Val (reply0, e) | Panicked => Panicked end, r.2)).
Proof.
  intros Hrt Hrt0 Hwent.
  assert (forall l, roundTrips (with_cache (after_reads l (cache p)) p)
                    <> roundTrips p ++ [mm]) as Hnot.
  { intros l Heq. apply (f_equal length) in Heq. rewrite length_app in Heq. cbn in Heq. lia. }
  destruct (consultCache_reads_only cmds mm p) as [l Hl].
  pose proof (consultCache_keys cmds mm p) as Hkeys.
  destruct (consultCache cmds mm p) as [[[ck [out|]]|] p1] eqn:Hc; cbn in Hl, Hkeys; subst p1.
  - exfalso. revert Hwent. unfold interceptMessages, bind. rewrite Hc. exact (Hnot l).
  - exists ck, (with_roundTrips (fun t => t ++ [mm]) (with_cache (after_reads l (cache p)) p)).
    split; [by intros keys ->|].
    rewrite (interceptMessages_forward _ _ rt _ _ _ Hc), Hrt.
    by rewrite (interceptMessages_forward _ _ rt0 _ _ _ Hc), Hrt0.
  - exfalso. revert Hwent. unfold interceptMessages, bind. rewrite Hc. exact (Hnot l).
Qed.

(** X13.  A redirection with less than three words ends the loop over the
    replies, wherever it stands and with or without cache prefixes.  In a
    batch that went upstream, with a command for every message, when no reply
    before it ends the loop, the call does what the replies before it alone
    make it do and then logs the failure: it returns all the replies with no
    error, and registers no upstream and writes no entry of the cache for the
    redirection or for the replies that follow.  When the replies before it
    make the call panic, it panics in the same state. *)
Theorem short_redirect_ends_observation p cmds mm rt pre m rest cmd :
  length cmds = length mm ->
  rt mm = (pre ++ m :: rest, None) ->
  (forall j mj, pre !! j = Some mj ->
     cmds !! j <> Some "CLUSTER SLOTS"
     /\ (isRedirect mj = true -> 3 <= length (Split (Value mj) " "))) ->
  cmds !! length pre = Some cmd -> cmd <> "CLUSTER SLOTS" ->
  isRedirect m = true ->
  length (Split (Value m) " ") < 3 ->
  let r := interceptMessages cmds mm rt p in
  let r0 := interceptMessages cmds mm (fun _ => (pre, None)) p in
  roundTrips r0.2 = roundTrips p ++ [mm] ->
  match r0.1 with
  | Val _ =>
      r.1 = Val (pre ++ m :: rest, None)
      /\ r.2 = with_log (fun l => l ++ ["failed to parse MOVED error"]) r0.2
  | Panicked => r.1 = Panicked /\ r.2 = r0.2
  end.
Proof.
  intros Hlen Hrt Hpass Hcmd Hslots Hred Hshort. cbn zeta. intros Hwent.
  destruct (interceptMessages_went_upstream cmds mm rt (fun _ => (pre, None)) p
              (pre ++ m :: rest) pre Hrt eq_refl Hwent) as (ck & p2 & Hkeys & -> & ->).
  cbn zeta. rewrite (observe_app ck cmds pre (m :: rest) 0 p2 Hpass). cbn [Nat.add].
  destruct (observe ck cmds 0 pre p2) as [[e|] p3]; cbn [fst snd]; [|done].
  rewrite (observe_short_redirect ck cmds (length pre) m rest cmd p3 Hcmd Hslots Hred Hshort);
    [done|].
  intros keys ->%Hkeys. rewrite list_lookup_fmap. apply fmap_is_Some, lookup_lt_is_Some.
  rewrite <- Hlen. by eapply lookup_lt_Some.
Qed.

Section Quiet.
Context {X : Type} (f : Proxy -> X).
Hypothesis f_cache : forall c p, f (with_cache c p) = f p.

Lemma observe_quiet ck cmds mm :
  (forall cmd, cmd ∈ cmds -> cmd <> "CLUSTER SLOTS" /\ cmd <> "CLUSTER NODES") ->
  Forall (fun m => IsError m = false) mm ->
  forall i, preserves f (observe ck cmds i mm).
Proof.
  intros Hcmds. induction 1 as [|m rest Herr _ IH]; intros i; cbn [observe]; [done|].
  apply preserves_bind.
  { destruct ck as [keys|]; [|done].
    apply preserves_bind; [apply preserves_index|]. intros ks p.
    unfold on_cache, zoom. destruct (Cache_Set ks m (cache p)). apply f_cache. }
  intros _. apply preserves_bind_index. intros cmd Hcmd.
  destruct (Hcmds cmd) as [Hslots Hnodes]; [by eapply list_elem_of_lookup_2|].
  rewrite decide_False by done. rewrite decide_False by done.
  apply preserves_bind; [done|]. intros _. rewrite Herr. apply IH.
Qed.

End Quiet.

(** X14.  Only errors redirect.  In a batch without CLUSTER SLOTS and
    CLUSTER NODES, replies that are no errors register no upstream, make no
    pool and start no listener, whatever their payload, and whatever the
    outcome. *)
Theorem plain_replies_register_nothing p cmds mm rt :
  (forall cmd, cmd ∈ cmds -> cmd <> "CLUSTER SLOTS" /\ cmd <> "CLUSTER NODES") ->
  Forall (fun m => IsError m = false) (rt mm).1 ->
  let r := interceptMessages cmds mm rt p in
  listeners r.2 = listeners p
  /\ servers r.2 = servers p
  /\ runningListeners r.2 = runningListeners p.
Proof.
  intros Hcmds Hplain. cbn zeta. unfold interceptMessages, bind.
  destruct (consultCache_reads_only cmds mm p) as [l Hl].
  destruct (consultCache cmds mm p) as [[[ck [out|]]|] p1]; cbn in Hl; subst p1; cbn;
    [done| |done].
  unfold modify. destruct (rt mm) as [mm' [e|]]; cbn in Hplain |- *; [done|].
  pose proof (observe_quiet listeners (fun _ _ => eq_refl)
                ck cmds mm' Hcmds Hplain 0) as Hl.
  pose proof (observe_quiet servers (fun _ _ => eq_refl)
                ck cmds mm' Hcmds Hplain 0) as Hs.
  pose proof (observe_quiet runningListeners (fun _ _ => eq_refl)
                ck cmds mm' Hcmds Hplain 0) as Hr.
  set (p2 := with_roundTrips _ _) in *.
  specialize (Hl p2). specialize (Hs p2). specialize (Hr p2).
  by destruct (observe ck cmds 0 mm' p2) as [[e|] p3].
Qed.

Lemma ensureAll_registers addrs cmd : forall p,
  (ensureAll addrs cmd p).1 = Val tt
  /\ (forall a, is_Some (listeners p !! a) -> is_Some (listeners (ensureAll addrs cmd p).2 !! a))
  /\ (forall a, a ∈ addrs -> is_Some (listeners (ensureAll addrs cmd p).2 !! a)).
Proof.
  induction addrs as [|a rest IH]; intros p; cbn [ensureAll].
  { split; [done|]. split; [done|]. intros a Hin. by apply elem_of_nil in Hin. }
  unfold bind.
  pose proof (ensureListenerForUpstream_returns a cmd p) as Hret.
  pose proof (fun b => ensureListenerForUpstream_keeps a cmd b p) as Hkeep.
  destruct (ensureListenerForUpstream_registers a cmd p) as [Hreg _].
  destruct (ensureListenerForUpstream a cmd p) as [r p1]. cbn in Hret, Hkeep, Hreg. subst r.
  destruct (IH p1) as (Hr & Hk & Hin). split; [done|]. split.
  - intros b Hb. by apply Hk, Hkeep.
  - intros b [-> | Hb]%elem_of_cons; [by apply Hk | by apply Hin].
Qed.

Lemma observe_cluster_slots cmds i m rest p :
  cmds !! i = Some "CLUSTER SLOTS" ->
  observe None cmds i (m :: rest) p
  = match EncodeToBytes m with
    | (_, Some err) =>
        bind (log_line "failed to encode cluster slots message") (fun _ => ret (Some err)) p
    | (b, None) =>
        match UnmarshalClusterTopo b with
        | inr err =>
            bind (log_line "failed to unmarshal cluster slots message")
              (fun _ => ret (Some err)) p
        | inl slots => bind (ensureAll slots "CLUSTER SLOTS") (fun _ => ret None) p
        end
    end.
Proof.
  intros Hcmd. cbn [observe]. unfold bind at 1. unfold ret at 1.
  rewrite (bind_val _ _ _ _ _ (index_val cmds i _ p Hcmd)).
  rewrite decide_True by done.
  destruct (EncodeToBytes m) as [b [e|]]; [done|]. by destruct (UnmarshalClusterTopo b).
Qed.

Lemma cluster_slots_not_cacheable cmds mm p :
  length cmds = length mm -> cmds !! 0 = Some "CLUSTER SLOTS" ->
  consultCache cmds mm p = (Val (None, None), p).
Proof.
  intros Hlen Hcmd. apply consultCache_not_cacheable; [done|]. by exists 0, "CLUSTER SLOTS".
Qed.

(** X15.  After the reply to CLUSTER SLOTS, every address that the parser
    finds in it is registered, and the replies are returned with no error. *)
Theorem cluster_slots_registers_nodes p cmds mm rt m rest b slots :
  length cmds = length mm ->
  cmds !! 0 = Some "CLUSTER SLOTS" ->
  rt mm = (m :: rest, None) ->
  EncodeToBytes m = (b, None) ->
  UnmarshalClusterTopo b = inl slots ->
  let r := interceptMessages cmds mm rt p in
  r.1 = Val (m :: rest, None)
  /\ forall a, a ∈ slots -> is_Some (listeners r.2 !! a).
Proof.
  intros Hlen Hcmd Hrt Henc Hun. cbn zeta.
  rewrite (interceptMessages_observes _ _ _ _ _
             (cluster_slots_not_cacheable cmds mm p Hlen Hcmd) Hrt).
  rewrite (observe_cluster_slots _ _ _ _ _ Hcmd), Henc, Hun. unfold bind.
  destruct (ensureAll_registers slots "CLUSTER SLOTS"
              (with_roundTrips (fun t => t ++ [mm]) p)) as (Hret & _ & Hin).
  destruct (ensureAll slots _ _) as [r0 p3]. cbn in Hret, Hin. subst r0. by cbn.
Qed.

(** X16.  A reply to CLUSTER SLOTS that cannot be encoded, or that the
    parser refuses, becomes the error of the whole batch, wherever it stands.
    In a batch with a command for every message, when no reply before it ends
    the loop, the call does what the replies before it alone make it do and
    then logs the failure: it returns all the replies with that error, and
    registers no upstream for this reply or for the replies that follow.
    When the replies before it make the call panic, it panics in the same
    state. *)
Theorem cluster_slots_failure_is_returned p cmds mm rt pre m rest b e :
  length cmds = length mm ->
  rt mm = (pre ++ m :: rest, None) ->
  (forall j mj, pre !! j = Some mj ->
     cmds !! j <> Some "CLUSTER SLOTS"
     /\ (isRedirect mj = true -> 3 <= length (Split (Value mj) " "))) ->
  cmds !! length pre = Some "CLUSTER SLOTS" ->
  EncodeToBytes m = (b, Some e)
  \/ (EncodeToBytes m = (b, None) /\ UnmarshalClusterTopo b = inr e) ->
  let line := if (EncodeToBytes m).2 is Some _
              then "failed to encode cluster slots message"
              else "failed to unmarshal cluster slots message" in
  let r := interceptMessages cmds mm rt p in
  let r0 := interceptMessages cmds mm (fun _ => (pre, None)) p in
  match r0.1 with
  | Val _ =>
      r.1 = Val (pre ++ m :: rest, Some e)
      /\ r.2 = with_log (fun l => l ++ [line]) r0.2
  | Panicked => r.1 = Panicked /\ r.2 = r0.2
  end.
Proof.
  intros Hlen Hrt Hpass Hcmd Hfail. cbn zeta.
  assert (consultCache cmds mm p = (Val (None, None), p)) as Hc.
  { apply consultCache_not_cacheable; [done|]. by exists (length pre), "CLUSTER SLOTS". }
  rewrite (interceptMessages_observes _ _ rt _ _ Hc Hrt).
  rewrite (interceptMessages_observes _ _ (fun _ => (pre, None)) _ pre Hc eq_refl).
  cbn zeta. set (p2 := with_roundTrips _ p).
  rewrite (observe_app None cmds pre (m :: rest) 0 p2 Hpass). cbn [Nat.add].
  destruct (observe None cmds 0 pre p2) as [[e0|] p3]; cbn [fst snd]; [|done].
  rewrite (observe_cluster_slots _ _ _ _ _ Hcmd).
  by destruct Hfail as [-> | [-> ->]].
Qed.

Lemma clusterNodesLines_registers cmd lines : forall p,
  Forall (fun line => line = EmptyString \/ exists addr, nodeLine line addr) lines ->
  (clusterNodesLines lines cmd p).1 = Val tt
  /\ (forall a, is_Some (listeners p !! a) ->
                is_Some (listeners (clusterNodesLines lines cmd p).2 !! a))
  /\ (forall line addr, line ∈ lines -> nodeLine line addr ->
                        is_Some (listeners (clusterNodesLines lines cmd p).2 !! addr)).
Proof.
  induction lines as [|line rest IH]; intros p Hlines; cbn [clusterNodesLines].
  { split; [done|]. split; [done|]. intros line addr Hin. by apply elem_of_nil in Hin. }
  apply Forall_cons in Hlines as [Hline Hrest].
  assert (exists p1,
             (if ((IndexByte line " " >? 0) && (IndexByte line "@" >? 0))%Z then
                bind (slice line (IndexByte line " " + 1) (IndexByte line "@"))
                  (fun hostPort => ensureListenerForUpstream hostPort cmd)
              else ret tt) p = (Val tt, p1)
             /\ (forall a, is_Some (listeners p !! a) -> is_Some (listeners p1 !! a))
             /\ (forall addr, nodeLine line addr -> is_Some (listeners p1 !! addr)))
    as (p1 & Hstep & Hkeep1 & Hreg1).
  { destruct Hline as [-> | [addr Haddr]].
    - exists p. cbn. split; [done|]. split; [done|].
      intros addr (id & rest' & Heq & Hid & _). by destruct id.
    - destruct (nodeLine_slice line addr p Haddr) as [Hpos Hslice].
      rewrite Hpos, (bind_val _ _ _ _ _ Hslice).
      pose proof (ensureListenerForUpstream_returns addr cmd p) as Hret.
      pose proof (fun b => ensureListenerForUpstream_keeps addr cmd b p) as Hkeep.
      destruct (ensureListenerForUpstream_registers addr cmd p) as [Hreg _].
      destruct (ensureListenerForUpstream addr cmd p) as [r0 p1].
      cbn in Hret, Hkeep, Hreg. subst r0. exists p1. split; [done|]. split; [done|].
      intros addr' Haddr'. destruct (nodeLine_slice line addr' p Haddr') as [_ Hslice'].
      rewrite Hslice in Hslice'. by injection Hslice' as <-. }
  rewrite (bind_val _ _ _ _ _ Hstep). destruct (IH p1 Hrest) as (Hret & Hkeep & Hreg).
  split; [done|]. split; [by auto|].
  intros line' addr [-> | Hin]%elem_of_cons Haddr; [by apply Hkeep, Hreg1 | by eapply Hreg].
Qed.

Lemma cluster_nodes_not_cacheable cmds mm p :
  length cmds = length mm -> cmds !! 0 = Some "CLUSTER NODES" ->
  consultCache cmds mm p = (Val (None, None), p).
Proof.
  intros Hlen Hcmd. apply consultCache_not_cacheable; [done|]. by exists 0, "CLUSTER NODES".
Qed.

(** X17.  The reply to CLUSTER NODES is read line by line: when it is a
    bulk string whose lines are empty or node lines, the address of every node
    line is registered and the reply is returned as it came, with no error. *)
Theorem cluster_nodes_registers_nodes p cmds mm rt m :
  length cmds = length mm ->
  cmds !! 0 = Some "CLUSTER NODES" ->
  rt mm = ([m], None) ->
  IsBulkBytes m = true ->
  Forall (fun line => line = EmptyString \/ exists addr, nodeLine line addr)
         (Split (Value m) "010") ->
  let r := interceptMessages cmds mm rt p in
  r.1 = Val ([m], None)
  /\ forall line addr, line ∈ Split (Value m) "010" -> nodeLine line addr ->
       is_Some (listeners r.2 !! addr).
Proof.
  intros Hlen Hcmd Hrt Hbulk Hlines. cbn zeta.
  rewrite (interceptMessages_observes _ _ _ _ _
             (cluster_nodes_not_cacheable cmds mm p Hlen Hcmd) Hrt).
  set (p2 := with_roundTrips _ p).
  assert (IsError m = false) as Herr.
  { unfold IsBulkBytes, IsError in *. apply Ascii.eqb_eq in Hbulk. by rewrite Hbulk. }
  assert (observe None cmds 0 [m] p2
          = bind (clusterNodesLines (Split (Value m) "010") "CLUSTER NODES")
              (fun _ => ret None) p2) as ->.
  { cbn [observe]. unfold bind at 1. unfold ret at 1.
    rewrite (bind_val _ _ _ _ _ (index_val cmds 0 _ p2 Hcmd)).
    rewrite decide_False by done. rewrite decide_True by done.
    by rewrite Hbulk, Herr. }
  unfold bind.
  destruct (clusterNodesLines_registers "CLUSTER NODES" _ p2 Hlines) as (Hret & _ & Hreg).
  destruct (clusterNodesLines _ _ p2) as [r0 p3]. cbn in Hret, Hreg. subst r0. by cbn.
Qed.

(** X18.  A line of the reply to CLUSTER NODES whose first [@] stands
    after the start and not after its first space makes the interceptor
    panic, on the slice from behind the space to the [@]; the round trip has
    been made. *)
Theorem cluster_nodes_line_panics p cmds mm rt m rest line lines :
  length cmds = length mm ->
  cmds !! 0 = Some "CLUSTER NODES" ->
  rt mm = (m :: rest, None) ->
  IsBulkBytes m = true ->
  Split (Value m) "010" = line :: lines ->
  (0 < IndexByte line "@" <= IndexByte line " ")%Z ->
  let r := interceptMessages cmds mm rt p in
  r.1 = Panicked /\ roundTrips r.2 = roundTrips p ++ [mm].
Proof.
  intros Hlen Hcmd Hrt Hbulk Hsplit Hat. cbn zeta.
  rewrite (interceptMessages_observes _ _ _ _ _
             (cluster_nodes_not_cacheable cmds mm p Hlen Hcmd) Hrt).
  set (p2 := with_roundTrips _ p).
  assert (observe None cmds 0 (m :: rest) p2 = (Panicked, p2)) as ->; [|done].
  cbn [observe]. unfold bind at 1. unfold ret at 1.
  rewrite (bind_val _ _ _ _ _ (index_val cmds 0 _ p2 Hcmd)).
  rewrite decide_False by done. rewrite decide_True by done.
  rewrite Hbulk, Hsplit. cbn [clusterNodesLines].
  assert (((IndexByte line " " >? 0) && (IndexByte line "@" >? 0))%Z = true) as ->.
  { apply andb_true_intro. split; apply Z.gtb_lt; lia. }
  unfold slice.
  assert (((0 <=? IndexByte line " " + 1) && (IndexByte line " " + 1 <=? IndexByte line "@")
           && (IndexByte line "@" <=? Z.of_nat (String.length line)))%Z = false) as ->.
  { apply andb_false_iff. left. apply andb_false_iff. right. apply Z.leb_gt. lia. }
  reflexivity.
Qed.

End Discovery.

(** * Further properties of the dialer and of the socket path *)

Section Dialer.
Context `{Redis} `{Services}.

(** X19.  A pooled connection gets no invalidator when the dial fails,
    when the SELECT of the database cannot be written, or when the proxy has
    no cache prefixes (the reply to SELECT being read): the dialer returns,
    with the error of the dial or of the write if there is one, and neither
    replaces the invalidator of the upstream nor starts one. *)
Theorem dialer_without_invalidator upstream io p :
  io_dial io <> None
  \/ ((database p > -1)%Z /\ io_select_write io <> None)
  \/ (cachePrefixes p = None /\ io_select_read io = None) ->
  let r := dialer upstream io p in
  (exists e, r.1 = Val e
             /\ (e = None <-> io_dial io = None
                              /\ ((database p > -1)%Z -> io_select_write io = None)))
  /\ invalidators r.2 = invalidators p
  /\ runningInvalidators r.2 = runningInvalidators p.
Proof.
  intros Hno. cbn zeta. unfold dialer.
  destruct (io_dial io) as [e|] eqn:Hdial.
  { cbn. split; [|done]. exists (Some e). split; [done|]. split; [done|]. by intros [? _]. }
  go. destruct (database p >? -1)%Z eqn:Hdb.
  - apply Z.gtb_lt in Hdb.
    destruct (io_select_write io) as [e|] eqn:Hw.
    { cbn. split; [|done]. exists (Some e). split; [done|]. split; [done|].
      intros [_ Hs]. by discriminate Hs; lia. }
    destruct Hno as [?|[[_ ?]|[Hpre Hr]]]; [done|done|].
    rewrite Hr. cbn. rewrite Hpre. cbn. split; [|done]. by exists None.
  - rewrite Z.gtb_ltb in Hdb. apply Z.ltb_ge in Hdb. cbn.
    destruct Hno as [?|[[? _]|[Hpre Hr]]]; [done|lia|].
    rewrite Hpre. cbn. split; [|done]. exists None. split; [done|]. split; [|done].
    intros _. split; [done|]. intros ?. lia.
Qed.

End Dialer.

Section SocketPathForm.

Lemma NoColon_append a b : NoColon a -> NoColon b -> NoColon (a +:+ b).
Proof.
  unfold NoColon. intros Ha Hb. by rewrite (IndexByte_append_absent _ _ _ Ha), Hb.
Qed.

Lemma ReplaceByte_NoColon s : NoColon (ReplaceByte s ":" "-").
Proof.
  unfold NoColon. induction s as [|a s IH]; [done|]. cbn [ReplaceByte IndexByte].
  rewrite IH. by destruct (Ascii.eqb a ":") eqn:Ha; [|rewrite Ha].
Qed.

Lemma ReplaceByte_length s old new :
  String.length (ReplaceByte s old new) = String.length s.
Proof. induction s as [|a s IH]; [done|]. cbn. by rewrite IH. Qed.

(** X20.  Whatever the upstream address, the local path is the prefix, a
    part without any colon that is at least as long as the address, and the
    suffix: every colon of the address is replaced, and a database index adds
    none. *)
Theorem localSocketPath_has_no_colon upstream database prefix suffix :
  exists mid,
    localSocketPathFromUpstream upstream database prefix suffix = prefix +:+ mid +:+ suffix
    /\ NoColon mid
    /\ String.length upstream <= String.length mid
    /\ ((database <= -1)%Z -> String.length mid = String.length upstream).
Proof.
  unfold localSocketPathFromUpstream. destruct (database >? -1)%Z eqn:Hdb.
  - apply Z.gtb_lt in Hdb.
    exists (ReplaceByte upstream ":" "-" +:+ "-" +:+ Itoa database).
    split; [by rewrite !append_assoc|]. split.
    + apply NoColon_append; [apply ReplaceByte_NoColon|]. apply (NoColon_append "-"); [reflexivity|].
      rewrite <- (Z2N.id database) by lia. apply Itoa_NoColon.
    + rewrite length_append, ReplaceByte_length. split; [lia|]. intros ?. lia.
  - exists (ReplaceByte upstream ":" "-"). split; [by rewrite append_assoc|].
    split; [apply ReplaceByte_NoColon|].
    rewrite ReplaceByte_length. split; [lia | done].
Qed.

End SocketPathForm.

(** * Start and stop of the proxy *)

Section Lifecycle.
Context `{Redis} `{Services} `{Stoppers}.

Lemma Running_eta s :
  mkRunning (proxy s) (quit s) (kill s) (listenerLock s) (stops s) = s.
Proof. by destruct s. Qed.

Lemma forL_shutdownListener_calm ls :
  (forall h l, Listener_Shutdown h l = true) ->
  forall s,
    forL ls shutdownListener s
    = (Returns tt, mkRunning (proxy s) (quit s) (kill s) (listenerLock s)
                     (stops s ++ (ListenerShutdown <$> ls))).
Proof.
  intros Hok. induction ls as [|l ls IH]; intros s; cbn [forL fmap list_fmap].
  { unfold retL. by rewrite app_nil_r, Running_eta. }
  unfold bindL, shutdownListener. rewrite Hok, IH. cbn. by rewrite <- app_assoc.
Qed.

Lemma forL_killListener_calm ls :
  (forall h l, Listener_Kill h l = true) ->
  forall s,
    forL ls killListener s
    = (Returns tt, mkRunning (proxy s) (quit s) (kill s) (listenerLock s)
                     (stops s ++ (ListenerKill <$> ls))).
Proof.
  intros Hok. induction ls as [|l ls IH]; intros s; cbn [forL fmap list_fmap].
  { unfold retL. by rewrite app_nil_r, Running_eta. }
  unfold bindL, killListener. rewrite Hok, IH. cbn. by rewrite <- app_assoc.
Qed.

Lemma forL_shutdownInvalidator_calm ivs :
  (forall h i, Invalidator_Shutdown h i <> None) ->
  forall s, exists p',
    forL ivs shutdownInvalidator s
    = (Returns tt, mkRunning p' (quit s) (kill s) (listenerLock s)
                     (stops s ++ (InvalidatorShutdown <$> ivs)))
    /\ listeners p' = listeners (proxy s)
    /\ invalidators p' = invalidators (proxy s).
Proof.
  intros Hok. induction ivs as [|i ivs IH]; intros s; cbn [forL fmap list_fmap].
  { exists (proxy s). unfold retL. by rewrite app_nil_r, Running_eta. }
  unfold bindL, shutdownInvalidator.
  pose proof (Hok (stops s) i) as Hi.
  destruct (Invalidator_Shutdown (stops s) i) as [[e|]|]; [| |done].
  - cbn. edestruct IH as (p' & -> & Hl & Hi'). exists p'. cbn in *.
    by rewrite <- app_assoc.
  - edestruct IH as (p' & -> & Hl & Hi'). exists p'. cbn in *.
    by rewrite <- app_assoc.
Qed.

(** A loop whose body never blocks does not block. *)
Lemma forL_never_blocks {A} (body : A -> L unit) ls :
  (forall x s, (body x s).1 <> Blocks) -> forall s, (forL ls body s).1 <> Blocks.
Proof.
  intros Hbody. induction ls as [|x ls IH]; intros s; cbn [forL]; [done|].
  unfold bindL. pose proof (Hbody x s) as Hx.
  destruct (body x s) as [[[]| |] s']; [apply IH | done | done].
Qed.

Lemma shutdownListener_never_blocks l s : (shutdownListener l s).1 <> Blocks.
Proof. unfold shutdownListener. cbn. by destruct (Listener_Shutdown _ _). Qed.

Lemma killListener_never_blocks l s : (killListener l s).1 <> Blocks.
Proof. unfold killListener. cbn. by destruct (Listener_Kill _ _). Qed.

Lemma shutdownInvalidator_never_blocks i s : (shutdownInvalidator i s).1 <> Blocks.
Proof.
  unfold shutdownInvalidator. by destruct (Invalidator_Shutdown _ _) as [[e|]|].
Qed.

(** X21.  [Shutdown] never panics, whatever the listeners and the
    invalidators do when they are stopped and however often it is called: it
    returns, unless the lock of the listeners is held, on which it blocks. *)
Theorem Shutdown_returns_unless_locked s :
  (Shutdown s).1 = if listenerLock s then Blocks else Returns tt.
Proof.
  unfold Shutdown, recovered, bindL, Lock.
  destruct (listenerLock s); [done|].
  set (s1 := mkRunning _ _ _ true _).
  pose proof (forL_never_blocks shutdownListener (ranged (listeners (proxy s1)))
                shutdownListener_never_blocks s1) as Hl.
  destruct (forL _ shutdownListener s1) as [[[]| |] s2]; [|done|done].
  unfold Unlock. set (s3 := mkRunning _ _ _ false _).
  pose proof (forL_never_blocks shutdownInvalidator (ranged (invalidators (proxy s3)))
                shutdownInvalidator_never_blocks s3) as Hi.
  destruct (forL _ shutdownInvalidator s3) as [[[]| |] s4]; [|done|done].
  unfold close_quit. by destruct (quit s4).
Qed.

(** X22.  With the lock free and listeners and invalidators that stop
    without a panic, [Shutdown] returns with the channel [quit] closed, also
    when it was closed already; the lock is free again, the map of the
    listeners is as it was, and every listener of the map, then every
    invalidator, has been told to shut down, once per call. *)
Theorem Shutdown_closes_quit s :
  listenerLock s = false ->
  (forall h l, Listener_Shutdown h l = true) ->
  (forall h i, Invalidator_Shutdown h i <> None) ->
  let r := Shutdown s in
  r.1 = Returns tt
  /\ quit r.2 = true /\ kill r.2 = kill s /\ listenerLock r.2 = false
  /\ listeners (proxy r.2) = listeners (proxy s)
  /\ stops r.2 = stops s ++ (ListenerShutdown <$> ranged (listeners (proxy s)))
                         ++ (InvalidatorShutdown <$> ranged (invalidators (proxy s))).
Proof.
  intros Hfree Hl Hi. cbn zeta. unfold Shutdown, recovered, bindL, Lock. rewrite Hfree.
  rewrite (forL_shutdownListener_calm _ Hl). cbn [proxy quit kill listenerLock stops].
  unfold Unlock. cbn [proxy quit kill listenerLock stops].
  edestruct (forL_shutdownInvalidator_calm (ranged (invalidators (proxy s))) Hi)
    as (p' & -> & Hls & Hivs).
  cbn [proxy quit kill listenerLock stops] in *.
  unfold close_quit. cbn [proxy quit kill listenerLock stops].
  destruct (quit s) eqn:Hq; cbn; by rewrite <- app_assoc.
Qed.

(** X24.  With the lock free and listeners and invalidators that stop
    without a panic, [Kill] returns with both channels closed and the lock
    free, also when it or [Shutdown] was called before, and every listener of
    the map has been told to shut down and then to end. *)
Theorem Kill_closes_both s :
  listenerLock s = false ->
  (forall h l, Listener_Shutdown h l = true) ->
  (forall h l, Listener_Kill h l = true) ->
  (forall h i, Invalidator_Shutdown h i <> None) ->
  let r := Kill s in
  r.1 = Returns tt
  /\ quit r.2 = true /\ kill r.2 = true /\ listenerLock r.2 = false
  /\ listeners (proxy r.2) = listeners (proxy s)
  /\ stops r.2 = stops s ++ (ListenerShutdown <$> ranged (listeners (proxy s)))
                         ++ (InvalidatorShutdown <$> ranged (invalidators (proxy s)))
                         ++ (ListenerKill <$> ranged (listeners (proxy s))).
Proof.
  intros Hfree Hl Hk Hi. cbn zeta. unfold Kill. unfold bindL at 1.
  unfold Shutdown, recovered, bindL, Lock. rewrite Hfree.
  rewrite (forL_shutdownListener_calm _ Hl). cbn [proxy quit kill listenerLock stops].
  unfold Unlock. cbn [proxy quit kill listenerLock stops].
  edestruct (forL_shutdownInvalidator_calm (ranged (invalidators (proxy s))) Hi)
    as (p' & -> & Hls & Hivs).
  cbn [proxy quit kill listenerLock stops] in *.
  unfold close_quit. cbn [proxy quit kill listenerLock stops].
  destruct (quit s) eqn:Hq; cbn [proxy quit kill listenerLock stops];
    rewrite (forL_killListener_calm _ Hk); cbn [proxy quit kill listenerLock stops];
    unfold close_kill; cbn [proxy quit kill listenerLock stops];
    destruct (kill s) eqn:Hkill; cbn; rewrite Hls, <- !app_assoc; done.
Qed.

End Lifecycle.

Section Start.
Context `{Redis} `{Services} `{Stoppers}.

Lemma forL_runListener ls : forall s,
  forL ls (fun l => on_proxy (runListener l)) s
  = (Returns tt,
     mkRunning (with_runningListeners (fun r => r ++ ls) (proxy s))
       (quit s) (kill s) (listenerLock s) (stops s)).
Proof.
  induction ls as [|l ls IH]; intros s; cbn [forL].
  { destruct s as [[] ? ? ? ?]. unfold retL, with_runningListeners. cbn.
    by rewrite app_nil_r. }
  unfold bindL. unfold on_proxy at 1. unfold runListener at 1. unfold modify.
  rewrite IH. cbn. unfold with_runningListeners. cbn. by rewrite <- app_assoc.
Qed.

(** X25.  When the listener of the configured upstream cannot be made
    (the statsd client, the pool or the listener fails), [run] returns that
    error: no listener is registered or started and the lock is not taken, so
    this holds also while the lock is held. *)
Theorem run_returns_creation_error s e :
  let upstream := upstreamConfigHost (proxy s) in
  let local := localConfigHost (proxy s) in
  StatsdWithTags upstream local = Some e
  \/ (StatsdWithTags upstream local = None /\ ConnectServer upstream = Some e)
  \/ (StatsdWithTags upstream local = None /\ ConnectServer upstream = None
      /\ listener_New local = Some e) ->
  let r := run s in
  r.1 = Returns (Some e, false)
  /\ listeners (proxy r.2) = listeners (proxy s)
  /\ runningListeners (proxy r.2) = runningListeners (proxy s)
  /\ listenerLock r.2 = listenerLock s.
Proof.
  cbn zeta. intros Hfail. unfold run, run_body, bindL, on_proxy, createListener.
  destruct Hfail as [-> | [[-> ->] | (-> & -> & Hl)]]; [done|done|].
  go. by rewrite Hl.
Qed.

(** X26.  When the listener of the configured upstream is made and the
    lock is free, [run] returns nil: the listener is the entry of the upstream
    in the map, every listener of the map has been started, so also those that
    were registered and started before, and the lock is free again. *)
Theorem run_starts_every_listener s :
  let upstream := upstreamConfigHost (proxy s) in
  let local := localConfigHost (proxy s) in
  listenerLock s = false ->
  StatsdWithTags upstream local = None ->
  ConnectServer upstream = None ->
  listener_New local = None ->
  let r := run s in
  r.1 = Returns (None, false)
  /\ listeners (proxy r.2) = <[upstream := Some (mkListener local upstream)]> (listeners (proxy s))
  /\ runningListeners (proxy r.2)
     = runningListeners (proxy s) ++ ranged (listeners (proxy r.2))
  /\ servers (proxy r.2) = servers (proxy s) ++ [upstream]
  /\ listenerLock r.2 = false.
Proof.
  cbn zeta. intros Hfree Hsd Hcs Hln.
  set (upstream := upstreamConfigHost (proxy s)) in *.
  set (l := Some (mkListener (localConfigHost (proxy s)) upstream)).
  assert (run_body s
          = (Returns None,
             mkRunning
               (with_runningListeners
                  (fun r => r ++ ranged (<[upstream := l]> (listeners (proxy s))))
                  (with_listeners (fun m => <[upstream := l]> m)
                     (with_servers (fun x => x ++ [upstream]) (proxy s))))
               (quit s) (kill s) false (stops s))) as Hbody.
  { unfold run_body, bindL, on_proxy, createListener. fold upstream.
    rewrite Hsd, Hcs. go. rewrite Hln. cbn. unfold Lock. rewrite Hfree. cbn.
    rewrite forL_runListener. done. }
  unfold run. rewrite Hbody. done.
Qed.

End Start.

(** * The further properties on examples *)

Section FurtherExamples.
Import Resp Halt.
#[local] Existing Instance codec.
#[local] Existing Instance up.
#[local] Existing Instance calm.

(** X1 on an example: the reply to GET foo is set and read back. *)
Lemma Set_then_Get_example :
  (Cache_Get "foo" (Cache_Set ["foo"] (bulk "bar") cold).2).1 = Val (Some (bulk "bar")).
Proof.
  destruct (Set_then_Get "foo" [] (bulk "bar") cold) as (_ & Hget & _);
    [reflexivity.. | exact Hget].
Defined.

(** X2 on an example: the reply to MGET a b c, with an error for b. *)
Lemma Set_array_positional_example :
  let m := NewArray [bulk "1"; err "MOVED 1 10.0.0.2:6379"; bulk "3"] in
  let c' := (Cache_Set ["a"; "b"; "c"] m warmA).2 in
  cached c' "c" = Some (bulk "3").
Proof.
  intros m c'.
  destruct (Set_array_positional ["a"; "b"; "c"] m warmA) as (_ & Hpos & _).
  - reflexivity.
  - reflexivity.
  - apply (bool_decide_unpack _). by vm_compute.
  - cbn. lia.
  - repeat constructor.
  - intros [|[|[|i]]] k e Hk He Herr; cbn in Hk, He; simplify_eq; by vm_compute.
  - apply (Hpos 2 "c" (bulk "3")); reflexivity.
Defined.

(** X5 on an example: the smallest store, whose entries hold 488 bytes
    at most, and a value of 500 bytes. *)
Lemma Set_refused_example :
  let small := NewCache 0 360 in
  fc_data (cache_c (Cache_Set ["foo"] (bulk (long 500)) small).2) = ∅.
Proof.
  intros small.
  destruct (Set_refused_is_logged "foo" [] (bulk (long 500)) small) as (_ & Hdata & _);
    [reflexivity | reflexivity | by vm_compute | exact Hdata].
Defined.

(** X7 on an example: foo stays cached over a GET of another key. *)
Lemma removes_no_entry_example :
  is_Some (fc_data (cache_c (cache
    (interceptMessages ["GET"] [command ["GET"; "x"]] (answering [bulk "y"])
       (with_cache warm (start (Some ["f"])))).2)) !! "foo").
Proof.
  apply (proj2 (interceptMessages_removes_no_entry ["GET"] [command ["GET"; "x"]]
                  (answering [bulk "y"]) (with_cache warm (start (Some ["f"])))) "foo").
  vm_compute. by eexists.
Defined.

(** X8 on an example: a redirection to a registered upstream. *)
Lemma replaces_no_listener_example :
  listeners (interceptMessages ["GET"] [command ["GET"; "x"]]
               (answering [err "MOVED 4567 10.0.0.2:6379"]) two).2 !! "10.0.0.2:6379"
  = Some None.
Proof.
  apply (interceptMessages_replaces_no_listener ["GET"] [command ["GET"; "x"]]
           (answering [err "MOVED 4567 10.0.0.2:6379"]) two "10.0.0.2:6379" None).
  by vm_compute.
Defined.

(** X9 on an example: a GET without its key. *)
Lemma GET_without_key_example :
  (interceptMessages ["GET"] [command ["GET"]] (answering []) (start (Some ["f"]))).1
  = Panicked.
Proof.
  destruct (GET_without_key_panics (start (Some ["f"])) ["f"] [] [] (command ["GET"])
              (answering [])) as [Hpanic _].
  - reflexivity.
  - reflexivity.
  - intros cmd Hin. by apply elem_of_nil in Hin.
  - reflexivity.
  - exact Hpanic.
Defined.

(** X10 on an example: the upstream is gone. *)
Lemma upstream_error_example :
  let rt : RoundTripper := fun mm => ([], Some "connection refused") in
  (interceptMessages ["GET"] [command ["GET"; "x"]] rt (start None)).1
  = Val ([], Some "connection refused").
Proof.
  intros rt.
  destruct (upstream_error_is_relayed (start None) ["GET"] [command ["GET"; "x"]] rt []
              "connection refused") as (_ & Hrelay & _).
  - reflexivity.
  - apply Hrelay. reflexivity.
Defined.

(** X11 on an example: GET foo twice, the upstream gone the second time. *)
Lemma cold_GET_then_warm_GET_example :
  let q := command ["GET"; "foo"] in
  let gone : RoundTripper := fun mm => ([], Some "connection refused") in
  let r1 := interceptMessages ["GET"] [q] (answering [bulk "bar"]) (start (Some ["f"])) in
  (interceptMessages ["GET"] [q] gone r1.2).1 = Val ([bulk "bar"], None).
Proof.
  intros q gone r1.
  destruct (cold_GET_then_warm_GET (start (Some ["f"])) ["f"] q "foo" (bulk "bar")
              (answering [bulk "bar"]) gone) as (_ & _ & Hwarm & _);
    [reflexivity.. | exact Hwarm].
Defined.

(** X12 on an example: a MOVED and an ASK in one batch. *)
Lemma redirects_are_registered_example :
  let reply := [err "MOVED 4567 10.0.0.2:6379"; bulk "v"; err "ASK 12 10.0.0.3:6379"] in
  let mm := [command ["GET"; "x"]; command ["GET"; "y"]; command ["GET"; "z"]] in
  is_Some (listeners (interceptMessages ["GET"; "GET"; "GET"] mm (answering reply)
                        (start None)).2 !! "10.0.0.3:6379").
Proof.
  intros reply mm.
  destruct (redirects_are_registered (start None) ["GET"; "GET"; "GET"] mm
              (answering reply) reply) as [_ Hreg].
  - reflexivity.
  - reflexivity.
  - intros [|[|[|j]]] Hj; cbn in Hj; try lia; by exists "GET".
  - intros m Hin%list_elem_of_In Hred. cbn in Hin.
    destruct_or?; subst; cbn in *; try lia; done.
  - apply (Hreg (err "ASK 12 10.0.0.3:6379")); [|reflexivity|reflexivity].
    apply list_elem_of_In. cbn. auto.
Defined.

(** X13 on an example: with cache prefixes, a MOVED without its address
    after a value and before a whole MOVED. *)
Lemma short_redirect_example :
  let reply := [bulk "v"; err "MOVED 4567"; err "MOVED 4567 10.0.0.2:6379"] in
  let mm := [command ["GET"; "x"]; command ["GET"; "y"]; command ["GET"; "z"]] in
  let r := interceptMessages ["GET"; "GET"; "GET"] mm (answering reply)
             (start (Some ["f"])) in
  r.1 = Val (reply, None) /\ listeners r.2 = ∅.
Proof.
  intros reply mm r.
  assert (forall j mj, [bulk "v"] !! j = Some mj ->
            ["GET"; "GET"; "GET"] !! j <> Some "CLUSTER SLOTS"
            /\ (isRedirect mj = true -> 3 <= length (Split (Value mj) " "))) as Hpass.
  { intros [|j] mj Hj; cbn in Hj; simplify_eq. by split. }
  assert (length (Split (Value (err "MOVED 4567")) " ") < 3) as Hshort by (cbn; lia).
  pose proof (short_redirect_ends_observation (start (Some ["f"])) ["GET"; "GET"; "GET"] mm
                (answering reply) [bulk "v"] (err "MOVED 4567")
                [err "MOVED 4567 10.0.0.2:6379"] "GET" eq_refl eq_refl Hpass eq_refl
                ltac:(done) eq_refl Hshort) as Hthm.
  cbn zeta in Hthm. fold r in Hthm.
  set (r0 := interceptMessages _ mm (fun _ => ([bulk "v"], None)) _) in Hthm.
  assert (r0.1 = Val ([bulk "v"], None)) as Hr0 by by vm_compute.
  rewrite Hr0 in Hthm. destruct Hthm as [Hret Hstate]; [by vm_compute|].
  split; [exact Hret|]. rewrite Hstate. by vm_compute.
Defined.

(** X14 on an example: a value that reads like a redirection. *)
Lemma plain_replies_example :
  listeners (interceptMessages ["GET"] [command ["GET"; "x"]]
               (answering [bulk "MOVED 4567 10.0.0.2:6379"]) (start None)).2 = ∅.
Proof.
  destruct (plain_replies_register_nothing (start None) ["GET"] [command ["GET"; "x"]]
              (answering [bulk "MOVED 4567 10.0.0.2:6379"])) as (Hl & _).
  - intros cmd Hin%list_elem_of_In. cbn in Hin. by destruct_or?; subst.
  - by repeat constructor.
  - exact Hl.
Defined.

(** X15 on an example: the reply that names 10.0.0.1:6379. *)
Lemma cluster_slots_example :
  is_Some (listeners (interceptMessages ["CLUSTER SLOTS"] [command ["CLUSTER"; "SLOTS"]]
                        (answering [slotsReply]) (start None)).2 !! "10.0.0.1:6379").
Proof.
  destruct (cluster_slots_registers_nodes (start None) ["CLUSTER SLOTS"]
              [command ["CLUSTER"; "SLOTS"]] (answering [slotsReply]) slotsReply []
              (EncodeToBytes slotsReply).1 ["10.0.0.1:6379"]) as [_ Hreg].
  - reflexivity.
  - reflexivity.
  - reflexivity.
  - by vm_compute.
  - by vm_compute.
  - apply Hreg, list_elem_of_In. cbn. auto.
Defined.

(** X16 on an example: the second reply redirects, the third answers
    CLUSTER SLOTS with an error. *)
Lemma cluster_slots_failure_example :
  let reply := [bulk "v"; err "MOVED 4567 10.0.0.2:6379";
                err "ERR This instance has cluster support disabled"] in
  let mm := [command ["GET"; "x"]; command ["GET"; "y"]; command ["CLUSTER"; "SLOTS"]] in
  let r := interceptMessages ["GET"; "GET"; "CLUSTER SLOTS"] mm (answering reply)
             (start None) in
  r.1 = Val (reply, Some "malformed cluster slots reply")
  /\ is_Some (listeners r.2 !! "10.0.0.2:6379").
Proof.
  intros reply mm r.
  assert (forall j mj, [bulk "v"; err "MOVED 4567 10.0.0.2:6379"] !! j = Some mj ->
            ["GET"; "GET"; "CLUSTER SLOTS"] !! j <> Some "CLUSTER SLOTS"
            /\ (isRedirect mj = true -> 3 <= length (Split (Value mj) " "))) as Hpass.
  { intros [|[|j]] mj Hj; cbn in Hj; simplify_eq; (split; [done|]); intros Hred;
      [done | cbn; lia]. }
  pose proof (cluster_slots_failure_is_returned (start None) ["GET"; "GET"; "CLUSTER SLOTS"]
                mm (answering reply) [bulk "v"; err "MOVED 4567 10.0.0.2:6379"]
                (err "ERR This instance has cluster support disabled") []
                (EncodeToBytes (err "ERR This instance has cluster support disabled")).1
                "malformed cluster slots reply" eq_refl eq_refl Hpass eq_refl
                ltac:(right; by vm_compute)) as Hthm.
  cbn zeta in Hthm. fold r in Hthm.
  set (r0 := interceptMessages _ mm (fun _ => (_, None)) _) in Hthm.
  assert (r0.1 = Val ([bulk "v"; err "MOVED 4567 10.0.0.2:6379"], None)) as Hr0
    by by vm_compute.
  rewrite Hr0 in Hthm. destruct Hthm as [Hret Hstate].
  split; [exact Hret|]. rewrite Hstate. vm_compute. by eexists.
Defined.

(** X17 on an example: one node line and the empty line after it. *)
Lemma cluster_nodes_example :
  let line := "07c3 10.0.0.3:6379@16379 master - 0 0 1 connected 0-16383" in
  let m := bulk (line +:+ String "010" EmptyString) in
  is_Some (listeners (interceptMessages ["CLUSTER NODES"] [command ["CLUSTER"; "NODES"]]
                        (answering [m]) (start None)).2 !! "10.0.0.3:6379").
Proof.
  intros line m.
  assert (nodeLine line "10.0.0.3:6379") as Hline.
  { exists "07c3", "16379 master - 0 0 1 connected 0-16383". by repeat split. }
  destruct (cluster_nodes_registers_nodes (start None) ["CLUSTER NODES"]
              [command ["CLUSTER"; "NODES"]] (answering [m]) m) as [_ Hreg].
  - reflexivity.
  - reflexivity.
  - reflexivity.
  - reflexivity.
  - change (Split (Value m) "010") with [line; EmptyString].
    constructor; [right; by eexists|]. constructor; [by left | constructor].
  - apply (Hreg line); [|done]. apply list_elem_of_In. left. reflexivity.
Defined.

(** X18 on an example: a line that starts with the address. *)
Lemma cluster_nodes_panic_example :
  (interceptMessages ["CLUSTER NODES"] [command ["CLUSTER"; "NODES"]]
     (answering [bulk "10.0.0.3:6379@16379 master"]) (start None)).1 = Panicked.
Proof.
  destruct (cluster_nodes_line_panics (start None) ["CLUSTER NODES"]
              [command ["CLUSTER"; "NODES"]] (answering [bulk "10.0.0.3:6379@16379 master"])
              (bulk "10.0.0.3:6379@16379 master") [] "10.0.0.3:6379@16379 master" [])
    as [Hpanic _].
  - reflexivity.
  - reflexivity.
  - reflexivity.
  - reflexivity.
  - reflexivity.
  - by vm_compute.
  - exact Hpanic.
Defined.

(** X19 on an example: a dial without cache prefixes. *)
Lemma dialer_without_invalidator_example :
  let u := "10.0.0.1:6379" in
  runningInvalidators (dialer u (dialed u 7) (start None)).2 = [].
Proof.
  intros u.
  destruct (dialer_without_invalidator u (dialed u 7) (start None)) as (_ & _ & Hrun).
  - right. right. by split.
  - exact Hrun.
Defined.

(** X22 on an example: the proxy with two entries is shut down twice. *)
Lemma Shutdown_example :
  quit (Shutdown (Shutdown (serving two)).2).2 = true.
Proof.
  destruct (Shutdown_closes_quit (Shutdown (serving two)).2) as (_ & Hquit & _).
  - by vm_compute.
  - done.
  - done.
  - exact Hquit.
Defined.

(** X24 on an example. *)
Lemma Kill_example :
  let r := Kill (serving two) in quit r.2 = true /\ kill r.2 = true.
Proof.
  destruct (Kill_closes_both (serving two)) as (_ & Hquit & Hkill & _);
    [done | done | done | done | by split].
Defined.

(** X25 on an example: the pool cannot be made. *)
Lemma run_error_example :
  (@run noServer (serving (start None))).1
  = Returns (Some "cannot connect the server", false).
Proof.
  destruct (@run_returns_creation_error noServer (serving (start None))
              "cannot connect the server") as (Hret & _).
  - right. left. by split.
  - exact Hret.
Defined.

(** X26 on an example: the start of the proxy. *)
Lemma run_example :
  runningListeners (proxy (run (serving (start None))).2)
  = [Some (mkListener "/var/tmp/redisbetween-10.0.0.1-6379.sock" "10.0.0.1:6379")].
Proof.
  destruct (run_starts_every_listener (serving (start None)))
    as (_ & _ & Hrun & _); [reflexivity.. |].
  rewrite Hrun. by vm_compute.
Defined.

End FurtherExamples.
